(** * pytdd: the TDD facade of [tdd/tdd.py] over a model of its node algebra

    A tensor decision diagram (TDD) stores a tensor as a weighted, reduced
    decision diagram.  This development embeds the Python facade
    [tdd/tdd.py] ([as_tensor], [CUDAcpl], [numpy], [index], [sum],
    [contract] and the private helpers they call), the accelerated facade
    [pytdd/pytdd/tdd.py] over its backend and its coordinator, which are
    taken as given, and [pytdd/pytdd/global_method.py].

    Conventions of the embedding.
    - Python integers that count axes, positions and branch values are [nat];
      a subscript that raises [IndexError] in Python is a failing [Result].
    - An edge weight is a complex number (a [CUDAcpl] tensor) in the source.
      Here a weight is one exact integer: the properties studied are about
      structure and axis bookkeeping, not about rounding.
    - Nodes are hash-consed in the source; here a node is a finite tree, and
      the unique table that gives every tree its reference is modelled next
      to it ([intern]): two references of one table are identical exactly
      when the trees are equal. *)

From Stdlib Require Import ZArith List Lia Bool Arith PeanoNat Permutation Sorted.
Import ListNotations.

Set Warnings "-register-all".

(** ** Failures *)

(** The error taxonomy of the engine.  The Python code raises a plain
    [Exception] or an [IndexError]; the constructors name the kind.
    [BackendFailure] is an exception of the tensor library that is none of
    the engine's own. *)
Inductive Error : Type :=
| ShapeMismatch
| ShapeOrderMismatch
| IndexOutOfRange
| InvalidBranchValue
| OrderIncompatible
| BackendFailure.

Inductive Result (A : Type) : Type :=
| Ok (a : A)
| Err (e : Error).

Arguments Ok {A} a.
Arguments Err {A} e.

Definition bind {A B : Type} (r : Result A) (k : A -> Result B) : Result B :=
  match r with
  | Ok a => k a
  | Err e => Err e
  end.

Declare Scope result_scope.
Delimit Scope result_scope with result.
Notation "x <- r ;; k" := (bind r (fun x => k))
  (at level 61, r at next level, right associativity) : result_scope.
Notation "' p <- r ;; k" := (bind r (fun p => k))
  (at level 61, p pattern, r at next level, right associativity) : result_scope.
Open Scope result_scope.

(** A list subscript [l[i]]: out of range raises. *)
Definition subscript {A : Type} (l : list A) (i : nat) (e : Error) : Result A :=
  match nth_error l i with
  | Some a => Ok a
  | None => Err e
  end.

Section MapM.
Variables A B : Type.
Variable f : A -> Result B.

(** A comprehension or loop whose body may raise: the first failure wins. *)
Fixpoint mapM (l : list A) : Result (list B) :=
  match l with
  | [] => Ok []
  | a :: l' =>
      b <- f a ;;
      bs <- mapM l' ;;
      Ok (b :: bs)
  end.
End MapM.

Arguments mapM {A B} f l.

Section ZipWith.
Variables A B C : Type.
Variable f : A -> B -> C.

(** [[f(a, b) for a, b in zip(l, r)]]. *)
Fixpoint zip_with (l : list A) (r : list B) {struct l} : list C :=
  match l, r with
  | a :: l', b :: r' => f a b :: zip_with l' r'
  | _, _ => []
  end.
End ZipWith.

Arguments zip_with {A B C} f l r.

Definition is_ok {A : Type} (r : Result A) : bool :=
  match r with Ok _ => true | Err _ => false end.

(** ** Lists of positions *)

Definition mem (i : nat) (l : list nat) : bool := existsb (Nat.eqb i) l.

(** [is_order l]: [l] is a permutation of [range(len(l))]. *)
Definition is_order (l : list nat) : bool :=
  forallb (fun j => mem j l) (seq 0 (length l)).

(** Python's [sorted(l, key=key)]: a stable sort. *)
Fixpoint insert_by (key : nat -> nat) (x : nat) (l : list nat) : list nat :=
  match l with
  | [] => [x]
  | y :: l' => if key x <=? key y then x :: y :: l' else y :: insert_by key x l'
  end.

Definition sorted_by (key : nat -> nat) (l : list nat) : list nat :=
  fold_right (insert_by key) [] l.

(** Position of the first occurrence of [j] in [l] ([0] when absent). *)
Fixpoint position (j : nat) (l : list nat) : nat :=
  match l with
  | [] => 0
  | x :: l' => if x =? j then 0 else S (position j l')
  end.

(** Modelled from the spec: [node.order_inverse] is not among the sources.
    The facade uses it to turn [index_order] around, and the spec keeps
    [index_order] a permutation of [range(len(data_shape))]: the result
    lists, for every value [j], the place where [index_order] holds [j]. *)
Definition order_inverse (index_order : list nat) : list nat :=
  map (fun j => position j index_order) (seq 0 (length index_order)).

(** ** Dense tensors *)

(** A dense array: its shape (the trailing axis of size 2 that holds the real
    and imaginary part is left out) and its entry at a data index. *)
Record Tensor : Type := mkTensor {
  shape : list nat;
  entry : list nat -> Z
}.

(** [in_range idx sh]: [idx] is an index of an array of shape [sh]. *)
Fixpoint in_range (idx sh : list nat) : Prop :=
  match idx, sh with
  | [], [] => True
  | i :: idx', s :: sh' => i < s /\ in_range idx' sh'
  | _, _ => False
  end.

(** Elementwise equality of two dense arrays. *)
Definition tensor_equal (a b : Tensor) : Prop :=
  shape a = shape b /\
  forall idx, in_range idx (shape a) -> entry a idx = entry b idx.

(** Replace the element at place [i] ([l] unchanged when out of range). *)
Fixpoint set_nth {A : Type} (i : nat) (x : A) (l : list A) : list A :=
  match l, i with
  | [], _ => []
  | _ :: l', 0 => x :: l'
  | y :: l', S i' => y :: set_nth i' x l'
  end.

(** [tensor.split(1, dim)[k]] for the data axis [axis] of a tensor with
    [ndata] data axes: the slice keeps the axis, with size 1; its place [0] on
    that axis is the place [k] of [tensor]. *)
Definition split_chunk (t : Tensor) (ndata axis k : nat) : Tensor :=
  {| shape := set_nth (length (shape t) - ndata + axis) 1 (shape t);
     entry := fun idx => entry t (set_nth axis (k + nth axis idx 0) idx) |}.

(** [list(tensor.split(1, -ndata + axis - 1))]: one slice per place of the
    axis.  The dimension is counted from the end, past the trailing axis of
    the real and imaginary part; a dimension that is no data axis raises here
    or at the subscript of [data_shape] that follows it in the facade. *)
Definition split (t : Tensor) (ndata axis : nat) : Result (list Tensor) :=
  n <- subscript (shape t) (length (shape t) - ndata + axis) IndexOutOfRange ;;
  Ok (map (split_chunk t ndata axis) (seq 0 n)).

(** Can [tensor[...,0:1,:].view(parallel_shape + [2])] be taken?  The slice
    keeps one place of the last data axis, and the view needs every other
    data axis to have one place only. *)
Fixpoint view_ok (data_axes : list nat) : bool :=
  match data_axes with
  | [] => true
  | [s] => 1 <=? s
  | s :: rest => (s =? 1) && view_ok rest
  end.

(** [tensor.permute(perm)]: axis [m] of the result is axis [perm[m]] of the
    argument; [perm] must be a permutation of the axes. *)
Definition permute (t : Tensor) (perm : list nat) : Result Tensor :=
  if negb (length perm =? length (shape t)) || negb (is_order perm)
  then Err IndexOutOfRange
  else Ok {| shape := map (fun p => nth p (shape t) 0) perm;
             entry := fun idx =>
               entry t (map (fun d => nth (position d perm) idx 0)
                            (seq 0 (length perm))) |}.

(** ** Nodes and weighted nodes *)

(** Modelled from the spec: the class [node.Node] is not among the sources.
    A node reference is the shared terminal ([None] in the Python facade) or
    a node branching on the axis stored at [depth], with one weighted
    successor per branch value.  The node id given by the unique table is
    not part of the tree: the table is modelled below, and two references of
    it are the same node exactly when the trees are equal. *)
Inductive Node : Type :=
| Terminal
| Branch (depth : nat) (successors : list (Node * Z)).

(** [WeightedNode = Tuple[Node, CUDAcpl_Tensor]]. *)
Definition WeightedNode : Type := (Node * Z)%type.

Fixpoint node_eqb (a b : Node) {struct a} : bool :=
  match a, b with
  | Terminal, Terminal => true
  | Branch d s, Branch d' s' =>
      (d =? d') &&
      (fix all2 (l l' : list (Node * Z)) {struct l} : bool :=
         match l, l' with
         | [], [] => true
         | (n, w) :: r, (n', w') :: r' =>
             node_eqb n n' && (w =? w')%Z && all2 r r'
         | _, _ => false
         end) s s'
  | _, _ => false
  end.

Definition wnode_eqb (a b : WeightedNode) : bool :=
  node_eqb (fst a) (fst b) && (snd a =? snd b)%Z.

(** The value a node gives at a storage index [idx]: the product of the
    weights along the path that takes, at every node, the branch [idx] names
    for the node's depth.  An axis without node on the path is skipped. *)
Fixpoint eval_node (n : Node) (idx : list nat) {struct n} : Z :=
  match n with
  | Terminal => 1%Z
  | Branch d succ =>
      (fix pick (l : list (Node * Z)) (k : nat) {struct l} : Z :=
         match l, k with
         | [], _ => 0%Z
         | (n', w') :: _, 0 => (w' * eval_node n' idx)%Z
         | _ :: r, S k' => pick r k'
         end) succ (nth d idx 0)
  end.

Definition eval (e : WeightedNode) (idx : list nat) : Z :=
  (snd e * eval_node (fst e) idx)%Z.

(** [wf_node sh lo n]: every node of [n] sits at a depth [d >= lo] that is an
    axis of the storage shape [sh], has [sh[d]] successors, and depths grow
    strictly along every path. *)
Fixpoint wf_node (sh : list nat) (lo : nat) (n : Node) {struct n} : bool :=
  match n with
  | Terminal => true
  | Branch d succ =>
      (lo <=? d) &&
      match nth_error sh d with
      | Some s => s =? length succ
      | None => false
      end &&
      forallb (fun e => wf_node sh (S d) (fst e)) succ
  end.

(** ** The unique table *)

(** Modelled from the spec: a node reference as the unique table hands it
    out.  It is the shared terminal, or the id of a node of the table; two
    references are identical when they are the same id. *)
Inductive Ref : Type :=
| TerminalRef
| NodeRef (id : nat).

(** Modelled from the spec: a node as the unique table keeps it: its depth
    and, per branch value, the reference of the successor and the weight. *)
Record Entry : Type := mkEntry {
  entry_depth : nat;
  entry_successors : list (Ref * Z)
}.

(** Modelled from the spec: the unique table.  The id of a node is its place
    in the table: ids are given in the order of creation and never change,
    and the table only grows. *)
Definition UniqueTable : Type := list Entry.

Definition Ref_eq_dec (a b : Ref) : {a = b} + {a <> b}.
Proof. decide equality. apply Nat.eq_dec. Defined.

Definition Entry_eq_dec (a b : Entry) : {a = b} + {a <> b}.
Proof.
  decide equality.
  - apply list_eq_dec. decide equality; [apply Z.eq_dec | apply Ref_eq_dec].
  - apply Nat.eq_dec.
Defined.

(** The id of the first node of the table, from the id [id] on, that is
    structurally equal to [e]. *)
Fixpoint find_entry (e : Entry) (table : UniqueTable) (id : nat) : option nat :=
  match table with
  | [] => None
  | x :: rest =>
      if Entry_eq_dec e x then Some id else find_entry e rest (S id)
  end.

(** Modelled from the spec: [lookup_or_create(depth, weights, successors)]
    returns the existing node that is structurally equal, or creates the
    node, gives it a fresh id and inserts it. *)
Definition lookup_or_create (table : UniqueTable) (depth : nat)
    (successors : list (Ref * Z)) : UniqueTable * Ref :=
  let e := mkEntry depth successors in
  match find_entry e table 0 with
  | Some id => (table, NodeRef id)
  | None => (table ++ [e], NodeRef (length table))
  end.

(** Modelled from the spec: the reference of a node.  Every node is born
    through the unique table, the successors first: the reference of a tree
    is what [lookup_or_create] returns for its depth, the references of its
    successors and their weights. *)
Fixpoint intern (table : UniqueTable) (n : Node) {struct n}
  : UniqueTable * Ref :=
  match n with
  | Terminal => (table, TerminalRef)
  | Branch d succ =>
      let '(table', refs) :=
        (fix intern_all (table : UniqueTable) (l : list (Node * Z)) {struct l}
           : UniqueTable * list (Ref * Z) :=
           match l with
           | [] => (table, [])
           | (n', w) :: r =>
               let '(table1, ref) := intern table n' in
               let '(table2, refs) := intern_all table1 r in
               (table2, (ref, w) :: refs)
           end) table succ in
      lookup_or_create table' d refs
  end.

(** The references of a list of weighted successors, one after the other. *)
Fixpoint intern_all (table : UniqueTable) (l : list (Node * Z))
  : UniqueTable * list (Ref * Z) :=
  match l with
  | [] => (table, [])
  | e :: r =>
      let '(table1, ref) := intern table (fst e) in
      let '(table2, refs) := intern_all table1 r in
      (table2, (ref, snd e) :: refs)
  end.





(** ** The node algebra *)

Module weighted_node.

(** Modelled from the spec: part of the rule of [normalize].  The sign of
    the first non-zero weight ([1] when there is none). *)
Fixpoint leading_sign (ws : list Z) : Z :=
  match ws with
  | [] => 1%Z
  | w :: r => if (w =? 0)%Z then leading_sign r else Z.sgn w
  end.

(** Modelled from the spec: the canonical scalar [normalize] factors out of
    a successor-weight vector, which the spec leaves to the implementation.
    Here it is the greatest common divisor of the weights, with the sign of
    the first non-zero one; it is [0] exactly when every weight is [0]. *)
Definition canonical_scalar (ws : list Z) : Z :=
  (leading_sign ws * fold_right Z.gcd 0 ws)%Z.

(** Modelled from the spec: [weighted_node.normalize] is not among the
    sources.  Given an assembled node, it factors a canonical scalar out of
    the successor weights into the returned weight and applies the
    redundant-axis reduction: when all successors agree, the node is
    discarded and the shared successor is returned with the folded weight.
    An all-zero node is the terminal with weight zero.  The second argument
    is the flag the facade passes. *)
Definition normalize (w_node : WeightedNode) (iterate : bool) : WeightedNode :=
  match w_node with
  | (Terminal, w) => (Terminal, w)
  | (Branch d succ, w) =>
      let g := canonical_scalar (map snd succ) in
      if (g =? 0)%Z then (Terminal, 0%Z)
      else
        let succ' := map (fun e : Node * Z => (fst e, (snd e / g)%Z)) succ in
        match succ' with
        | [] => (Terminal, 0%Z)
        | e0 :: rest =>
            if forallb (wnode_eqb e0) rest
            then (fst e0, (w * g * snd e0)%Z)
            else (Branch d succ', (w * g)%Z)
        end
  end.

(** Modelled from the spec: [weighted_node.sum] is not among the sources.
    Rank 0: scalar addition.  Otherwise both operands are aligned to the
    smaller depth; an operand that has no node there stands for every
    branch value unchanged; the branches are summed one by one, assembled
    and normalized. *)
Fixpoint sum_node (a : Node) {struct a} : Z -> Node -> Z -> WeightedNode :=
  fix sum_with (wa : Z) (b : Node) (wb : Z) {struct b} : WeightedNode :=
    match a, b with
    | Terminal, Terminal => (Terminal, (wa + wb)%Z)
    | Branch da sa, Terminal =>
        normalize
          (Branch da (map (fun e : Node * Z =>
                             sum_node (fst e) (wa * snd e)%Z Terminal wb) sa),
           1%Z) false
    | Terminal, Branch db sb =>
        normalize
          (Branch db (map (fun e : Node * Z =>
                             sum_with wa (fst e) (wb * snd e)%Z) sb),
           1%Z) false
    | Branch da sa, Branch db sb =>
        if da <? db then
          normalize
            (Branch da (map (fun e : Node * Z =>
                               sum_node (fst e) (wa * snd e)%Z b wb) sa),
             1%Z) false
        else if db <? da then
          normalize
            (Branch db (map (fun e : Node * Z =>
                               sum_with wa (fst e) (wb * snd e)%Z) sb),
             1%Z) false
        else
          normalize
            (Branch da
               (zip_with
                  (fun e e' : Node * Z =>
                     sum_node (fst e) (wa * snd e)%Z (fst e') (wb * snd e')%Z)
                  sa sb),
             1%Z) false
    end.

(** Modelled from the spec: [weighted_node.sum] on two weighted nodes. *)
Definition sum (a b : WeightedNode) : WeightedNode :=
  sum_node (fst a) (snd a) (fst b) (snd b).

(** Modelled from the spec: part of [weighted_node.index].  The value
    requested for position [d], if any: the first pair wins. *)
Fixpoint requested (d : nat) (pairs : list (nat * nat)) : option nat :=
  match pairs with
  | [] => None
  | (p, v) :: r => if p =? d then Some v else requested d r
  end.

(** Modelled from the spec: part of [weighted_node.index].  How many of the
    fixed positions lie strictly below depth [d]. *)
Definition fixed_below (d : nat) (pairs : list (nat * nat)) : nat :=
  length (filter (fun p => p <? d) (nodup Nat.eq_dec (map fst pairs))).

(** Modelled from the spec: [weighted_node.index] is not among the sources.
    It fixes branch variables to values, one rank less per fixed position.
    At a node whose depth is requested, the branch for the value is
    selected and its weight multiplied in ([InvalidBranchValue] when the
    node has no such branch); a request for an axis the path skips does
    nothing.  A node that stays is rebuilt over its indexed successors, at
    its depth among the axes that remain, and normalized. *)
Fixpoint index_node (n : Node) (w : Z) (pairs : list (nat * nat)) {struct n}
  : Result WeightedNode :=
  match n with
  | Terminal => Ok (Terminal, w)
  | Branch d succ =>
      match requested d pairs with
      | Some v =>
          (fix pick (l : list (Node * Z)) (k : nat) {struct l}
             : Result WeightedNode :=
             match l, k with
             | [], _ => Err InvalidBranchValue
             | (n', w') :: _, 0 => index_node n' (w * w')%Z pairs
             | _ :: r, S k' => pick r k'
             end) succ v
      | None =>
          succ' <- mapM (fun e : Node * Z => index_node (fst e) (snd e) pairs)
                        succ ;;
          Ok (normalize (Branch (d - fixed_below d pairs) succ', w) false)
      end
  end.

(** Modelled from the spec: [weighted_node.index] on a weighted node. *)
Definition index (w_node : WeightedNode) (inner_indices : list (nat * nat))
  : Result WeightedNode :=
  index_node (fst w_node) (snd w_node) inner_indices.

(** Modelled from the spec: [weighted_node.isequal] is not among the
    sources.  Two weighted nodes are equal when the node references are the
    same and the weights agree (exactly here, within tolerance there). *)
Definition isequal (a b : WeightedNode) : bool := wnode_eqb a b.

(** Modelled from the spec: [weighted_node.to_CUDAcpl_Tensor] is not among
    the sources.  It expands a weighted node into the dense array of the
    given shape, the axes in storage (depth) order; the shape tells how far
    a skipped axis is replicated. *)
Definition to_CUDAcpl_Tensor (w_node : WeightedNode) (data_shape : list nat)
  : Tensor :=
  {| shape := data_shape; entry := eval w_node |}.

End weighted_node.

(** ** The facade [tdd/tdd.py] *)

Module TDD.

(** [class TDD]: the dangling weight, the shape of the tensor it stands
    for, the node reference and the index order. *)
Record TDD : Type := mkTDD {
  weights : Z;
  data_shape : list nat;
  node : Node;
  index_order : list nat
}.

Definition dim_data (self : TDD) : nat := length (data_shape self).

(** [weights.shape[:-1]]: a weight is one number here, so there is no
    parallel axis on a diagram. *)
Definition parallel_shape (self : TDD) : list nat := [].

Definition global_order (self : TDD) : list nat :=
  let increment := length (parallel_shape self) in
  seq 0 (length (parallel_shape self))
  ++ map (fun order => order + increment) (index_order self).

Definition list_eqb (l l' : list nat) : bool :=
  if list_eq_dec Nat.eq_dec l l' then true else false.

(** [__eq__]. *)
Definition eq (self other : TDD) : bool :=
  list_eqb (index_order self) (index_order other)
  && weighted_node.isequal (node self, weights self) (node other, weights other).

(** [__as_tensor_iterate].  The recursion runs from [depth] up to
    [len(data_shape)]; [todo] is the distance left, so that [todo = 0] is
    the test [depth == len(data_shape)]. *)
Fixpoint as_tensor_iterate (todo : nat) (tensor : Tensor)
    (parallel_shape data_shape index_order : list nat) (depth : nat)
    {struct todo} : Result TDD :=
  match todo with
  | 0 =>
      if view_ok (skipn (length (shape tensor) - length data_shape)
                        (shape tensor))
      then Ok (mkTDD (entry tensor (repeat 0 (length data_shape)))
                     [] Terminal [])
      else Err BackendFailure
  | S todo' =>
      split_pos <- subscript index_order depth IndexOutOfRange ;;
      split_tensor <- split tensor (length data_shape) split_pos ;;
      width <- subscript data_shape split_pos IndexOutOfRange ;;
      the_successors <-
        mapM (fun k =>
                chunk <- subscript split_tensor k IndexOutOfRange ;;
                as_tensor_iterate todo' chunk parallel_shape data_shape
                                  index_order (S depth))
             (seq 0 width) ;;
      (* [torch.stack] of an empty list raises *)
      _ <- match the_successors with
           | [] => Err BackendFailure
           | _ :: _ => Ok tt
           end ;;
      let temp_node :=
        Branch depth (map (fun item => (node item, weights item))
                          the_successors) in
      let '(new_node, new_dangle_weights) :=
        weighted_node.normalize (temp_node, 1%Z) false in
      Ok (mkTDD new_dangle_weights [] new_node [])
  end.

(** The three forms of the argument of [as_tensor]. *)
Inductive Data : Type :=
| OfTDD (t : TDD)
| OfTensor (tensor : Tensor)
| OfTuple (tensor : Tensor) (parallel_shape index_order : list nat).

Definition clone (self : TDD) : TDD :=
  mkTDD (weights self) (data_shape self) (node self) (index_order self).

(** The body of [as_tensor] once the argument is taken apart. *)
Definition as_tensor_of (tensor : Tensor) (parallel_shape index_order : list nat)
  : Result TDD :=
  let data_shape := skipn (length parallel_shape) (shape tensor) in
  let result_index_order :=
    match index_order with
    | [] => seq 0 (length data_shape)
    | _ :: _ => index_order
    end in
  if negb (length data_shape =? length result_index_order)
  then Err ShapeOrderMismatch
  else
    res <- as_tensor_iterate (length data_shape - 0) tensor parallel_shape
                             data_shape result_index_order 0 ;;
    Ok (mkTDD (weights res) data_shape (node res) result_index_order).

(** [as_tensor]. *)
Definition as_tensor (data : Data) : Result TDD :=
  match data with
  | OfTDD t => Ok (clone t)
  | OfTuple tensor parallel_shape index_order =>
      as_tensor_of tensor parallel_shape index_order
  | OfTensor tensor => as_tensor_of tensor [] []
  end.

(** [CUDAcpl]: the dense array of the diagram. *)
Definition CUDAcpl (self : TDD) : Result Tensor :=
  trival_ordered_data_shape <-
    mapM (fun i => subscript (data_shape self) i IndexOutOfRange)
         (order_inverse (index_order self)) ;;
  let node_data :=
    weighted_node.to_CUDAcpl_Tensor (node self, weights self)
                                    trival_ordered_data_shape in
  permute node_data (global_order self).

(** [__index_reduce_proc]. *)
Definition index_reduce_proc (self : TDD) (reduced_indices : list nat)
  : Result (list nat * list nat) :=
  kept <-
    mapM (fun i =>
            s <- subscript (data_shape self) i IndexOutOfRange ;;
            o <- subscript (index_order self) i IndexOutOfRange ;;
            Ok (s, o))
         (filter (fun i => negb (mem i reduced_indices))
                 (seq 0 (length (data_shape self)))) ;;
  let new_data_shape := map fst kept in
  let indexed_index_order := map snd kept in
  let new_index_order :=
    sorted_by (fun k => nth k indexed_index_order 0)
              (seq 0 (length indexed_index_order)) in
  Ok (new_data_shape, new_index_order).

(** [index]. *)
Definition index (self : TDD) (data_indices : list (nat * nat)) : Result TDD :=
  let reversed_order := order_inverse (index_order self) in
  inner_indices <-
    mapM (fun item : nat * nat =>
            r <- subscript reversed_order (fst item) IndexOutOfRange ;;
            Ok (r, snd item))
         data_indices ;;
  '(new_node, new_dangle_weights) <-
    weighted_node.index (node self, weights self) inner_indices ;;
  let indexed_indices := map fst inner_indices in
  '(new_data_shape, new_index_order) <-
    index_reduce_proc self indexed_indices ;;
  Ok (mkTDD new_dangle_weights new_data_shape new_node new_index_order).

(** [sum].  The facade raises nothing of its own; the result is a
    [Result] so that it composes with the operations that do. *)
Definition sum (a b : TDD) : Result TDD :=
  let '(new_node, new_weights) :=
    weighted_node.sum (node a, weights a) (node b, weights b) in
  Ok (mkTDD new_weights (data_shape a) new_node (index_order a)).

(** The renumbering of one pending pair of [contract], after the pair
    [item] has been summed out. *)
Definition renumber (item pending : nat * nat) : nat * nat :=
  let '(i0, i1) := pending in
  let i0 := if fst item <? i0 then i0 - 1 else i0 in
  let i0 := if snd item <? i0 then i0 - 1 else i0 in
  let i1 := if fst item <? i1 then i1 - 1 else i1 in
  let i1 := if snd item <? i1 then i1 - 1 else i1 in
  (i0, i1).

(** The inner [for] loop of [contract]: the slices for the values
    [1 .. index_width - 1] are added to the slice for the value [0]. *)
Fixpoint contract_sum (res : WeightedNode) (item : nat * nat)
    (values : list nat) (summed : WeightedNode) : Result WeightedNode :=
  match values with
  | [] => Ok summed
  | i :: values' =>
      new <- weighted_node.index res [(fst item, i); (snd item, i)] ;;
      contract_sum res item values' (weighted_node.sum summed new)
  end.

(** The [while] loop of [contract]; [pending] is [inner_indices] and
    [rounds] bounds the number of turns by its length. *)
Fixpoint contract_loop (self : TDD) (rounds : nat) (res : WeightedNode)
    (pending : list (nat * nat)) {struct rounds} : Result WeightedNode :=
  match pending, rounds with
  | [], _ => Ok res
  | _ :: _, 0 => Ok res
  | item :: rest, S rounds' =>
      o <- subscript (index_order self) (fst item) IndexOutOfRange ;;
      index_width <- subscript (data_shape self) o IndexOutOfRange ;;
      summed <- weighted_node.index res [(fst item, 0); (snd item, 0)] ;;
      summed <- contract_sum res item (seq 1 (index_width - 1)) summed ;;
      contract_loop self rounds' summed (map (renumber item) rest)
  end.

(** [contract].  [data_indices] is the pair of the two lists of axes. *)
Definition contract (self : TDD) (data_indices : list nat * list nat)
  : Result TDD :=
  let reversed_order := order_inverse (index_order self) in
  inner_indices <-
    mapM (fun k =>
            a <- subscript (fst data_indices) k IndexOutOfRange ;;
            ra <- subscript reversed_order a IndexOutOfRange ;;
            b <- subscript (snd data_indices) k IndexOutOfRange ;;
            rb <- subscript reversed_order b IndexOutOfRange ;;
            Ok (ra, rb))
         (seq 0 (length (fst data_indices))) ;;
  '(res_node, res_weights) <-
    contract_loop self (length inner_indices) (node self, weights self)
                  inner_indices ;;
  let reduced_indices :=
    flat_map (fun pair : nat * nat => [fst pair; snd pair]) inner_indices in
  '(new_data_shape, new_index_order) <-
    index_reduce_proc self reduced_indices ;;
  Ok (mkTDD res_weights new_data_shape res_node new_index_order).

(** [global_shape]: the parallel axes, then the data axes. *)
Definition global_shape (self : TDD) : list nat :=
  parallel_shape self ++ data_shape self.

(** [numpy]: the array of [CUDAcpl]; [CUDAcpl2np] changes the representation
    of the complex numbers only, and a weight is one number here. *)
Definition numpy (self : TDD) : Result Tensor := CUDAcpl self.

End TDD.

(** ** The argument check of the accelerated facade [pytdd/pytdd/tdd.py] *)

Module pytdd.

Section AsTensor.
(** The diagram handle the backend returns. *)
Variable Pointer : Type.
(** [ctdd.as_tensor], the accelerated backend. *)
Variable ctdd_as_tensor : Tensor -> nat -> list nat -> Result Pointer.
(** [TDD.coordinator.as_tensor_order(coordinator_info)]. *)
Variable coordinator_order : list nat.

(** The order [as_tensor] goes on with: the coordinator's when none is
    given. *)
Definition storage_order_of (storage_order : list nat) : list nat :=
  match storage_order with
  | [] => coordinator_order
  | _ :: _ => storage_order
  end.

(** The examination: does [as_tensor] raise before it calls the backend? *)
Definition examination_raises (tensor : Tensor) (parallel_i_num : nat)
    (storage_order : list nat) : bool :=
  let storage_order := storage_order_of storage_order in
  let data_shape := skipn parallel_i_num (shape tensor) in
  negb (length data_shape =? length storage_order)
  && negb (length storage_order =? 0).

(** [as_tensor] on a tuple [(tensor, parallel_i_num, storage_order)]. *)
Definition as_tensor (tensor : Tensor) (parallel_i_num : nat)
    (storage_order : list nat) : Result Pointer :=
  if examination_raises tensor parallel_i_num storage_order
  then Err ShapeOrderMismatch
  else ctdd_as_tensor tensor parallel_i_num (storage_order_of storage_order).
End AsTensor.

End pytdd.

(** ** The operations of the accelerated facade [pytdd/pytdd/tdd.py] *)

Module pytdd_tdd.

(** The argument [axes] of [tensordot]: a number of axes, or the lists of
    the axes of the two operands. *)
Inductive Axes : Type :=
| AxesNum (n : nat)
| AxesLists (axes : list (list nat)).

Section Facade.
(** The handle the backend gives a diagram, the information it keeps on it,
    the order information a coordinator keeps for it, and what a caller
    hands in for the latter. *)
Context {Pointer Info OrderInfo Seed : Type}.

(** [AbstractCoordinator], the interface of the order coordinators: the
    classes that implement it are not among the sources, so the hooks are
    taken as given; each may raise. *)
Class AbstractCoordinator : Type := {
  create_order_info : Seed -> Result OrderInfo;
  as_tensor_order : OrderInfo -> Result (list nat);
  trace_order_info : OrderInfo -> list (list nat) -> Result OrderInfo;
  tensordot_rearrangement :
    OrderInfo -> OrderInfo -> Axes -> Result (list bool);
  tensordot_order_info : OrderInfo -> OrderInfo -> Axes -> Result OrderInfo;
  permute_order_info : OrderInfo -> list nat -> Result OrderInfo
}.

(** The C++ package [ctdd]: its functions are taken as given; each may
    raise. *)
Class Backend : Type := {
  ctdd_get_tdd_info : Pointer -> Result Info;
  ctdd_get_tdd_size : Pointer -> Result nat;
  ctdd_to_CUDAcpl : Pointer -> Result Tensor;
  ctdd_as_tensor : Tensor -> nat -> list nat -> Result Pointer;
  ctdd_as_tensor_clone : Pointer -> Result Pointer;
  ctdd_trace : Pointer -> list nat -> list nat -> Result Pointer;
  ctdd_tensordot_num :
    Pointer -> Pointer -> nat -> list bool -> Result Pointer;
  ctdd_tensordot_ls :
    Pointer -> Pointer -> list nat -> list nat -> list bool -> Result Pointer;
  ctdd_permute : Pointer -> list nat -> Result Pointer
}.

Context {coordinator : AbstractCoordinator} {ctdd : Backend}.

(** [class TDD]: the handle, the backend's information on it and the order
    information. *)
Record TDD : Type := mkTDD {
  pointer : Pointer;
  info : Info;
  coordinator_info : OrderInfo
}.

(** [__init__]: the information is read from the backend. *)
Definition init (pointer : Pointer) (coordinator_info : OrderInfo)
  : Result TDD :=
  i <- ctdd_get_tdd_info pointer ;;
  Ok (mkTDD pointer i coordinator_info).

(** [size]. *)
Definition size (self : TDD) : Result nat := ctdd_get_tdd_size (pointer self).

(** [CUDAcpl]. *)
Definition CUDAcpl (self : TDD) : Result Tensor := ctdd_to_CUDAcpl (pointer self).

(** [numpy]: the array of [CUDAcpl], in the other representation of the
    complex numbers. *)
Definition numpy (self : TDD) : Result Tensor := ctdd_to_CUDAcpl (pointer self).

(** The forms of the argument of [as_tensor]: a diagram, or a pair of the
    data and the order information, the data being a tensor or a tuple
    [(tensor, parallel_i_num, storage_order)]. *)
Inductive Data : Type :=
| OfTDD (t : TDD)
| OfTensor (tensor : Tensor) (coordinator_info : Seed)
| OfTuple (tensor : Tensor) (parallel_i_num : nat) (storage_order : list nat)
          (coordinator_info : Seed).

(** The body of [as_tensor] once the pair is taken apart: the coordinator
    is asked for an order only when none is given. *)
Definition as_tensor_of (tensor : Tensor) (parallel_i_num : nat)
    (storage_order : list nat) (seed : Seed) : Result TDD :=
  coordinator_info <- create_order_info seed ;;
  coordinator_order <-
    match storage_order with
    | [] => as_tensor_order coordinator_info
    | _ :: _ => Ok []
    end ;;
  p <- pytdd.as_tensor Pointer ctdd_as_tensor coordinator_order
                       tensor parallel_i_num storage_order ;;
  init p coordinator_info.

(** [as_tensor]. *)
Definition as_tensor (data : Data) : Result TDD :=
  match data with
  | OfTDD t =>
      p <- ctdd_as_tensor_clone (pointer t) ;;
      init p (coordinator_info t)
  | OfTensor tensor seed => as_tensor_of tensor 0 [] seed
  | OfTuple tensor parallel_i_num storage_order seed =>
      as_tensor_of tensor parallel_i_num storage_order seed
  end.

(** [trace]. *)
Definition trace (tensor : TDD) (axes : list (list nat)) : Result TDD :=
  axes0 <- subscript axes 0 IndexOutOfRange ;;
  axes1 <- subscript axes 1 IndexOutOfRange ;;
  if negb (length axes0 =? length axes1) then Err ShapeMismatch
  else
    p <- ctdd_trace (pointer tensor) axes0 axes1 ;;
    new_info <- trace_order_info (coordinator_info tensor) axes ;;
    init p new_info.

(** [tensordot]: the coordinator is asked before the axes are examined. *)
Definition tensordot (a b : TDD) (axes : Axes) (rearrangement : list bool)
  : Result TDD :=
  rearrangement <-
    match rearrangement with
    | [] => tensordot_rearrangement (coordinator_info a) (coordinator_info b)
                                    axes
    | _ :: _ => Ok rearrangement
    end ;;
  new_coordinator_info <-
    tensordot_order_info (coordinator_info a) (coordinator_info b) axes ;;
  p <- match axes with
       | AxesNum n =>
           ctdd_tensordot_num (pointer a) (pointer b) n rearrangement
       | AxesLists lists =>
           i1 <- subscript lists 0 IndexOutOfRange ;;
           i2 <- subscript lists 1 IndexOutOfRange ;;
           if negb (length i1 =? length i2) then Err ShapeMismatch
           else ctdd_tensordot_ls (pointer a) (pointer b) i1 i2 rearrangement
       end ;;
  init p new_coordinator_info.

(** [permute]. *)
Definition permute (tensor : TDD) (perm : list nat) : Result TDD :=
  p <- ctdd_permute (pointer tensor) perm ;;
  new_info <- permute_order_info (coordinator_info tensor) perm ;;
  init p new_info.

End Facade.

Arguments AbstractCoordinator : clear implicits.
Arguments Backend : clear implicits.
Arguments TDD : clear implicits.
Arguments Data : clear implicits.

End pytdd_tdd.

(** ** [pytdd/pytdd/global_method.py] *)

Module global_method.

(** [reset]: the backend is reset for the device, [1] for CUDA and [0] for
    the CPU; [ctdd_reset] is the backend's function. *)
Definition reset {State : Type} (ctdd_reset : nat -> State -> State)
    (device_cuda : bool) : State -> State :=
  if device_cuda then ctdd_reset 1 else ctdd_reset 0.

End global_method.

(** ** Notions the properties are stated with *)

(** A diagram whose bookkeeping is in order: [index_order] is a permutation
    of the axes of [data_shape]. *)
Definition valid_order (t : TDD.TDD) : Prop :=
  is_order (TDD.index_order t) = true /\
  length (TDD.index_order t) = length (TDD.data_shape t).

(** The shape [CUDAcpl] hands to the node algebra: the extent of every
    storage axis, as the facade reads it off [data_shape]. *)
Definition storage_shape (t : TDD.TDD) : list nat :=
  map (fun i => nth i (TDD.data_shape t) 0) (order_inverse (TDD.index_order t)).

(** The axes [__index_reduce_proc] keeps. *)
Definition kept_axes (t : TDD.TDD) (reduced_indices : list nat) : list nat :=
  filter (fun i => negb (mem i reduced_indices))
         (seq 0 (length (TDD.data_shape t))).

(** [fits idx sh]: the storage index [idx] names a branch on every axis of
    the storage shape [sh]. *)
Definition fits (idx sh : list nat) : Prop :=
  forall d s, nth_error sh d = Some s -> nth d idx 0 < s.



(** The extents of the storage axes of a diagram built by [as_tensor]: depth
    [d] branches on the axis [order[d]]. *)
Definition split_shape (data_shape order : list nat) : list nat :=
  map (fun a => nth a data_shape 0) order.

(** The index of the tensor that [as_tensor] reads for the storage index
    [j], from depth [depth] on: the place [order[d]] holds [j[d]]. *)
Definition scatter (order : list nat) (n depth : nat) (j : list nat) : list nat :=
  fold_right (fun d acc => set_nth (nth d order 0) (nth d j 0) acc)
             (repeat 0 n) (seq depth (n - depth)).

(** The order [as_tensor] goes on with: the identity when none is given. *)
Definition result_index_order (data_shape index_order : list nat) : list nat :=
  match index_order with
  | [] => seq 0 (length data_shape)
  | _ :: _ => index_order
  end.

(** An order that is its own inverse. *)
Definition self_inverse (order : list nat) : Prop :=
  forall d, d < length order -> nth (nth d order 0) order 0 = d.

Definition is_terminal (n : Node) : bool :=
  match n with Terminal => true | Branch _ _ => false end.

(** Are all the successors one and the same weighted node? *)
Definition all_equal (succ : list (Node * Z)) : bool :=
  match succ with
  | [] => true
  | e0 :: rest => forallb (wnode_eqb e0) rest
  end.

(** [reduced_node n]: every node of [n] is in the form [normalize] leaves:
    the canonical scalar of its successor weights is 1, its successors are
    not all the same, and a successor of weight zero is the terminal. *)
Fixpoint reduced_node (n : Node) {struct n} : bool :=
  match n with
  | Terminal => true
  | Branch _ succ =>
      (weighted_node.canonical_scalar (map snd succ) =? 1)%Z
      && negb (all_equal succ)
      && forallb (fun e : Node * Z =>
                    (if (snd e =? 0)%Z then is_terminal (fst e) else true)
                    && reduced_node (fst e)) succ
  end.

(** A weighted node in reduced form: the zero tensor is the terminal with
    weight zero. *)
Definition reduced (e : WeightedNode) : bool :=
  (if (snd e =? 0)%Z then is_terminal (fst e) else true) && reduced_node (fst e).

(** The pairs [index] hands to the node algebra: every position is taken
    through [order_inverse(index_order)]. *)
Definition inner_indices (t : TDD.TDD) (data_indices : list (nat * nat))
  : list (nat * nat) :=
  map (fun item : nat * nat =>
         (nth (fst item) (order_inverse (TDD.index_order t)) 0, snd item))
      data_indices.

(** The storage index [CUDAcpl] reads for the index [idx] of its result:
    the final [permute] by [order] takes place [m] of [idx] to the storage
    axis [order[m]]. *)
Definition storage_index (order idx : list nat) : list nat :=
  map (fun d => nth (position d order) idx 0) (seq 0 (length order)).

(** A diagram whose nodes fit the storage shape [CUDAcpl] reads. *)
Definition well_formed (t : TDD.TDD) : Prop :=
  valid_order t /\ wf_node (storage_shape t) 0 (TDD.node t) = true.

(** Two diagrams stand for the same tensor: same bookkeeping, and dense
    arrays that are equal entry by entry. *)
Definition same_tensor (x y : TDD.TDD) : Prop :=
  TDD.data_shape x = TDD.data_shape y /\
  TDD.index_order x = TDD.index_order y /\
  exists tx ty,
    TDD.CUDAcpl x = Ok tx /\ TDD.CUDAcpl y = Ok ty /\ tensor_equal tx ty.

(** What is shown of the sum of the nodes [a] and [b], whatever the weights:
    its value at every index that fits the shape [sh], and that it fits the
    shape. *)
Definition sum_ok (sh : list nat) (a b : Node) : Prop :=
  forall lo wa wb,
    wf_node sh lo a = true -> wf_node sh lo b = true ->
    (forall idx, fits idx sh ->
       eval (weighted_node.sum_node a wa b wb) idx
       = (wa * eval_node a idx + wb * eval_node b idx)%Z) /\
    wf_node sh lo (fst (weighted_node.sum_node a wa b wb)) = true.

(** Two weighted nodes have the same value at every storage index of the
    shape [sh]. *)
Definition agree (sh : list nat) (e1 e2 : WeightedNode) : Prop :=
  forall j, length j = length sh -> fits j sh -> eval e1 j = eval e2 j.

(** What is shown of two nodes in reduced form: when they agree, they are
    the same node with the same weight. *)
Definition unique_ok (sh : list nat) (n1 n2 : Node) : Prop :=
  forall lo w1 w2,
    wf_node sh lo n1 = true -> wf_node sh lo n2 = true ->
    reduced (n1, w1) = true -> reduced (n2, w2) = true ->
    agree sh (n1, w1) (n2, w2) ->
    n1 = n2 /\ w1 = w2.


(** The diagram of a weighted node under a data shape and an index order. *)
Definition with_bookkeeping (sh o : list nat) (e : WeightedNode) : TDD.TDD :=
  TDD.mkTDD (snd e) sh (fst e) o.

(** The slice of [t] with the storage axes [ri] and [rj] fixed to [v], as a
    diagram under the shape [sh] and the order [o]. *)
Definition slice_of (t : TDD.TDD) (ri rj : nat) (sh o : list nat) (v : nat)
  : Result TDD.TDD :=
  e <- weighted_node.index (TDD.node t, TDD.weights t) [(ri, v); (rj, v)] ;;
  Ok (with_bookkeeping sh o e).

(** The trace of the axes [i] and [j] by brute force: the slices
    [index((i,v),(j,v))] for every value [v] of the axis, accumulated with
    [sum] in the order of the values. *)
Definition brute_force_trace (t : TDD.TDD) (i j : nat) : Result TDD.TDD :=
  width <- subscript (TDD.data_shape t) i IndexOutOfRange ;;
  slices <- mapM (fun v => TDD.index t [(i, v); (j, v)]) (seq 0 width) ;;
  match slices with
  | [] => Err InvalidBranchValue
  | first :: others =>
      fold_left (fun acc slice => a <- acc ;; TDD.sum a slice) others (Ok first)
  end.

(** What the renumbering of a pending position is meant to be: the position
    moves down by the number of removed positions strictly below it. *)
Definition shift_down (item : nat * nat) (x : nat) : nat :=
  x - (if fst item <? x then 1 else 0) - (if snd item <? x then 1 else 0).

(** The entries of [index_order] at the axes [__index_reduce_proc] keeps. *)
Definition kept_order (t : TDD.TDD) (reduced_indices : list nat) : list nat :=
  map (fun i => nth i (TDD.index_order t) 0) (kept_axes t reduced_indices).

(** The diagram is stored under the default order [0, 1, ..]. *)
Definition default_order (t : TDD.TDD) : Prop :=
  TDD.index_order t = seq 0 (length (TDD.data_shape t)).

(** [data_shape] without its entries at the places in [axes]. *)
Definition shape_without (t : TDD.TDD) (axes : list nat) : list nat :=
  map (fun i => nth i (TDD.data_shape t) 0) (kept_axes t axes).

(** The axes a contraction names: both axes of every pair
    [(data_indices[0][k], data_indices[1][k])]. *)
Definition paired_axes (data_indices : list nat * list nat) : list nat :=
  flat_map (fun pr : nat * nat => [fst pr; snd pr])
           (combine (fst data_indices) (snd data_indices)).

(** The storage positions of the axes in [axes]: each is taken through
    [order_inverse(index_order)]. *)
Definition storage_positions (t : TDD.TDD) (axes : list nat) : list nat :=
  map (fun a => nth a (order_inverse (TDD.index_order t)) 0) axes.

(** The storage index of the index [idx] of the tensor under [order]: depth
    [d] takes the place [order[d]] of [idx]. *)
Definition gather (order idx : list nat) : list nat :=
  map (fun a => nth a idx 0) order.

(** The storage index a diagram is read at once the positions of [pairs]
    are fixed: a fixed position holds its value, and a position that stays
    holds the entry of [j] for its place among those that stay. *)
Definition fixed_index (pairs : list (nat * nat)) (n : nat) (j : list nat)
  : list nat :=
  map (fun d => match weighted_node.requested d pairs with
                | Some v => v
                | None => nth (d - weighted_node.fixed_below d pairs) j 0
                end)
      (seq 0 n).

(** The list without its element at place [p]. *)
Fixpoint remove_nth {A : Type} (p : nat) (l : list A) {struct l} : list A :=
  match l, p with
  | [], _ => []
  | _ :: l', 0 => l'
  | x :: l', S p' => x :: remove_nth p' l'
  end.

(** The sum of [f v] over the values [v] of a list. *)
Definition sum_over (values : list nat) (f : nat -> Z) : Z :=
  fold_right (fun v acc => (f v + acc)%Z) 0%Z values.







(** Sample tensors: the entry at an index spells the index in decimal digits
    after a leading 1, so all entries differ. *)
Module Samples.

Definition digits (idx : list nat) : Z :=
  fold_left (fun acc i => (10 * acc + Z.of_nat i)%Z) idx 1%Z.

Definition T22 : Tensor := mkTensor [2; 2] digits.
Definition T222 : Tensor := mkTensor [2; 2; 2] digits.
Definition T2222 : Tensor := mkTensor [2; 2; 2; 2] digits.

(** The constant tensors [5 * ones(2)] and [5 * ones(3)]. *)
Definition fives2 : Tensor := mkTensor [2] (fun _ => 5%Z).
Definition fives3 : Tensor := mkTensor [3] (fun _ => 5%Z).

(** The matrix [[0, 1], [0, 0]] and the zero matrix. *)
Definition E01 : Tensor :=
  mkTensor [2; 2] (fun idx => match idx with [0; 1] => 1%Z | _ => 0%Z end).

(** Three diagrams of 2x2 matrices under the order [1,0]: the nodes hold the
    transposed matrices [[1,2],[3,4]], [[5,5],[6,6]] and the constant 7. *)
Definition Da : TDD.TDD :=
  TDD.mkTDD 1 [2; 2]
    (Branch 0 [(Branch 1 [(Terminal, 1); (Terminal, 2)], 1);
               (Branch 1 [(Terminal, 3); (Terminal, 4)], 1)])%Z
    [1; 0].
Definition Db : TDD.TDD :=
  TDD.mkTDD 1 [2; 2] (Branch 0 [(Terminal, 5); (Terminal, 6)])%Z [1; 0].

(** All indices of a 2x2 array. *)
Definition all22 : list (list nat) := [[0; 0]; [0; 1]; [1; 0]; [1; 1]].

End Samples.

(** A 2x0 array: its second axis is empty. *)
Definition empty_axis_sample : Tensor := mkTensor [2; 0] Samples.digits.

(** Arrays whose axes differ in their extents. *)
Definition T223 : Tensor := mkTensor [2; 2; 3] Samples.digits.


(** * Properties *)

(** ** Results *)

Lemma bind_ok_inv {A B : Type} (r : Result A) (k : A -> Result B) (b : B) :
  bind r k = Ok b -> exists a, r = Ok a /\ k a = Ok b.
Proof. destruct r as [a|e]; simpl; intros H; [eauto | discriminate]. Qed.

Lemma subscript_ok {A : Type} (d : A) (l : list A) (i : nat) (e : Error) :
  i < length l -> subscript l i e = Ok (nth i l d).
Proof.
  intros H. unfold subscript.
  rewrite (nth_error_nth' l d H). reflexivity.
Qed.

Lemma subscript_err {A : Type} (l : list A) (i : nat) (e : Error) :
  length l <= i -> subscript l i e = Err e.
Proof.
  intros H. unfold subscript.
  apply nth_error_None in H. rewrite H. reflexivity.
Qed.

Lemma mapM_ok {A B : Type} (g : A -> B) (f : A -> Result B) (l : list A) :
  (forall a, In a l -> f a = Ok (g a)) -> mapM f l = Ok (map g l).
Proof.
  induction l as [|a l IH]; simpl; intros H; [reflexivity|].
  rewrite (H a (or_introl eq_refl)). simpl.
  rewrite IH by (intros; apply H; now right). reflexivity.
Qed.

Lemma mapM_ext {A B : Type} (g f : A -> Result B) (l : list A) :
  (forall a, In a l -> f a = g a) -> mapM f l = mapM g l.
Proof.
  induction l as [|a l IH]; simpl; intros H; [reflexivity|].
  rewrite (H a (or_introl eq_refl)), IH by (intros; apply H; now right).
  reflexivity.
Qed.

(** ** Orders *)

Lemma mem_In (i : nat) (l : list nat) : mem i l = true <-> In i l.
Proof.
  unfold mem. rewrite existsb_exists. split.
  - intros (x & Hx & E). apply Nat.eqb_eq in E. now subst.
  - intros H. exists i. split; [assumption | apply Nat.eqb_refl].
Qed.

Lemma is_order_incl (l : list nat) :
  is_order l = true <-> incl (seq 0 (length l)) l.
Proof.
  unfold is_order. rewrite forallb_forall. unfold incl.
  split; intros H j Hj; apply mem_In || apply (proj1 (mem_In _ _)); auto.
Qed.

Lemma is_order_NoDup (l : list nat) : is_order l = true -> NoDup l.
Proof.
  intros H. apply is_order_incl in H.
  apply (NoDup_incl_NoDup (seq_NoDup (length l) 0)); [|assumption].
  rewrite length_seq. apply Nat.le_refl.
Qed.

Lemma is_order_bound (l : list nat) (x : nat) :
  is_order l = true -> In x l -> x < length l.
Proof.
  intros H Hx. apply is_order_incl in H.
  assert (I : incl l (seq 0 (length l))).
  { apply NoDup_length_incl; [apply seq_NoDup | | assumption].
    rewrite length_seq. apply Nat.le_refl. }
  apply I in Hx. apply in_seq in Hx. lia.
Qed.

Lemma is_order_In (l : list nat) (j : nat) :
  is_order l = true -> j < length l -> In j l.
Proof.
  intros H Hj. apply is_order_incl in H. apply H, in_seq. lia.
Qed.

Lemma position_lt (j : nat) (l : list nat) : In j l -> position j l < length l.
Proof.
  induction l as [|x l IH]; simpl; [tauto|].
  intros [->|H].
  - rewrite Nat.eqb_refl. lia.
  - destruct (x =? j); [lia|]. apply IH in H. lia.
Qed.

Lemma nth_position (j : nat) (l : list nat) (d : nat) :
  In j l -> nth (position j l) l d = j.
Proof.
  induction l as [|x l IH]; simpl; [tauto|].
  intros H. destruct (x =? j) eqn:E.
  - now apply Nat.eqb_eq in E.
  - apply IH. destruct H as [->|H]; [|assumption].
    rewrite Nat.eqb_refl in E. discriminate.
Qed.

Lemma position_nth (l : list nat) (m d : nat) :
  NoDup l -> m < length l -> position (nth m l d) l = m.
Proof.
  intros ND. revert m. induction ND as [|x l Hx ND IH]; simpl; intros m Hm; [lia|].
  destruct m as [|m].
  - now rewrite Nat.eqb_refl.
  - destruct (x =? nth m l d) eqn:E.
    + apply Nat.eqb_eq in E. exfalso. apply Hx. subst x. apply nth_In. lia.
    + f_equal. apply IH. lia.
Qed.

Lemma length_order_inverse (l : list nat) :
  length (order_inverse l) = length l.
Proof. unfold order_inverse. now rewrite length_map, length_seq. Qed.

Lemma nth_order_inverse (l : list nat) (j d : nat) :
  j < length l -> nth j (order_inverse l) d = position j l.
Proof.
  intros H. unfold order_inverse.
  rewrite (nth_indep _ d (position 0 l)) by now rewrite length_map, length_seq.
  rewrite (map_nth (fun j => position j l) (seq 0 (length l)) 0 j).
  now rewrite seq_nth.
Qed.

(** Through the inverse and back: [index_order[order_inverse[i]] = i]. *)
Lemma order_inverse_cancel (l : list nat) (i : nat) :
  is_order l = true -> i < length l ->
  nth (nth i (order_inverse l) 0) l 0 = i.
Proof.
  intros H Hi. rewrite nth_order_inverse by assumption.
  apply nth_position. now apply is_order_In.
Qed.

Lemma order_inverse_lt (l : list nat) (i : nat) :
  is_order l = true -> i < length l -> nth i (order_inverse l) 0 < length l.
Proof.
  intros H Hi. rewrite nth_order_inverse by assumption.
  apply position_lt. now apply is_order_In.
Qed.

Lemma self_inverse_position (order : list nat) (d : nat) :
  is_order order = true -> self_inverse order -> d < length order ->
  position d order = nth d order 0.
Proof.
  intros P S Hd. pose proof (is_order_NoDup _ P) as ND.
  rewrite <- (S d Hd) at 1. apply position_nth; [assumption|].
  apply is_order_bound; [assumption | now apply nth_In].
Qed.

Lemma self_inverse_order_inverse (order : list nat) :
  is_order order = true -> self_inverse order -> order_inverse order = order.
Proof.
  intros P S. apply (nth_ext _ _ 0 0); [apply length_order_inverse|].
  intros d Hd. rewrite length_order_inverse in Hd.
  rewrite nth_order_inverse by assumption.
  now apply self_inverse_position.
Qed.

Lemma mapM_err_inv {A B : Type} (f : A -> Result B) (l : list A) (e : Error) :
  mapM f l = Err e -> exists a, In a l /\ f a = Err e.
Proof.
  induction l as [|a l IH]; simpl; [discriminate|].
  destruct (f a) as [b|e'] eqn:Fa; simpl.
  - destruct (mapM f l) as [bs|e'']; simpl; [discriminate|].
    intros H. destruct (IH H) as (a' & Ha' & Fa'). exists a'. auto.
  - intros H. exists a. split; [now left | congruence].
Qed.

(** ** The renumbering of pending pairs in [contract] *)

(** The renumbering agrees with the intended shift except for the position
    right above [item[1]] when [item[0] <= item[1]]: the second comparison is
    made with the position already moved. *)
Lemma renumber_shift_down (p q x y : nat) :
  (p <= q -> x <> S q /\ y <> S q) ->
  TDD.renumber (p, q) (x, y) = (shift_down (p, q) x, shift_down (p, q) y).
Proof.
  intros H. unfold TDD.renumber, shift_down. cbn [fst snd].
  destruct (p <? x) eqn:Px, (p <? y) eqn:Py;
    repeat match goal with
      | |- context [?a <? ?b] => destruct (a <? b) eqn:?
      end;
    repeat match goal with
      | E : (_ <? _) = true |- _ => apply Nat.ltb_lt in E
      | E : (_ <? _) = false |- _ => apply Nat.ltb_ge in E
      end;
    f_equal; lia.
Qed.

Lemma renumber_adjacent (p q : nat) :
  p <= q ->
  TDD.renumber (p, q) (S q, S q) = (q, q) /\ shift_down (p, q) (S q) = q - 1.
Proof.
  intros H. unfold TDD.renumber, shift_down. cbn [fst snd].
  repeat match goal with
    | |- context [?a <? ?b] => destruct (a <? b) eqn:?
    end;
  repeat match goal with
    | E : (_ <? _) = true |- _ => apply Nat.ltb_lt in E
    | E : (_ <? _) = false |- _ => apply Nat.ltb_ge in E
    end;
  (split; [f_equal|]); lia.
Qed.

(** C5 (code defect).  After the pair [(0,1)] is summed out, the pending pair
    [(2,3)] lies above both removed positions and is meant to become
    [(0,1)]; the code turns it into [(1,1)], because position [2], moved to
    [1], is then compared with [item[1] = 1] and not moved again.  On the
    sample 2x2x2x2 tensor the contraction of the axes [0,2] with [1,3] so
    ends in a diagram of rank 0 that still holds a node. *)
Theorem contract_renumber_misses_adjacent :
  TDD.renumber (0, 1) (2, 3) = (1, 1) /\
  (shift_down (0, 1) 2, shift_down (0, 1) 3) = (0, 1) /\
  exists t r,
    TDD.as_tensor (TDD.OfTensor Samples.T2222) = Ok t /\
    TDD.contract t ([0; 2], [1; 3]) = Ok r /\
    TDD.data_shape r = [] /\ TDD.node r <> Terminal.
Proof.
  split; [reflexivity|]. split; [reflexivity|].
  eexists. eexists. split; [vm_compute; reflexivity|].
  split; [vm_compute; reflexivity|].
  split; [reflexivity | discriminate].
Qed.

(** ** [contract] without axes *)

(** With nothing to contract the node, the weights and the shape are those
    of the operand. *)
Lemma contract_nothing_keeps_node (t : TDD.TDD) (r : TDD.TDD) :
  TDD.contract t ([], []) = Ok r ->
  TDD.node r = TDD.node t /\ TDD.weights r = TDD.weights t.
Proof.
  unfold TDD.contract. simpl.
  destruct (TDD.index_reduce_proc t []) as [[sh o]|e]; simpl; [|discriminate].
  intros H. injection H as <-. simpl. auto.
Qed.

(** C10 (code defect).  [contract] with two empty lists keeps the node, the
    weights and the shape, but returns the positions of [index_order] sorted
    by their values, which is the inverse permutation: for the order
    [1,2,0] the result carries [2,0,1]. *)
Theorem contract_nothing_inverts_order :
  exists t r,
    TDD.as_tensor (TDD.OfTuple Samples.T222 [] [1; 2; 0]) = Ok t /\
    TDD.contract t ([], []) = Ok r /\
    TDD.node r = TDD.node t /\
    TDD.weights r = TDD.weights t /\
    TDD.data_shape r = TDD.data_shape t /\
    TDD.index_order t = [1; 2; 0] /\
    TDD.index_order r = [2; 0; 1].
Proof.
  eexists. eexists. split; [vm_compute; reflexivity|].
  split; [vm_compute; reflexivity|].
  repeat split.
Qed.

(** ** The shape check of [as_tensor] *)

Lemma as_tensor_iterate_errors (todo : nat) :
  forall tensor ps ds io depth e,
    TDD.as_tensor_iterate todo tensor ps ds io depth = Err e ->
    e = IndexOutOfRange \/ e = BackendFailure.
Proof.
  induction todo as [|todo IH]; intros tensor ps ds io depth e H;
    cbn [TDD.as_tensor_iterate] in H;
    [destruct (view_ok _); [discriminate | right; congruence]|].
  unfold subscript at 1, split in H.
  destruct (nth_error io depth) as [split_pos|]; cbn [bind] in H;
    [|left; congruence].
  unfold subscript at 1 2 in H.
  destruct (nth_error (shape tensor) _) as [n|]; cbn [bind] in H;
    [|left; congruence].
  destruct (nth_error ds split_pos) as [width|]; cbn [bind] in H;
    [|left; congruence].
  match type of H with
  | bind (mapM ?f ?l) _ = _ => destruct (mapM f l) as [succs|e'] eqn:M
  end; cbn [bind] in H.
  - destruct succs; cbn [bind] in H; [right; congruence|].
    match type of H with
    | context [weighted_node.normalize ?x ?y] =>
        destruct (weighted_node.normalize x y)
    end. discriminate.
  - injection H as <-. apply mapM_err_inv in M as (k & _ & Hk).
    unfold subscript in Hk.
    destruct (nth_error _ k) as [chunk|]; cbn [bind] in Hk; [|left; congruence].
    now apply IH in Hk.
Qed.

(** C9 (amended).  The [as_tensor] of [tdd/tdd.py] raises the shape-order
    mismatch exactly when an order is supplied (is not empty) and its length
    differs from the number of non-batch axes: an empty order stands for the
    default one there and never raises.  The accelerated facade makes the
    test on the order it goes on with, which is the supplied one, or the
    coordinator's when none is supplied: its examination raises exactly when
    that order is not empty and its length differs, so with no order
    supplied it still raises when the coordinator's order has another
    length. *)
Theorem as_tensor_order_length_check :
  (forall tensor parallel_shape index_order,
      TDD.as_tensor (TDD.OfTuple tensor parallel_shape index_order)
      = Err ShapeOrderMismatch
      <->
      index_order <> [] /\
      length index_order
      <> length (skipn (length parallel_shape) (shape tensor))) /\
  (forall coordinator_order tensor parallel_i_num storage_order,
      pytdd.examination_raises coordinator_order tensor parallel_i_num
                               storage_order = true
      <->
      pytdd.storage_order_of coordinator_order storage_order <> [] /\
      length (pytdd.storage_order_of coordinator_order storage_order)
      <> length (skipn parallel_i_num (shape tensor))) /\
  (forall (Pointer : Type) ctdd_as_tensor coordinator_order tensor
          parallel_i_num storage_order,
      pytdd.examination_raises coordinator_order tensor parallel_i_num
                               storage_order = true ->
      @pytdd.as_tensor Pointer ctdd_as_tensor coordinator_order tensor
                       parallel_i_num storage_order
      = Err ShapeOrderMismatch).
Proof.
  split; [|split].
  - intros tensor ps io. simpl. unfold TDD.as_tensor_of.
    set (ds := skipn (length ps) (shape tensor)).
    destruct io as [|o io].
    + rewrite length_seq, Nat.eqb_refl. simpl. split.
      * intros H.
        destruct (TDD.as_tensor_iterate _ _ _ _ _ _) as [r|e] eqn:E;
          simpl in H; [discriminate|].
        apply as_tensor_iterate_errors in E. destruct E; congruence.
      * intros [H _]. now contradiction H.
    + destruct (length ds =? length (o :: io)) eqn:L; simpl.
      * apply Nat.eqb_eq in L. split.
        -- intros H.
           destruct (TDD.as_tensor_iterate _ _ _ _ _ _) as [r|e] eqn:E;
             simpl in H; [discriminate|].
           apply as_tensor_iterate_errors in E. destruct E; congruence.
        -- intros [_ H]. simpl in *. lia.
      * apply Nat.eqb_neq in L. split; [|reflexivity].
        intros _. split; [discriminate | simpl in *; lia].
  - intros co tensor n so. unfold pytdd.examination_raises.
    rewrite andb_true_iff, !negb_true_iff, !Nat.eqb_neq.
    rewrite length_zero_iff_nil. split; intros [H1 H2]; split; auto.
  - intros P backend co tensor n so H. unfold pytdd.as_tensor.
    now rewrite H.
Qed.

(** C9 (counterexample).  For a 2x2 tensor and the empty order the lengths
    differ (0 against 2), yet [as_tensor] builds the diagram. *)
Lemma as_tensor_empty_order_accepted :
  length (@nil nat) <> length (skipn (length (@nil nat)) (shape Samples.T22)) /\
  is_ok (TDD.as_tensor (TDD.OfTuple Samples.T22 [] [])) = true /\
  TDD.as_tensor (TDD.OfTuple Samples.T22 [] []) <> Err ShapeOrderMismatch.
Proof.
  split; [simpl; lia|]. split; [vm_compute; reflexivity|].
  vm_compute. discriminate.
Qed.

(** ** The facade [sum] *)

(** C4 (amended).  [sum] compares no shapes: whatever the two data shapes,
    it returns the sum of the two weighted nodes under the data shape and
    the index order of its first operand. *)
Theorem sum_keeps_first_operand :
  forall a b : TDD.TDD,
  exists r,
    TDD.sum a b = Ok r /\
    TDD.data_shape r = TDD.data_shape a /\
    TDD.index_order r = TDD.index_order a /\
    (TDD.node r, TDD.weights r)
    = weighted_node.sum (TDD.node a, TDD.weights a) (TDD.node b, TDD.weights b).
Proof.
  intros a b. unfold TDD.sum.
  destruct (weighted_node.sum _ _) as [n w].
  eexists. split; [reflexivity|]. simpl. auto.
Qed.

(** C4 (counterexample).  The diagrams of [5 * ones(2)] and [5 * ones(3)]
    have the data shapes [2] and [3]; [sum] does not fail on them and returns
    the scalar sum under the shape [2]. *)
Lemma sum_shape_mismatch_accepted :
  exists a b,
    TDD.as_tensor (TDD.OfTensor Samples.fives2) = Ok a /\
    TDD.as_tensor (TDD.OfTensor Samples.fives3) = Ok b /\
    TDD.data_shape a <> TDD.data_shape b /\
    TDD.sum a b = Ok (TDD.mkTDD 10 [2] Terminal [0]) /\
    TDD.sum a b <> Err ShapeMismatch.
Proof.
  eexists. eexists. split; [vm_compute; reflexivity|].
  split; [vm_compute; reflexivity|].
  split; [simpl; discriminate|].
  split; [vm_compute; reflexivity | vm_compute; discriminate].
Qed.

(** ** The bookkeeping of [index] and [contract] *)

Lemma index_reduce_proc_ok (t : TDD.TDD) (reduced_indices : list nat) :
  valid_order t ->
  TDD.index_reduce_proc t reduced_indices
  = Ok (map (fun i => nth i (TDD.data_shape t) 0) (kept_axes t reduced_indices),
        let indexed_index_order :=
          map (fun i => nth i (TDD.index_order t) 0)
              (kept_axes t reduced_indices) in
        sorted_by (fun k => nth k indexed_index_order 0)
                  (seq 0 (length indexed_index_order))).
Proof.
  intros [_ L]. unfold TDD.index_reduce_proc. fold (kept_axes t reduced_indices).
  rewrite (mapM_ok
             (fun i => (nth i (TDD.data_shape t) 0, nth i (TDD.index_order t) 0))).
  - cbn [bind]. rewrite !map_map. reflexivity.
  - intros i Hi. apply filter_In in Hi as [Hi _]. apply in_seq in Hi.
    rewrite (subscript_ok 0) by lia. cbn [bind].
    rewrite (subscript_ok 0) by lia. reflexivity.
Qed.

(** The facade [index] on two pairs, once the positions are translated. *)
Lemma index_two_pairs (t : TDD.TDD) (i j u v : nat) :
  valid_order t ->
  i < length (TDD.data_shape t) -> j < length (TDD.data_shape t) ->
  let ri := nth i (order_inverse (TDD.index_order t)) 0 in
  let rj := nth j (order_inverse (TDD.index_order t)) 0 in
  TDD.index t [(i, u); (j, v)]
  = (e <- weighted_node.index (TDD.node t, TDD.weights t) [(ri, u); (rj, v)] ;;
     '(sh, o) <- TDD.index_reduce_proc t [ri; rj] ;;
     Ok (TDD.mkTDD (snd e) sh (fst e) o)).
Proof.
  intros V Hi Hj ri rj. unfold TDD.index.
  destruct V as [P L]. cbn [mapM fst snd].
  rewrite (subscript_ok 0) by (rewrite length_order_inverse; lia).
  cbn [bind].
  rewrite (subscript_ok 0) by (rewrite length_order_inverse; lia).
  cbn [bind map fst snd]. fold ri rj.
  destruct (weighted_node.index _ _) as [[n w]|e]; reflexivity.
Qed.

Section SinglePair.
Variable t : TDD.TDD.
Variables ri rj : nat.
Variables sh o : list nat.

Lemma sum_bookkeeping (a b : WeightedNode) :
  TDD.sum (with_bookkeeping sh o a) (with_bookkeeping sh o b)
  = Ok (with_bookkeeping sh o (weighted_node.sum a b)).
Proof.
  destruct a as [na wa], b as [nb wb]. unfold TDD.sum, with_bookkeeping. simpl.
  destruct (weighted_node.sum _ _); reflexivity.
Qed.

(** The inner loop of [contract] against the fold over the slices. *)
Lemma contract_sum_fold (values : list nat) :
  forall summed,
    (x <- TDD.contract_sum (TDD.node t, TDD.weights t) (ri, rj) values summed ;;
     Ok (with_bookkeeping sh o x))
    = (slices <- mapM (slice_of t ri rj sh o) values ;;
       fold_left (fun acc s => a <- acc ;; TDD.sum a s) slices
                 (Ok (with_bookkeeping sh o summed))).
Proof.
  induction values as [|v values IH]; intros summed;
    cbn [TDD.contract_sum mapM]; [reflexivity|].
  unfold slice_of at 1. cbn [fst snd].
  destruct (weighted_node.index (TDD.node t, TDD.weights t) [(ri, v); (rj, v)])
    as [new|e]; cbn [bind]; [|reflexivity].
  rewrite IH.
  destruct (mapM (slice_of t ri rj sh o) values) as [slices|e];
    cbn [bind fold_left]; [|reflexivity].
  now rewrite sum_bookkeeping.
Qed.
End SinglePair.

(** For a diagram with its bookkeeping in order and two axes [i], [j] of
    it, the first of them not empty, [contract] on the single pair
    [([i],[j])] goes through the steps of the brute-force summation and
    returns what they return: the slices [index((i,v),(j,v))] over all values
    [v] of the axis, accumulated with [sum]; a failure of a slice is the
    failure of both.  This is about the steps, not about the tensor the
    result stands for. *)
Lemma contract_single_pair_brute_force (t : TDD.TDD) (i j : nat) :
  valid_order t ->
  i < length (TDD.data_shape t) ->
  j < length (TDD.data_shape t) ->
  0 < nth i (TDD.data_shape t) 0 ->
  TDD.contract t ([i], [j]) = brute_force_trace t i j.
Proof.
  intros V Hi Hj Hw. pose proof V as [P L].
  set (ri := nth i (order_inverse (TDD.index_order t)) 0).
  set (rj := nth j (order_inverse (TDD.index_order t)) 0).
  destruct (nth i (TDD.data_shape t) 0) as [|w] eqn:W; [lia|].
  pose proof (index_reduce_proc_ok t [ri; rj] V) as RP.
  set (sh := map _ _) in RP. set (o := sorted_by _ _) in RP.
  (* the brute-force side *)
  unfold brute_force_trace.
  rewrite (subscript_ok 0) by assumption. rewrite W. cbn [bind].
  rewrite (mapM_ext
             (fun v => e <- weighted_node.index (TDD.node t, TDD.weights t)
                                                [(ri, v); (rj, v)] ;;
                       Ok (TDD.mkTDD (snd e) sh (fst e) o))).
  2:{ intros v _. rewrite index_two_pairs by assumption. fold ri rj.
      destruct (weighted_node.index _ _) as [e|e]; cbn [bind]; [|reflexivity].
      rewrite RP. reflexivity. }
  (* the side of [contract] *)
  unfold TDD.contract. cbn [fst snd length seq mapM].
  unfold subscript at 1. cbn [nth_error bind].
  rewrite (subscript_ok 0) by (rewrite length_order_inverse; lia).
  cbn [bind]. unfold subscript at 1. cbn [nth_error bind].
  rewrite (subscript_ok 0) by (rewrite length_order_inverse; lia).
  cbn [bind length flat_map app]. fold ri rj.
  cbn [TDD.contract_loop fst snd].
  rewrite (subscript_ok 0)
    by (unfold ri; apply order_inverse_lt; [assumption | lia]).
  cbn [bind]. unfold ri at 1.
  rewrite order_inverse_cancel by (assumption || lia).
  rewrite (subscript_ok 0) by assumption. rewrite W. cbn [bind map].
  replace (S w - 1) with w by lia.
  cbn [seq mapM].
  destruct (weighted_node.index (TDD.node t, TDD.weights t) [(ri, 0); (rj, 0)])
    as [first|e]; cbn [bind]; [|reflexivity].
  pose proof (contract_sum_fold t ri rj sh o (seq 1 w) first) as F.
  unfold slice_of, with_bookkeeping in F. cbn beta zeta in F.
  destruct (mapM _ (seq 1 w)) as [slices|e'];
    destruct (TDD.contract_sum _ _ _ _) as [[n x]|e];
    cbn [bind fst snd] in F |- *;
    rewrite ?RP; cbn [bind]; congruence.
Qed.

(** ** Nodes *)

Lemma Node_induction (P : Node -> Prop) :
  P Terminal ->
  (forall d succ, Forall (fun e => P (fst e)) succ -> P (Branch d succ)) ->
  forall n, P n.
Proof.
  intros HT HB. fix IH 1. intros [|d succ]; [exact HT|].
  apply HB. induction succ as [|[n w] r IHr]; constructor;
    [apply IH | exact IHr].
Qed.

Lemma eval_node_branch (d : nat) (succ : list (Node * Z)) (idx : list nat) :
  eval_node (Branch d succ) idx
  = match nth_error succ (nth d idx 0) with
    | Some e => (snd e * eval_node (fst e) idx)%Z
    | None => 0%Z
    end.
Proof.
  cbn [eval_node]. generalize (nth d idx 0).
  induction succ as [|[n w] r IH]; intros [|k]; cbn; auto.
Qed.

Lemma index_node_branch (d : nat) (succ : list (Node * Z)) (w : Z)
    (pairs : list (nat * nat)) :
  weighted_node.index_node (Branch d succ) w pairs
  = match weighted_node.requested d pairs with
    | Some v =>
        match nth_error succ v with
        | Some e => weighted_node.index_node (fst e) (w * snd e)%Z pairs
        | None => Err InvalidBranchValue
        end
    | None =>
        succ' <- mapM (fun e : Node * Z =>
                         weighted_node.index_node (fst e) (snd e) pairs) succ ;;
        Ok (weighted_node.normalize
              (Branch (d - weighted_node.fixed_below d pairs) succ', w) false)
    end.
Proof.
  cbn [weighted_node.index_node].
  destruct (weighted_node.requested d pairs) as [v|]; [|reflexivity].
  revert v. induction succ as [|[n x] r IH]; intros [|k]; cbn; auto.
Qed.

Lemma node_eqb_eq : forall a b, node_eqb a b = true -> a = b.
Proof.
  induction a as [|d succ IH] using Node_induction; intros [|d' succ'];
    cbn [node_eqb]; try discriminate; [reflexivity|].
  intros H. apply andb_true_iff in H as [Hd H].
  apply Nat.eqb_eq in Hd. subst d'. f_equal.
  revert succ' H. induction IH as [|[n w] r Hn _ IHr]; intros [|[n' w'] r'] H;
    try discriminate; [reflexivity|].
  apply andb_true_iff in H as [H Hr]. apply andb_true_iff in H as [H Hw].
  apply Z.eqb_eq in Hw. cbn [fst] in Hn. apply Hn in H. subst.
  f_equal. now apply IHr.
Qed.

Lemma wnode_eqb_eq (a b : WeightedNode) : wnode_eqb a b = true -> a = b.
Proof.
  destruct a as [n w], b as [n' w']. unfold wnode_eqb. cbn [fst snd].
  intros H. apply andb_true_iff in H as [H Hw].
  apply node_eqb_eq in H. apply Z.eqb_eq in Hw. now subst.
Qed.

Lemma wf_node_weaken (sh : list nat) (lo lo' : nat) (n : Node) :
  lo <= lo' -> wf_node sh lo' n = true -> wf_node sh lo n = true.
Proof.
  intros L. destruct n as [|d succ]; cbn [wf_node]; [auto|].
  rewrite !andb_true_iff, !Nat.leb_le. intros [[H1 H2] H3].
  repeat split; auto. lia.
Qed.

Lemma wf_node_branch (sh : list nat) (lo d : nat) (succ : list (Node * Z)) :
  wf_node sh lo (Branch d succ) = true <->
  lo <= d /\ nth_error sh d = Some (length succ) /\
  Forall (fun e => wf_node sh (S d) (fst e) = true) succ.
Proof.
  cbn [wf_node]. rewrite !andb_true_iff, Nat.leb_le, forallb_forall, Forall_forall.
  destruct (nth_error sh d) as [s|].
  - rewrite Nat.eqb_eq. split.
    + intros [[H1 H2] H3]. repeat split; auto; congruence.
    + intros [H1 [H2 H3]]. repeat split; auto; congruence.
  - split; [intros [[_ H] _] | intros [_ [H _]]]; discriminate.
Qed.

(** ** Normalization keeps the value and the shape of a diagram *)

Lemma gcd_list_divide (ws : list Z) (w : Z) :
  In w ws -> (fold_right Z.gcd 0%Z ws | w)%Z.
Proof.
  induction ws as [|x ws IH]; cbn [fold_right]; [intros []|].
  intros [->|H].
  - apply Z.gcd_divide_l.
  - eapply Z.divide_trans; [apply Z.gcd_divide_r | now apply IH].
Qed.

Lemma leading_sign_unit (ws : list Z) :
  weighted_node.leading_sign ws = 1%Z \/ weighted_node.leading_sign ws = (-1)%Z.
Proof.
  induction ws as [|w ws IH]; cbn; [now left|].
  destruct w; cbn; auto.
Qed.

Lemma canonical_scalar_divide (ws : list Z) (w : Z) :
  In w ws -> (weighted_node.canonical_scalar ws | w)%Z.
Proof.
  intros H. apply gcd_list_divide in H. destruct H as [k ->].
  unfold weighted_node.canonical_scalar.
  destruct (leading_sign_unit ws) as [-> | ->].
  - exists k. ring.
  - exists (- k)%Z. ring.
Qed.

Lemma canonical_scalar_factor (ws : list Z) (w : Z) :
  In w ws -> weighted_node.canonical_scalar ws <> 0%Z ->
  (weighted_node.canonical_scalar ws * (w / weighted_node.canonical_scalar ws))%Z
  = w.
Proof.
  intros H G. apply canonical_scalar_divide in H.
  symmetry. apply Z.div_exact; [assumption|].
  now apply Z.mod_divide.
Qed.

Lemma canonical_scalar_zero (ws : list Z) (w : Z) :
  In w ws -> weighted_node.canonical_scalar ws = 0%Z -> w = 0%Z.
Proof.
  intros H G. apply canonical_scalar_divide in H. rewrite G in H.
  now apply Z.divide_0_l.
Qed.

Lemma forallb_wnode_eqb (e0 : WeightedNode) (l : list WeightedNode)
    (k : nat) (e : WeightedNode) :
  forallb (wnode_eqb e0) l = true -> nth_error (e0 :: l) k = Some e -> e = e0.
Proof.
  intros F H. destruct k as [|k]; cbn in H; [congruence|].
  apply nth_error_In in H. rewrite forallb_forall in F.
  symmetry. apply wnode_eqb_eq, F, H.
Qed.

(** [normalize] does not change the value of the node at any index that
    names one of its branches. *)
Lemma normalize_sound (d : nat) (succ : list (Node * Z)) (w : Z) (b : bool)
    (idx : list nat) :
  nth d idx 0 < length succ ->
  eval (weighted_node.normalize (Branch d succ, w) b) idx
  = eval (Branch d succ, w) idx.
Proof.
  intros K. unfold eval at 2. cbn [fst snd]. rewrite eval_node_branch.
  destruct (nth_error succ (nth d idx 0)) as [[nk wk]|] eqn:E;
    [|apply nth_error_None in E; lia].
  cbn [fst snd]. unfold weighted_node.normalize.
  set (g := weighted_node.canonical_scalar (map snd succ)).
  assert (Hin : In wk (map snd succ)).
  { apply nth_error_In in E. now apply (in_map snd) in E. }
  destruct (g =? 0)%Z eqn:G.
  - apply Z.eqb_eq in G. rewrite (canonical_scalar_zero _ _ Hin G).
    unfold eval. cbn. ring.
  - apply Z.eqb_neq in G.
    pose proof (canonical_scalar_factor _ _ Hin G) as Fk. fold g in Fk.
    pose proof (map_nth_error (fun e : Node * Z => (fst e, (snd e / g)%Z))
                              _ _ E) as E'.
    cbn [fst snd] in E'.
    destruct (map (fun e : Node * Z => (fst e, (snd e / g)%Z)) succ)
      as [|e0 rest] eqn:M.
    + destruct (nth d idx 0); discriminate.
    + destruct (forallb (wnode_eqb e0) rest) eqn:F.
      * apply (forallb_wnode_eqb _ _ _ _ F) in E'. subst e0.
        unfold eval. cbn [fst snd]. rewrite <- Fk at 2. ring.
      * unfold eval. cbn [fst snd]. rewrite eval_node_branch, E'.
        cbn [fst snd]. rewrite <- Fk at 2. ring.
Qed.

Lemma normalize_wf (sh : list nat) (lo d : nat) (succ : list (Node * Z))
    (w : Z) (b : bool) :
  wf_node sh lo (Branch d succ) = true ->
  wf_node sh lo (fst (weighted_node.normalize (Branch d succ, w) b)) = true.
Proof.
  intros H. apply wf_node_branch in H as (L & A & C).
  unfold weighted_node.normalize.
  set (g := weighted_node.canonical_scalar (map snd succ)).
  destruct (g =? 0)%Z; [reflexivity|].
  destruct (map (fun e : Node * Z => (fst e, (snd e / g)%Z)) succ)
    as [|e0 rest] eqn:M; [reflexivity|].
  assert (C' : Forall (fun e => wf_node sh (S d) (fst e) = true) (e0 :: rest)).
  { rewrite <- M. rewrite Forall_map. cbn [fst]. exact C. }
  destruct (forallb (wnode_eqb e0) rest); cbn [fst].
  - apply (wf_node_weaken sh lo (S d)); [lia|].
    now inversion C'.
  - apply wf_node_branch. repeat split; [assumption | | assumption].
    rewrite A. f_equal. rewrite <- M. now rewrite length_map.
Qed.

(** ** The sum of two weighted nodes *)

Lemma sum_node_terminals (wa wb : Z) :
  weighted_node.sum_node Terminal wa Terminal wb = (Terminal, (wa + wb)%Z).
Proof. reflexivity. Qed.

Lemma sum_node_left (da : nat) (sa : list (Node * Z)) (wa : Z) (b : Node)
    (wb : Z) :
  match b with Terminal => True | Branch db _ => da < db end ->
  weighted_node.sum_node (Branch da sa) wa b wb
  = weighted_node.normalize
      (Branch da (map (fun e : Node * Z =>
                         weighted_node.sum_node (fst e) (wa * snd e)%Z b wb) sa),
       1%Z) false.
Proof.
  destruct b as [|db sb]; intros H; cbn [weighted_node.sum_node];
    [reflexivity|].
  apply Nat.ltb_lt in H. now rewrite H.
Qed.

Lemma sum_node_right (a : Node) (wa : Z) (db : nat) (sb : list (Node * Z))
    (wb : Z) :
  match a with Terminal => True | Branch da _ => db < da end ->
  weighted_node.sum_node a wa (Branch db sb) wb
  = weighted_node.normalize
      (Branch db (map (fun e : Node * Z =>
                         weighted_node.sum_node a wa (fst e) (wb * snd e)%Z) sb),
       1%Z) false.
Proof.
  destruct a as [|da sa]; intros H; cbn [weighted_node.sum_node];
    [reflexivity|].
  assert (E : (da <? db) = false) by (apply Nat.ltb_ge; lia).
  apply Nat.ltb_lt in H. now rewrite E, H.
Qed.

Lemma sum_node_aligned (d : nat) (sa sb : list (Node * Z)) (wa wb : Z) :
  weighted_node.sum_node (Branch d sa) wa (Branch d sb) wb
  = weighted_node.normalize
      (Branch d (zip_with
                   (fun e e' : Node * Z =>
                      weighted_node.sum_node (fst e) (wa * snd e)%Z
                                             (fst e') (wb * snd e')%Z)
                   sa sb),
       1%Z) false.
Proof.
  cbn [weighted_node.sum_node]. now rewrite Nat.ltb_irrefl.
Qed.

Lemma length_zip_with {A B C : Type} (f : A -> B -> C) (l : list A)
    (r : list B) :
  length l = length r -> length (zip_with f l r) = length l.
Proof.
  revert r. induction l as [|a l IH]; intros [|b r]; cbn; intros H;
    try discriminate; auto.
Qed.

Lemma nth_error_zip_with {A B C : Type} (f : A -> B -> C) (l : list A)
    (r : list B) (k : nat) (a : A) (b : B) :
  nth_error l k = Some a -> nth_error r k = Some b ->
  nth_error (zip_with f l r) k = Some (f a b).
Proof.
  revert r k. induction l as [|x l IH]; intros [|y r] [|k]; cbn;
    try discriminate; try congruence.
  apply IH.
Qed.

Lemma In_zip_with {A B C : Type} (f : A -> B -> C) (l : list A) (r : list B)
    (c : C) :
  In c (zip_with f l r) -> exists a b, In a l /\ In b r /\ c = f a b.
Proof.
  revert r. induction l as [|x l IH]; intros [|y r]; cbn; try tauto.
  intros [<-|H].
  - exists x, y. auto.
  - destruct (IH _ H) as (a & b & Ha & Hb & E). exists a, b. auto.
Qed.

(** The value of a branch node at an index that names one of its branches. *)
Lemma eval_node_pick (d : nat) (succ : list (Node * Z)) (idx : list nat)
    (e : Node * Z) :
  nth_error succ (nth d idx 0) = Some e ->
  eval_node (Branch d succ) idx = (snd e * eval_node (fst e) idx)%Z.
Proof. intros H. now rewrite eval_node_branch, H. Qed.

Lemma nth_error_map_inv {A B : Type} (f : A -> B) (l : list A) (k : nat)
    (b : B) :
  nth_error (map f l) k = Some b ->
  exists a, nth_error l k = Some a /\ b = f a.
Proof.
  rewrite nth_error_map. destruct (nth_error l k) as [a|]; cbn; [|discriminate].
  intros H. exists a. split; congruence.
Qed.

Section SumSound.
Variable sh : list nat.

Lemma sum_ok_assemble (d lo : nat) (children : list (Node * Z)) (s : nat)
    (v : list nat -> Z) :
  lo <= d -> nth_error sh d = Some s -> length children = s ->
  (forall e, In e children -> wf_node sh (S d) (fst e) = true) ->
  (forall idx e, fits idx sh ->
     nth_error children (nth d idx 0) = Some e -> eval e idx = v idx) ->
  (forall idx, fits idx sh ->
     eval (weighted_node.normalize (Branch d children, 1%Z) false) idx = v idx)
  /\
  wf_node sh lo (fst (weighted_node.normalize (Branch d children, 1%Z) false))
  = true.
Proof.
  intros L A Len W V. split.
  - intros idx F. pose proof (F d _ A) as K. rewrite <- Len in K.
    rewrite normalize_sound by assumption.
    destruct (nth_error children (nth d idx 0)) as [e|] eqn:E;
      [|apply nth_error_None in E; lia].
    unfold eval at 1. cbn [fst snd]. rewrite (eval_node_pick _ _ _ _ E).
    rewrite <- (V idx e F E). unfold eval. ring.
  - apply normalize_wf. apply wf_node_branch. repeat split; auto.
    + now rewrite A, Len.
    + now apply Forall_forall.
Qed.

Lemma sum_node_sound_wf : forall a b, sum_ok sh a b.
Proof.
  induction a as [|da sa IHa] using Node_induction.
  - (* the left operand is the terminal *)
    induction b as [|db sb IHb] using Node_induction; intros lo wa wb Wa Wb.
    + rewrite sum_node_terminals. unfold eval. cbn.
      split; [intros; ring | reflexivity].
    + rewrite sum_node_right by exact I.
      apply wf_node_branch in Wb as (L & A & C).
      rewrite Forall_forall in IHb, C.
      apply (sum_ok_assemble _ _ _ _ _ L A).
      * apply length_map.
      * intros e He. apply in_map_iff in He as (e' & <- & He').
        apply (IHb e' He' (S db)); [reflexivity | now apply C].
      * intros idx e F He. apply nth_error_map_inv in He as (e' & E & ->).
        cbv beta. rewrite (eval_node_pick _ _ _ _ E).
        pose proof (nth_error_In _ _ E) as He'.
        destruct (IHb e' He' (S db) wa (wb * snd e')%Z eq_refl (C e' He'))
          as [S _].
        rewrite (S idx F). ring.
  - induction b as [|db sb IHb] using Node_induction; intros lo wa wb Wa Wb.
    + (* the right operand is the terminal *)
      rewrite sum_node_left by exact I.
      apply wf_node_branch in Wa as (L & A & C).
      rewrite Forall_forall in IHa, C.
      apply (sum_ok_assemble _ _ _ _ _ L A).
      * apply length_map.
      * intros e He. apply in_map_iff in He as (e' & <- & He').
        apply (IHa e' He' Terminal (S da)); [now apply C | reflexivity].
      * intros idx e F He. apply nth_error_map_inv in He as (e' & E & ->).
        cbv beta. rewrite (eval_node_pick _ _ _ _ E).
        pose proof (nth_error_In _ _ E) as He'.
        destruct (IHa e' He' Terminal (S da) (wa * snd e')%Z wb
                      (C e' He') eq_refl) as [S _].
        rewrite (S idx F). ring.
    + pose proof Wa as Wa'. pose proof Wb as Wb'.
      apply wf_node_branch in Wa' as (La & Aa & Ca).
      apply wf_node_branch in Wb' as (Lb & Ab & Cb).
      rewrite Forall_forall in IHa, IHb, Ca, Cb.
      destruct (Nat.lt_trichotomy da db) as [Lt | [Eq | Gt]].
      * (* the left node comes first: the right operand is replicated *)
        rewrite sum_node_left by exact Lt.
        assert (Wb1 : wf_node sh (S da) (Branch db sb) = true).
        { apply wf_node_branch. rewrite Forall_forall. repeat split; auto. }
        apply (sum_ok_assemble _ _ _ _ _ La Aa).
        -- apply length_map.
        -- intros e He. apply in_map_iff in He as (e' & <- & He').
           apply (IHa e' He' (Branch db sb) (S da)); [now apply Ca | exact Wb1].
        -- intros idx e F He. apply nth_error_map_inv in He as (e' & E & ->).
           cbv beta. rewrite (eval_node_pick _ _ _ _ E).
           pose proof (nth_error_In _ _ E) as He'.
           destruct (IHa e' He' (Branch db sb) (S da) (wa * snd e')%Z wb
                         (Ca e' He') Wb1) as [S _].
           rewrite (S idx F). ring.
      * (* both nodes sit on the same axis *)
        subst db. rewrite sum_node_aligned.
        assert (Len : length sa = length sb) by congruence.
        apply (sum_ok_assemble _ _ _ _ _ La Aa).
        -- now apply length_zip_with.
        -- intros e He. apply In_zip_with in He as (x & y & Hx & Hy & ->).
           apply (IHa x Hx (fst y) (S da)); [now apply Ca | now apply Cb].
        -- intros idx e F He.
           pose proof (F da _ Aa) as K.
           destruct (nth_error sa (nth da idx 0)) as [x|] eqn:Ex;
             [|apply nth_error_None in Ex; lia].
           destruct (nth_error sb (nth da idx 0)) as [y|] eqn:Ey;
             [|apply nth_error_None in Ey; lia].
           rewrite (nth_error_zip_with _ _ _ _ _ _ Ex Ey) in He.
           assert (Ee : e = weighted_node.sum_node
                              (fst x) (wa * snd x)%Z (fst y) (wb * snd y)%Z)
             by congruence.
           subst e.
           rewrite (eval_node_pick _ _ _ _ Ex), (eval_node_pick _ _ _ _ Ey).
           pose proof (nth_error_In _ _ Ex) as Hx.
           pose proof (nth_error_In _ _ Ey) as Hy.
           destruct (IHa x Hx (fst y) (S da) (wa * snd x)%Z (wb * snd y)%Z
                         (Ca x Hx) (Cb y Hy)) as [S _].
           rewrite (S idx F). ring.
      * (* the right node comes first: the left operand is replicated *)
        rewrite sum_node_right by exact Gt.
        assert (Wa1 : wf_node sh (S db) (Branch da sa) = true).
        { apply wf_node_branch. rewrite Forall_forall. repeat split; auto. }
        apply (sum_ok_assemble _ _ _ _ _ Lb Ab).
        -- apply length_map.
        -- intros e He. apply in_map_iff in He as (e' & <- & He').
           apply (IHb e' He' (S db)); [exact Wa1 | now apply Cb].
        -- intros idx e F He. apply nth_error_map_inv in He as (e' & E & ->).
           cbv beta. rewrite (eval_node_pick _ _ _ _ E).
           pose proof (nth_error_In _ _ E) as He'.
           destruct (IHb e' He' (S db) wa (wb * snd e')%Z Wa1 (Cb e' He'))
             as [S _].
           rewrite (S idx F). ring.
Qed.
End SumSound.

(** ** The dense array of a diagram *)

Lemma nth_map_lt (f : nat -> nat) (l : list nat) (n : nat) :
  n < length l -> nth n (map f l) 0 = f (nth n l 0).
Proof.
  intros H. rewrite (@nth_indep _ (map f l) n 0 (f 0))
    by now rewrite length_map.
  apply map_nth.
Qed.

Lemma in_range_nth (idx sh : list nat) :
  in_range idx sh ->
  length idx = length sh /\
  forall m, m < length sh -> nth m idx 0 < nth m sh 0.
Proof.
  revert sh. induction idx as [|i idx IH]; intros [|s sh]; cbn; try tauto.
  - intros _. split; [reflexivity | intros; lia].
  - intros [H R]. destruct (IH _ R) as [L N]. split; [now f_equal|].
    intros [|m] Hm; [assumption | apply N; lia].
Qed.

Lemma global_order_eq (t : TDD.TDD) : TDD.global_order t = TDD.index_order t.
Proof.
  unfold TDD.global_order, TDD.parallel_shape. cbn.
  rewrite <- (map_id (TDD.index_order t)) at 2.
  apply map_ext. intros o. lia.
Qed.

Lemma length_storage_shape (t : TDD.TDD) :
  length (storage_shape t) = length (TDD.index_order t).
Proof. unfold storage_shape. now rewrite length_map, length_order_inverse. Qed.

(** What [CUDAcpl] returns for a diagram with its bookkeeping in order. *)
Lemma CUDAcpl_ok (t : TDD.TDD) :
  valid_order t ->
  TDD.CUDAcpl t
  = Ok {| shape := map (fun p => nth p (storage_shape t) 0) (TDD.index_order t);
          entry := fun idx =>
            eval (TDD.node t, TDD.weights t)
                 (storage_index (TDD.index_order t) idx) |}.
Proof.
  intros [P L]. unfold TDD.CUDAcpl.
  rewrite (mapM_ok (fun i => nth i (TDD.data_shape t) 0)).
  - cbn [bind]. fold (storage_shape t). unfold permute.
    rewrite global_order_eq. cbn [shape weighted_node.to_CUDAcpl_Tensor].
    rewrite length_storage_shape, Nat.eqb_refl, P. reflexivity.
  - intros i Hi. apply subscript_ok.
    unfold order_inverse in Hi. apply in_map_iff in Hi as (j & <- & Hj).
    apply in_seq in Hj. rewrite <- L. apply position_lt.
    apply is_order_In; [assumption | lia].
Qed.

(** An index of the dense array is read at a storage index that names a
    branch on every storage axis. *)
Lemma storage_index_fits (t : TDD.TDD) (idx : list nat) :
  valid_order t ->
  in_range idx (map (fun p => nth p (storage_shape t) 0) (TDD.index_order t)) ->
  fits (storage_index (TDD.index_order t) idx) (storage_shape t).
Proof.
  intros [P L] R. apply in_range_nth in R as [_ R]. rewrite length_map in R.
  intros d s Hd.
  assert (D : d < length (TDD.index_order t)).
  { rewrite <- length_storage_shape. apply nth_error_Some. congruence. }
  unfold storage_index.
  rewrite nth_map_lt by now rewrite length_seq.
  rewrite seq_nth by assumption. cbn [plus].
  pose proof (is_order_In _ _ P D) as I.
  specialize (R _ (position_lt _ _ I)).
  rewrite nth_map_lt in R by now apply position_lt.
  rewrite nth_position in R by assumption.
  apply (nth_error_nth _ _ 0) in Hd. now rewrite Hd in R.
Qed.

(** The facade [sum] adds the dense arrays entry by entry, and its result is
    again well formed. *)
Lemma sum_entries (a b : TDD.TDD) :
  well_formed a -> well_formed b ->
  TDD.data_shape a = TDD.data_shape b ->
  TDD.index_order a = TDD.index_order b ->
  exists r ta tb tr,
    TDD.sum a b = Ok r /\
    well_formed r /\
    TDD.data_shape r = TDD.data_shape a /\
    TDD.index_order r = TDD.index_order a /\
    TDD.CUDAcpl a = Ok ta /\ TDD.CUDAcpl b = Ok tb /\ TDD.CUDAcpl r = Ok tr /\
    shape tr = shape ta /\ shape tb = shape ta /\
    forall idx, in_range idx (shape ta) ->
                entry tr idx = (entry ta idx + entry tb idx)%Z.
Proof.
  intros [Va Wa] [Vb Wb] Hs Ho.
  assert (Sb : storage_shape b = storage_shape a).
  { unfold storage_shape. now rewrite Hs, Ho. }
  rewrite Sb in Wb.
  destruct (sum_node_sound_wf (storage_shape a) (TDD.node a) (TDD.node b)
              0 (TDD.weights a) (TDD.weights b) Wa Wb) as [S W].
  unfold TDD.sum, weighted_node.sum. cbn [fst snd].
  destruct (weighted_node.sum_node (TDD.node a) (TDD.weights a)
                                   (TDD.node b) (TDD.weights b))
    as [n w] eqn:E.
  set (r := TDD.mkTDD w (TDD.data_shape a) n (TDD.index_order a)).
  assert (Vr : valid_order r) by exact Va.
  exists r.
  rewrite (CUDAcpl_ok a Va), (CUDAcpl_ok b Vb), (CUDAcpl_ok r Vr).
  do 3 eexists. split; [reflexivity|].
  split; [split; [exact Vr | exact W]|].
  do 5 (split; [reflexivity|]). cbn [shape entry].
  split; [reflexivity|]. split; [now rewrite Sb, Ho|].
  intros idx R.
  pose proof (storage_index_fits a idx Va R) as F.
  cbn [r TDD.node TDD.weights TDD.index_order].
  rewrite (S _ F). unfold eval. cbn [fst snd]. now rewrite Ho.
Qed.

Lemma Ok_inj {A : Type} (x y : A) : Ok x = Ok y -> x = y.
Proof. congruence. Qed.


(** ** What [__index_reduce_proc] does to the order *)

Lemma insert_by_perm (key : nat -> nat) (x : nat) (l : list nat) :
  Permutation (insert_by key x l) (x :: l).
Proof.
  induction l as [|y l IH]; cbn [insert_by]; [reflexivity|].
  destruct (key x <=? key y); [reflexivity|].
  rewrite IH. apply perm_swap.
Qed.

Lemma sorted_by_perm (key : nat -> nat) (l : list nat) :
  Permutation (sorted_by key l) l.
Proof.
  induction l as [|x l IH]; cbn [sorted_by fold_right]; [reflexivity|].
  fold (sorted_by key l). rewrite insert_by_perm. now constructor.
Qed.

Lemma insert_by_sorted (key : nat -> nat) (x : nat) (l : list nat) :
  StronglySorted (fun a b => key a <= key b) l ->
  StronglySorted (fun a b => key a <= key b) (insert_by key x l).
Proof.
  induction 1 as [|y l S IH F]; cbn [insert_by].
  - constructor; constructor.
  - destruct (key x <=? key y) eqn:E.
    + apply Nat.leb_le in E. constructor; [now constructor|].
      constructor; [assumption|].
      rewrite Forall_forall in F |- *. intros z Hz. specialize (F z Hz). lia.
    + apply Nat.leb_gt in E. constructor; [assumption|].
      rewrite Forall_forall in F |- *. intros z Hz.
      apply (Permutation_in _ (insert_by_perm key x l)) in Hz.
      destruct Hz as [<-|Hz]; [lia | now apply F].
Qed.

Lemma sorted_by_sorted (key : nat -> nat) (l : list nat) :
  StronglySorted (fun a b => key a <= key b) (sorted_by key l).
Proof.
  induction l as [|x l IH]; cbn [sorted_by fold_right]; [constructor|].
  now apply insert_by_sorted.
Qed.

Lemma increasing_keys (key : nat -> nat) (l : list nat) :
  StronglySorted (fun a b => key a <= key b) l -> NoDup (map key l) ->
  StronglySorted lt (map key l).
Proof.
  induction 1 as [|y l S IH F]; cbn [map]; intros ND; [constructor|].
  inversion ND as [|? ? Hy ND']; subst.
  constructor; [now apply IH|].
  rewrite Forall_forall in F |- *. intros k Hk.
  apply in_map_iff in Hk as (z & <- & Hz). specialize (F z Hz).
  assert (key y <> key z) by (intros E; apply Hy; rewrite E; now apply in_map).
  lia.
Qed.

Lemma increasing_unique (l l' : list nat) :
  StronglySorted lt l -> StronglySorted lt l' ->
  (forall x, In x l <-> In x l') -> l = l'.
Proof.
  intros S. revert l'. induction S as [|a l S IH F]; intros l' S' E.
  - destruct l' as [|b l']; [reflexivity|].
    exfalso. apply (proj2 (E b)). now left.
  - destruct S' as [|b l' S' F'].
    + exfalso. apply (proj1 (E a)). now left.
    + rewrite Forall_forall in F, F'.
      assert (a = b).
      { destruct (proj1 (E a) (or_introl eq_refl)) as [->|Ha]; [reflexivity|].
        destruct (proj2 (E b) (or_introl eq_refl)) as [->|Hb]; [reflexivity|].
        specialize (F _ Hb). specialize (F' _ Ha). lia. }
      subst b. f_equal. apply IH; [assumption|].
      intros x. split; intros Hx.
      * destruct (proj1 (E x) (or_intror Hx)) as [->|H]; [|assumption].
        specialize (F _ Hx). lia.
      * destruct (proj2 (E x) (or_intror Hx)) as [->|H]; [|assumption].
        specialize (F' _ Hx). lia.
Qed.

Lemma increasing_seq (n a : nat) : StronglySorted lt (seq a n).
Proof.
  revert a. induction n as [|n IH]; intros a; cbn [seq]; constructor;
    [apply IH|].
  apply Forall_forall. intros x Hx. apply in_seq in Hx. lia.
Qed.

Lemma map_nth_seq (l : list nat) :
  map (fun k => nth k l 0) (seq 0 (length l)) = l.
Proof.
  apply (nth_ext _ _ 0 0); [now rewrite length_map, length_seq|].
  intros k Hk. rewrite length_map, length_seq in Hk.
  rewrite nth_map_lt by now rewrite length_seq.
  now rewrite seq_nth.
Qed.

(** Sorting the positions of an order by the values it holds gives the
    inverse of the order, not the order. *)
Lemma sorted_by_order_inverse (order : list nat) :
  is_order order = true ->
  sorted_by (fun k => nth k order 0) (seq 0 (length order))
  = order_inverse order.
Proof.
  intros P. pose proof (is_order_NoDup _ P) as ND.
  set (key := fun k => nth k order 0).
  set (r := sorted_by key (seq 0 (length order))).
  pose proof (sorted_by_perm key (seq 0 (length order))) as Pr. fold r in Pr.
  assert (Pk : Permutation (map key r) order).
  { apply (Permutation_trans (Permutation_map key Pr)).
    unfold key. now rewrite map_nth_seq. }
  assert (Keys : map key r = seq 0 (length order)).
  { apply increasing_unique.
    - apply increasing_keys; [apply sorted_by_sorted|].
      apply (Permutation_NoDup (Permutation_sym Pk) ND).
    - apply increasing_seq.
    - intros x. rewrite in_seq. split; intros H.
      + apply (Permutation_in _ Pk) in H.
        pose proof (is_order_bound _ _ P H). lia.
      + apply (Permutation_in _ (Permutation_sym Pk)).
        apply is_order_In; [assumption | lia]. }
  unfold order_inverse. rewrite <- Keys, map_map.
  rewrite <- (map_id r) at 1. apply map_ext_in.
  intros k Hk. apply (Permutation_in _ Pr) in Hk. apply in_seq in Hk.
  unfold key. symmetry. apply position_nth; [assumption | lia].
Qed.

(** With nothing to contract, [contract] returns the operand with its order
    inverted; it returns the operand when the order is its own inverse. *)
Lemma contract_nothing (t : TDD.TDD) :
  valid_order t ->
  TDD.contract t ([], [])
  = Ok (TDD.mkTDD (TDD.weights t) (TDD.data_shape t) (TDD.node t)
                  (order_inverse (TDD.index_order t))).
Proof.
  intros V. pose proof V as [P L]. unfold TDD.contract.
  cbn [fst snd length seq mapM bind TDD.contract_loop flat_map].
  rewrite index_reduce_proc_ok by assumption. cbn [bind].
  assert (K : kept_axes t [] = seq 0 (length (TDD.data_shape t))).
  { unfold kept_axes. apply forallb_filter_id. apply forallb_forall.
    intros; reflexivity. }
  rewrite K, <- L, !map_nth_seq.
  rewrite sorted_by_order_inverse by assumption.
  rewrite L, map_nth_seq. reflexivity.
Qed.

Lemma contract_nothing_self_inverse (t : TDD.TDD) :
  valid_order t -> self_inverse (TDD.index_order t) ->
  TDD.contract t ([], []) = Ok t.
Proof.
  intros V S. rewrite contract_nothing by assumption.
  rewrite self_inverse_order_inverse by (assumption || apply V).
  now destruct t.
Qed.

(** ** Failures of [index] *)

Lemma mapM_total {A B : Type} (f : A -> Result B) (l : list A) :
  (forall a, In a l -> is_ok (f a) = true) -> is_ok (mapM f l) = true.
Proof.
  induction l as [|a l IH]; cbn [mapM]; intros H; [reflexivity|].
  pose proof (H a (or_introl eq_refl)) as Ha.
  destruct (f a) as [b|e]; [|discriminate]. cbn [bind].
  assert (Hl : is_ok (mapM f l) = true) by (apply IH; intros; apply H; now right).
  destruct (mapM f l); [reflexivity | discriminate].
Qed.

Lemma mapM_fails {A B : Type} (f : A -> Result B) (l : list A) (e : Error) :
  (forall a e', In a l -> f a = Err e' -> e' = e) ->
  (exists a, In a l /\ is_ok (f a) = false) ->
  mapM f l = Err e.
Proof.
  induction l as [|a l IH]; cbn [mapM]; intros H (x & Hx & Fx); [destruct Hx|].
  destruct (f a) as [b|e'] eqn:Fa; cbn [bind].
  - rewrite IH.
    + reflexivity.
    + intros a' e'' Ha' Fa'. apply (H a' e''); [now right | assumption].
    + destruct Hx as [->|Hx]; [rewrite Fa in Fx; discriminate|].
      exists x. auto.
  - f_equal. apply (H a); [now left | assumption].
Qed.

Lemma requested_In (d v : nat) (pairs : list (nat * nat)) :
  weighted_node.requested d pairs = Some v -> In (d, v) pairs.
Proof.
  induction pairs as [|[p u] r IH]; cbn; [discriminate|].
  destruct (p =? d) eqn:E.
  - apply Nat.eqb_eq in E. intros H. left. congruence.
  - intros H. right. now apply IH.
Qed.


(** [index] on a node succeeds when every requested value is below the
    extent of its axis in the shape the node fits. *)
Lemma index_node_ok_wf (sh : list nat) (pairs : list (nat * nat)) :
  (forall d v, weighted_node.requested d pairs = Some v -> v < nth d sh 0) ->
  forall n lo w,
    wf_node sh lo n = true ->
    is_ok (weighted_node.index_node n w pairs) = true.
Proof.
  intros V. induction n as [|d succ IH] using Node_induction; intros lo w W;
    [reflexivity|].
  rewrite index_node_branch. rewrite Forall_forall in IH.
  apply wf_node_branch in W as (_ & A & C). rewrite Forall_forall in C.
  destruct (weighted_node.requested d pairs) as [v|] eqn:R.
  - apply V in R. rewrite (nth_error_nth _ _ 0 A) in R.
    destruct (nth_error succ v) as [c|] eqn:E;
      [|apply nth_error_None in E; lia].
    apply nth_error_In in E. apply (IH c E (S d)). now apply C.
  - assert (M : is_ok (mapM (fun e : Node * Z =>
                               weighted_node.index_node (fst e) (snd e) pairs)
                            succ) = true).
    { apply mapM_total. intros c Hc. apply (IH c Hc (S d)). now apply C. }
    destruct (mapM _ succ); [reflexivity | discriminate].
Qed.



Lemma kept_axes_length (t : TDD.TDD) (reduced : list nat) :
  NoDup reduced ->
  (forall r, In r reduced -> r < length (TDD.data_shape t)) ->
  length (kept_axes t reduced) + length reduced = length (TDD.data_shape t).
Proof.
  intros ND B. unfold kept_axes.
  pose proof (filter_length (fun i => mem i reduced)
                            (seq 0 (length (TDD.data_shape t)))) as F.
  rewrite length_seq in F. rewrite <- F at 2. rewrite Nat.add_comm. f_equal.
  apply Permutation_length, NoDup_Permutation;
    [assumption | apply NoDup_filter, seq_NoDup |].
  intros x. rewrite filter_In, in_seq, mem_In. split; [|tauto].
  intros H. split; [|assumption]. apply B in H. lia.
Qed.


Lemma inner_positions_NoDup (t : TDD.TDD) (pairs : list (nat * nat)) :
  valid_order t ->
  (forall pr, In pr pairs -> fst pr < length (TDD.data_shape t)) ->
  NoDup (map fst pairs) ->
  NoDup (map fst (inner_indices t pairs)) /\
  forall r, In r (map fst (inner_indices t pairs)) ->
            r < length (TDD.data_shape t).
Proof.
  intros [P L] B ND. unfold inner_indices. rewrite map_map. cbn [fst].
  assert (Pos : forall pr, In pr pairs ->
                  nth (fst pr) (order_inverse (TDD.index_order t)) 0
                  = position (fst pr) (TDD.index_order t)).
  { intros pr H. apply nth_order_inverse. rewrite L. now apply B. }
  split.
  - rewrite (map_ext_in _ (fun pr => position (fst pr) (TDD.index_order t)) _ Pos).
    rewrite <- (map_map fst (fun p => position p (TDD.index_order t))).
    assert (B' : forall p, In p (map fst pairs) ->
                           In p (TDD.index_order t)).
    { intros p Hp. apply in_map_iff in Hp as (pr & <- & Hpr).
      apply is_order_In; [assumption|]. rewrite L. now apply B. }
    clear Pos B. induction ND as [|p l Hp ND IH]; cbn [map]; constructor.
    + intros H. apply in_map_iff in H as (q & E & Hq). apply Hp.
      rewrite <- (nth_position p (TDD.index_order t) 0)
        by (apply B'; now left).
      rewrite <- E. rewrite nth_position by (apply B'; now right).
      assumption.
    + apply IH. intros q Hq. apply B'. now right.
  - intros r Hr. apply in_map_iff in Hr as (pr & <- & Hpr).
    rewrite <- L. apply order_inverse_lt; [assumption|].
    rewrite L. now apply B.
Qed.


(** ** The round trip through a diagram *)

(** C1 (code defect).  For the sample 2x2x2 tensor and the order [1,2,0],
    a valid order, the dense array of the diagram built by [as_tensor] is not
    the tensor: [as_tensor] puts the axis [index_order[d]] at depth [d], while
    [CUDAcpl] permutes as if [index_order] took an axis to its depth, so the
    array comes back with its axes moved (the entry at [0,0,1] is the
    tensor's entry at [0,1,0]). *)
Theorem roundtrip_fails_for_cyclic_order :
  is_order [1; 2; 0] = true /\
  exists t dense,
    TDD.as_tensor (TDD.OfTuple Samples.T222 [] [1; 2; 0]) = Ok t /\
    TDD.CUDAcpl t = Ok dense /\
    shape dense = shape Samples.T222 /\
    entry dense [0; 0; 1] = entry Samples.T222 [0; 1; 0] /\
    entry dense [0; 0; 1] <> entry Samples.T222 [0; 0; 1] /\
    ~ tensor_equal dense Samples.T222.
Proof.
  split; [reflexivity|].
  eexists. eexists. split; [vm_compute; reflexivity|].
  split; [unfold TDD.CUDAcpl; cbn; reflexivity|].
  split; [reflexivity|]. split; [vm_compute; reflexivity|].
  split; [vm_compute; discriminate|].
  intros [_ E]. specialize (E [0; 0; 1]).
  cbn [shape in_range] in E.
  assert (R : 0 < 2 /\ 0 < 2 /\ 1 < 2 /\ True) by (repeat split; lia).
  apply E in R. vm_compute in R. discriminate R.
Qed.

(** ** Indexing twice *)

(** C6 (code defect).  For the sample 2x2x2x2 tensor under the order
    [0,2,3,1], fixing position 0 to 0 and then position 0 of what remains to 1
    is not fixing the positions 0 and 1 at once: after the first step the
    facade records the remaining order as [2,0,1] (the inverse of [1,2,0],
    the order that remains), so the second step fixes the last axis of the
    tensor in place of its second one. *)
Theorem index_composition_fails_for_cyclic_order :
  is_order [0; 2; 3; 1] = true /\
  exists t t1 lhs rhs dl dr,
    TDD.as_tensor (TDD.OfTuple Samples.T2222 [] [0; 2; 3; 1]) = Ok t /\
    TDD.index t [(0, 0)] = Ok t1 /\
    TDD.index_order t1 = [2; 0; 1] /\
    TDD.index t1 [(0, 1)] = Ok lhs /\
    TDD.index t [(0, 0); (1, 1)] = Ok rhs /\
    TDD.eq lhs rhs = false /\
    ~ same_tensor lhs rhs /\
    TDD.CUDAcpl lhs = Ok dl /\ TDD.CUDAcpl rhs = Ok dr /\
    map (entry dl) Samples.all22
    = map (fun i => entry Samples.T2222 ([0] ++ i ++ [1]))
          Samples.all22 /\
    map (entry dr) Samples.all22
    = map (fun i => entry Samples.T2222 ([0; 1] ++ i)) Samples.all22.
Proof.
  split; [reflexivity|].
  do 6 eexists. split; [vm_compute; reflexivity|].
  split; [vm_compute; reflexivity|]. split; [reflexivity|].
  split; [vm_compute; reflexivity|]. split; [vm_compute; reflexivity|].
  split; [vm_compute; reflexivity|].
  split; [intros (_ & O & _); discriminate O|].
  split; [unfold TDD.CUDAcpl; cbn; reflexivity|].
  split; [unfold TDD.CUDAcpl; cbn; reflexivity|].
  split; vm_compute; reflexivity.
Qed.

(** ** What [as_tensor] builds *)

Lemma length_set_nth {A : Type} (i : nat) (x : A) (l : list A) :
  length (set_nth i x l) = length l.
Proof.
  revert i. induction l as [|y l IH]; intros [|i]; cbn; auto.
Qed.

Lemma nth_set_nth_eq {A : Type} (i : nat) (x d : A) (l : list A) :
  i < length l -> nth i (set_nth i x l) d = x.
Proof.
  revert i. induction l as [|y l IH]; intros [|i]; cbn; intros H;
    try lia; auto. apply IH. lia.
Qed.

Lemma nth_set_nth_neq {A : Type} (i k : nat) (x d : A) (l : list A) :
  i <> k -> nth k (set_nth i x l) d = nth k l d.
Proof.
  revert i k. induction l as [|y l IH]; intros [|i] [|k]; cbn; intros H;
    try lia; auto.
Qed.

Lemma nth_repeat_zero (n k : nat) : nth k (repeat 0 n) 0 = 0.
Proof.
  revert k. induction n as [|n IH]; intros [|k]; cbn; auto.
Qed.

Lemma scatter_done (order : list nat) (n depth : nat) (j : list nat) :
  n <= depth -> scatter order n depth j = repeat 0 n.
Proof.
  intros H. unfold scatter. replace (n - depth) with 0 by lia. reflexivity.
Qed.

Lemma scatter_step (order : list nat) (n depth : nat) (j : list nat) :
  depth < n ->
  scatter order n depth j
  = set_nth (nth depth order 0) (nth depth j 0) (scatter order n (S depth) j).
Proof.
  intros H. unfold scatter.
  replace (n - depth) with (S (n - S depth)) by lia. reflexivity.
Qed.

Lemma length_scatter (order : list nat) (n : nat) (j : list nat) :
  forall todo depth, todo + depth = n -> length (scatter order n depth j) = n.
Proof.
  induction todo as [|todo IH]; intros depth H.
  - rewrite scatter_done by lia. apply repeat_length.
  - rewrite scatter_step by lia. rewrite length_set_nth. apply IH. lia.
Qed.

Lemma scatter_untouched (order : list nat) (n : nat) (j : list nat) (a : nat) :
  forall todo depth,
    todo + depth = n ->
    (forall d, depth <= d < n -> nth d order 0 <> a) ->
    nth a (scatter order n depth j) 0 = 0.
Proof.
  induction todo as [|todo IH]; intros depth H U.
  - rewrite scatter_done by lia. apply nth_repeat_zero.
  - rewrite scatter_step by lia.
    rewrite nth_set_nth_neq by (apply U; lia).
    apply IH; [lia|]. intros d Hd. apply U. lia.
Qed.

Lemma NoDup_nth_neq (l : list nat) (d d' : nat) :
  NoDup l -> d < length l -> d' < length l -> d <> d' ->
  nth d l 0 <> nth d' l 0.
Proof.
  intros ND Hd Hd' N E. apply N.
  rewrite <- (position_nth l d 0 ND Hd), <- (position_nth l d' 0 ND Hd').
  now rewrite E.
Qed.

Lemma mapM_exists {A B : Type} (P : A -> B -> Prop) (f : A -> Result B)
    (l : list A) :
  (forall a, In a l -> exists b, f a = Ok b /\ P a b) ->
  exists bs, mapM f l = Ok bs /\ Forall2 P l bs.
Proof.
  induction l as [|a l IH]; cbn [mapM]; intros H.
  - exists []. split; [reflexivity | constructor].
  - destruct (H a (or_introl eq_refl)) as (b & Fa & Pa).
    destruct IH as (bs & M & F); [intros; apply H; now right|].
    exists (b :: bs). rewrite Fa, M. split; [reflexivity | now constructor].
Qed.

Lemma Forall2_nth_error {A B : Type} (P : A -> B -> Prop) (l : list A)
    (bs : list B) :
  Forall2 P l bs ->
  length bs = length l /\
  forall k b, nth_error bs k = Some b ->
              exists a, nth_error l k = Some a /\ P a b.
Proof.
  induction 1 as [|a b l bs Pab F [L N]]; cbn.
  - split; [reflexivity|]. intros [|k] b H; discriminate.
  - split; [now f_equal|]. intros [|k] b' H; cbn in *.
    + injection H as <-. eauto.
    + now apply N.
Qed.

Lemma view_ok_ones (l : list nat) :
  (forall i, i < length l -> nth i l 0 = 1) -> view_ok l = true.
Proof.
  induction l as [|s l IH]; intros H; [reflexivity|].
  pose proof (H 0 ltac:(cbn; lia)) as H0. cbn in H0. subst s.
  assert (R : view_ok l = true).
  { apply IH. intros i Hi. apply (H (S i)). cbn. lia. }
  destruct l as [|t l]; [reflexivity|].
  change (view_ok (1 :: t :: l)) with ((1 =? 1) && view_ok (t :: l)).
  now rewrite R.
Qed.

Section AsTensorSound.
Variables data_shape order : list nat.
Hypothesis order_ok : is_order order = true.
Hypothesis order_length : length order = length data_shape.
Hypothesis no_empty_axis : forall s, In s data_shape -> 0 < s.

(** The diagram built from a partly split tensor: it is built, it fits the
    storage shape, and its value at a storage index is the entry of the
    tensor at the index that holds [j[d]] at the place [order[d]]. *)
Lemma as_tensor_iterate_sound :
  forall todo depth tensor parallel_shape,
    todo + depth = length data_shape ->
    length (shape tensor) = length data_shape ->
    (forall d, depth <= d < length data_shape ->
               nth (nth d order 0) (shape tensor) 0
               = nth (nth d order 0) data_shape 0) ->
    (forall d, d < depth -> nth (nth d order 0) (shape tensor) 0 = 1) ->
    exists r,
      TDD.as_tensor_iterate todo tensor parallel_shape data_shape order depth
      = Ok r /\
      wf_node (split_shape data_shape order) depth (TDD.node r) = true /\
      forall j, fits j (split_shape data_shape order) ->
                eval (TDD.node r, TDD.weights r) j
                = entry tensor (scatter order (length data_shape) depth j).
Proof.
  pose proof (is_order_NoDup _ order_ok) as ND.
  set (n := length data_shape).
  induction todo as [|todo IH]; intros depth tensor ps Hn Hlen Hsh Hone.
  - cbn [TDD.as_tensor_iterate]. rewrite Hlen, Nat.sub_diag. cbn [skipn].
    rewrite view_ok_ones.
    2:{ intros i Hi. rewrite Hlen in Hi. unfold n in Hi.
        rewrite <- order_length in Hi.
        pose proof (is_order_In _ _ order_ok Hi) as I.
        rewrite <- (nth_position i order 0 I). apply Hone.
        apply position_lt in I. rewrite order_length in I.
        unfold n in Hn. lia. }
    eexists. split; [reflexivity|]. split; [reflexivity|].
    intros j _. unfold eval. cbn. rewrite scatter_done by (unfold n in *; lia).
    fold n. ring.
  - cbn [TDD.as_tensor_iterate].
    assert (D : depth < length order) by (rewrite order_length; fold n; lia).
    set (a := nth depth order 0).
    assert (A : a < n).
    { unfold n. rewrite <- order_length. apply is_order_bound; [assumption|].
      now apply nth_In. }
    set (width := nth a data_shape 0).
    assert (Wpos : 0 < width) by (apply no_empty_axis, nth_In; exact A).
    rewrite (subscript_ok 0) by exact D. cbn [bind]. fold a.
    unfold split. fold n. rewrite Hlen, Nat.sub_diag. cbn [plus].
    rewrite (subscript_ok 0) by (rewrite Hlen; exact A). cbn [bind].
    assert (Hw : nth a (shape tensor) 0 = width) by (apply Hsh; lia).
    rewrite Hw.
    rewrite (subscript_ok 0) by exact A. cbn [bind]. fold width.
    (* the successors *)
    destruct (mapM_exists
                (fun k r =>
                   wf_node (split_shape data_shape order) (S depth) (TDD.node r)
                   = true /\
                   forall j, fits j (split_shape data_shape order) ->
                             eval (TDD.node r, TDD.weights r) j
                             = entry (split_chunk tensor n a k)
                                     (scatter order n (S depth) j))
                (fun k =>
                   chunk <- subscript (map (split_chunk tensor n a) (seq 0 width))
                                      k IndexOutOfRange ;;
                   TDD.as_tensor_iterate todo chunk ps data_shape order (S depth))
                (seq 0 width)) as (succs & M & F).
    { intros k Hk. apply in_seq in Hk.
      rewrite (subscript_ok (split_chunk tensor n a 0))
        by (rewrite length_map, length_seq; lia).
      cbn [bind]. rewrite (map_nth (split_chunk tensor n a)), seq_nth by lia.
      cbn [plus].
      apply IH; [lia | cbn [shape split_chunk]; now rewrite length_set_nth | |].
      - intros d Hd. cbn [shape split_chunk].
        rewrite Hlen, Nat.sub_diag. cbn [plus].
        rewrite nth_set_nth_neq; [apply Hsh; lia|].
        unfold a. apply NoDup_nth_neq; try assumption; try lia.
        all: rewrite order_length; fold n; lia.
      - intros d Hd. cbn [shape split_chunk].
        rewrite Hlen, Nat.sub_diag. cbn [plus].
        destruct (Nat.eq_dec d depth) as [->|Nd].
        + fold a. apply nth_set_nth_eq. rewrite Hlen. exact A.
        + rewrite nth_set_nth_neq; [apply Hone; lia|].
          unfold a. apply NoDup_nth_neq; try assumption; try lia.
          all: rewrite order_length; fold n; lia. }
    rewrite M. cbn [bind].
    apply Forall2_nth_error in F as [Ls F]. rewrite length_seq in Ls.
    destruct succs as [|s0 succs']; [cbn in Ls; lia|]. cbn [bind].
    set (succs := s0 :: succs') in *.
    set (children := map (fun item => (TDD.node item, TDD.weights item)) succs).
    assert (Lc : length children = width)
      by (unfold children; now rewrite length_map).
    assert (Stor : nth_error (split_shape data_shape order) depth = Some width).
    { unfold split_shape. rewrite nth_error_map.
      rewrite (nth_error_nth' order 0 D). reflexivity. }
    assert (Child : forall k c, nth_error children k = Some c ->
              wf_node (split_shape data_shape order) (S depth) (fst c) = true /\
              forall j, fits j (split_shape data_shape order) ->
                        eval c j
                        = entry (split_chunk tensor n a k)
                                (scatter order n (S depth) j)).
    { intros k c Hc. unfold children in Hc.
      apply nth_error_map_inv in Hc as (r & Hr & ->).
      destruct (F k r Hr) as (k' & Hk' & W & V).
      assert (Kw : k < width).
      { pose proof (proj1 (nth_error_Some (seq 0 width) k)) as Kw.
        rewrite length_seq in Kw. apply Kw. congruence. }
      assert (k' = k).
      { pose proof Hk' as Hk''. apply nth_error_nth with (d := 0) in Hk''.
        rewrite seq_nth in Hk'' by exact Kw. cbn in Hk''. lia. }
      subst k'. split; assumption. }
    destruct (weighted_node.normalize (Branch depth children, 1%Z) false)
      as [new_node new_w] eqn:N.
    eexists. split; [reflexivity|]. cbn [TDD.node TDD.weights].
    split.
    + change new_node with (fst (new_node, new_w)). rewrite <- N.
      apply normalize_wf, wf_node_branch. split; [lia|].
      split; [now rewrite Lc|].
      apply Forall_forall. intros c Hc. apply In_nth_error in Hc as [k Hk].
      now apply (Child k c).
    + intros j Fj. rewrite <- N.
      pose proof (Fj depth width Stor) as K. rewrite <- Lc in K.
      rewrite normalize_sound by exact K.
      destruct (nth_error children (nth depth j 0)) as [c|] eqn:E;
        [|apply nth_error_None in E; lia].
      unfold eval at 1. cbn [fst snd]. rewrite (eval_node_pick _ _ _ _ E).
      destruct (Child _ c E) as [_ V]. specialize (V j Fj).
      unfold eval in V. rewrite Z.mul_1_l. rewrite V.
      cbn [entry split_chunk].
      rewrite (scatter_untouched order n j a todo (S depth)); [|lia|].
      * rewrite Nat.add_0_r. now rewrite (scatter_step order n depth j) by lia.
      * intros d Hd. unfold a. apply NoDup_nth_neq; try assumption; try lia.
        all: rewrite order_length; fold n; lia.
Qed.
End AsTensorSound.

Lemma scatter_nth (order : list nat) (n : nat) (j : list nat) :
  NoDup order -> length order = n ->
  (forall d, d < n -> nth d order 0 < n) ->
  forall todo depth d,
    todo + depth = n -> depth <= d < n ->
    nth (nth d order 0) (scatter order n depth j) 0 = nth d j 0.
Proof.
  intros ND L B. induction todo as [|todo IH]; intros depth d H Hd; [lia|].
  rewrite scatter_step by lia.
  destruct (Nat.eq_dec depth d) as [->|N].
  - apply nth_set_nth_eq. rewrite (length_scatter order n j todo) by lia.
    apply B. lia.
  - rewrite nth_set_nth_neq by (apply NoDup_nth_neq; try assumption; lia).
    apply IH; lia.
Qed.

Lemma as_tensor_of_eq (tensor : Tensor) (parallel_shape index_order : list nat) :
  TDD.as_tensor_of tensor parallel_shape index_order
  = let data_shape := skipn (length parallel_shape) (shape tensor) in
    let order := result_index_order data_shape index_order in
    if negb (length data_shape =? length order) then Err ShapeOrderMismatch
    else
      res <- TDD.as_tensor_iterate (length data_shape - 0) tensor parallel_shape
                                   data_shape order 0 ;;
      Ok (TDD.mkTDD (TDD.weights res) data_shape (TDD.node res) order).
Proof. destruct index_order; reflexivity. Qed.

(** The shape of the dense array is the data shape, for every valid order. *)
Lemma materialized_shape (t : TDD.TDD) :
  valid_order t ->
  map (fun p => nth p (storage_shape t) 0) (TDD.index_order t)
  = TDD.data_shape t.
Proof.
  intros [P L]. pose proof (is_order_NoDup _ P) as ND.
  apply (nth_ext _ _ 0 0); [now rewrite length_map|].
  intros m Hm. rewrite length_map in Hm.
  rewrite nth_map_lt by assumption.
  unfold storage_shape.
  assert (B : nth m (TDD.index_order t) 0 < length (TDD.index_order t))
    by (apply is_order_bound; [assumption | now apply nth_In]).
  rewrite nth_map_lt by now rewrite length_order_inverse.
  rewrite nth_order_inverse by assumption.
  now rewrite position_nth.
Qed.

(** The round trip holds for every order that is its own inverse (the
    identity, a swap of two axes, a reversal): there the two readings of
    [index_order] agree. *)
Theorem roundtrip_self_inverse_order (T : Tensor) (index_order : list nat) :
  let order := result_index_order (shape T) index_order in
  (forall s, In s (shape T) -> 0 < s) ->
  is_order order = true ->
  length order = length (shape T) ->
  self_inverse order ->
  exists t dense,
    TDD.as_tensor (TDD.OfTuple T [] index_order) = Ok t /\
    TDD.index_order t = order /\
    TDD.data_shape t = shape T /\
    wf_node (split_shape (shape T) order) 0 (TDD.node t) = true /\
    TDD.CUDAcpl t = Ok dense /\
    tensor_equal dense T.
Proof.
  intros order Pos P L S. pose proof (is_order_NoDup _ P) as ND.
  assert (B : forall d, d < length (shape T) -> nth d order 0 < length (shape T)).
  { intros d Hd. rewrite <- L. apply is_order_bound; [assumption|].
    apply nth_In. now rewrite L. }
  cbn [TDD.as_tensor]. rewrite as_tensor_of_eq. cbn [length skipn].
  fold order. rewrite L, Nat.eqb_refl. cbn [negb].
  destruct (as_tensor_iterate_sound (shape T) order P L Pos
              (length (shape T) - 0) 0 T [])
    as (r & E & W & V); [lia | reflexivity | reflexivity | lia |].
  rewrite E. cbn [bind].
  set (t := TDD.mkTDD (TDD.weights r) (shape T) (TDD.node r) order).
  assert (Vt : valid_order t) by (split; assumption).
  exists t. eexists. split; [reflexivity|]. split; [reflexivity|].
  split; [reflexivity|]. split; [exact W|].
  split; [apply CUDAcpl_ok; exact Vt|].
  pose proof (materialized_shape t Vt) as Sh. cbn [TDD.index_order TDD.data_shape t] in Sh.
  split; cbn [shape entry TDD.index_order TDD.node TDD.weights t]; [exact Sh|].
  rewrite Sh. intros idx R. apply in_range_nth in R as [Li R].
  rewrite V.
  - f_equal. apply (nth_ext _ _ 0 0).
    + rewrite (length_scatter order (length (shape T)) _ (length (shape T)) 0)
        by lia.
      now symmetry.
    + intros a Ha.
      rewrite (length_scatter order (length (shape T)) _ (length (shape T)) 0)
        in Ha by lia.
      assert (Ha' : a < length order) by now rewrite L.
      rewrite <- (S a Ha') at 1.
      rewrite (scatter_nth order (length (shape T)) _ ND L B
                           (length (shape T)) 0 (nth a order 0));
        [| lia | split; [lia | now apply B]].
      unfold storage_index. rewrite nth_map_lt
        by (rewrite length_seq, L; now apply B).
      rewrite seq_nth by (rewrite L; now apply B). cbn [plus].
      rewrite position_nth by assumption. reflexivity.
  - intros d s Hd. unfold split_shape in Hd.
    apply nth_error_map_inv in Hd as (a & Ha & ->).
    assert (D : d < length order) by (apply nth_error_Some; congruence).
    apply (nth_error_nth _ _ 0) in Ha. subst a.
    unfold storage_index. rewrite nth_map_lt by now rewrite length_seq.
    rewrite seq_nth by assumption. cbn [plus].
    rewrite self_inverse_position by assumption.
    apply R. apply B. now rewrite <- L.
Qed.

(** The round trip for the default order. *)
Corollary roundtrip_default_order (T : Tensor) :
  (forall s, In s (shape T) -> 0 < s) ->
  exists t dense,
    TDD.as_tensor (TDD.OfTensor T) = Ok t /\
    TDD.CUDAcpl t = Ok dense /\
    tensor_equal dense T.
Proof.
  intros Pos.
  destruct (roundtrip_self_inverse_order T [] Pos) as (t & dense & H).
  - apply is_order_incl. cbn [result_index_order].
    rewrite length_seq. apply incl_refl.
  - cbn [result_index_order]. apply length_seq.
  - intros d Hd. cbn [result_index_order] in *. rewrite length_seq in Hd.
    now rewrite !seq_nth by (rewrite ?seq_nth; assumption).
  - exists t, dense. cbn [TDD.as_tensor] in *. tauto.
Qed.

(** ** The reduced form *)

Lemma node_eqb_refl : forall a, node_eqb a a = true.
Proof.
  induction a as [|d succ IH] using Node_induction; cbn [node_eqb];
    [reflexivity|].
  rewrite Nat.eqb_refl. cbn [andb].
  induction IH as [|[n w] r Hn _ IHr]; [reflexivity|].
  cbn [fst] in Hn. now rewrite Hn, Z.eqb_refl, IHr.
Qed.

Lemma wnode_eqb_refl (e : WeightedNode) : wnode_eqb e e = true.
Proof. unfold wnode_eqb. now rewrite node_eqb_refl, Z.eqb_refl. Qed.

Lemma leading_sign_scale (c : Z) (v : list Z) :
  c <> 0%Z ->
  weighted_node.leading_sign (map (Z.mul c) v)
  = (Z.sgn c * weighted_node.leading_sign v)%Z
  \/ fold_right Z.gcd 0%Z v = 0%Z.
Proof.
  intros C. induction v as [|w v IH]; cbn [map weighted_node.leading_sign];
    [now right|].
  destruct (w =? 0)%Z eqn:W.
  - apply Z.eqb_eq in W. subst w. rewrite Z.mul_0_r. cbn [Z.eqb fold_right].
    destruct IH as [IH|IH]; [now left | right].
    rewrite IH. reflexivity.
  - apply Z.eqb_neq in W.
    assert (E : (c * w =? 0)%Z = false) by (apply Z.eqb_neq; nia).
    rewrite E. left. apply Z.sgn_mul.
Qed.

Lemma gcd_list_scale (c : Z) (v : list Z) :
  fold_right Z.gcd 0%Z (map (Z.mul c) v)
  = (Z.abs c * fold_right Z.gcd 0%Z v)%Z.
Proof.
  induction v as [|w v IH]; cbn [map fold_right]; [ring|].
  rewrite IH. rewrite <- (Z.gcd_abs_l (c * w)), Z.abs_mul.
  rewrite Z.gcd_mul_mono_l, Z.abs_idemp. now rewrite Z.gcd_abs_l.
Qed.

Lemma canonical_scalar_scale (c : Z) (v : list Z) :
  c <> 0%Z ->
  weighted_node.canonical_scalar (map (Z.mul c) v)
  = (c * weighted_node.canonical_scalar v)%Z.
Proof.
  intros C. unfold weighted_node.canonical_scalar.
  rewrite gcd_list_scale.
  destruct (leading_sign_scale c v C) as [L|Z0].
  - rewrite L. rewrite <- (Z.abs_sgn c) at 3. ring.
  - rewrite Z0. ring.
Qed.

Lemma reduced_node_branch (d : nat) (succ : list (Node * Z)) :
  reduced_node (Branch d succ) = true <->
  weighted_node.canonical_scalar (map snd succ) = 1%Z /\
  all_equal succ = false /\
  forall e, In e succ -> reduced e = true.
Proof.
  cbn [reduced_node]. rewrite !andb_true_iff, Z.eqb_eq, negb_true_iff.
  rewrite forallb_forall. unfold reduced. tauto.
Qed.

Lemma reduced_inv (n : Node) (w : Z) :
  reduced (n, w) = true ->
  reduced_node n = true /\ (w = 0%Z -> n = Terminal).
Proof.
  unfold reduced. cbn [fst snd]. intros H.
  apply andb_true_iff in H as [Z R]. split; [assumption|].
  intros ->. cbn in Z. destruct n; [reflexivity | discriminate].
Qed.

Lemma reduced_intro (n : Node) (w : Z) :
  reduced_node n = true -> (w = 0%Z -> n = Terminal) -> reduced (n, w) = true.
Proof.
  intros R Z. unfold reduced. cbn [fst snd]. rewrite R, andb_true_r.
  destruct (w =? 0)%Z eqn:E; [|reflexivity].
  apply Z.eqb_eq in E. now rewrite (Z E).
Qed.

(** [normalize] returns a weighted node in reduced form when the successors
    it is given are and the incoming weight is not zero. *)
Lemma normalize_reduced (d : nat) (succ : list (Node * Z)) (w : Z) (b : bool) :
  w <> 0%Z ->
  (forall e, In e succ -> reduced e = true) ->
  reduced (weighted_node.normalize (Branch d succ, w) b) = true.
Proof.
  intros Hw R. unfold weighted_node.normalize.
  set (g := weighted_node.canonical_scalar (map snd succ)).
  destruct (g =? 0)%Z eqn:G; [reflexivity|]. apply Z.eqb_neq in G.
  set (scaled := fun e : Node * Z => (fst e, (snd e / g)%Z)).
  assert (Fac : forall e, In e succ -> (g * (snd e / g))%Z = snd e).
  { intros e He. apply canonical_scalar_factor; [|exact G].
    now apply in_map. }
  assert (R' : forall e', In e' (map scaled succ) -> reduced e' = true).
  { intros e' He'. apply in_map_iff in He' as (e & <- & He).
    destruct e as [n x]. destruct (reduced_inv n x (R _ He)) as [Rn Zn].
    apply reduced_intro; [exact Rn|]. cbn [fst snd scaled]. intros Q.
    apply Zn. pose proof (Fac _ He) as Fx. cbn [snd] in Fx.
    rewrite <- Fx, Q. ring. }
  destruct (map scaled succ) as [|e0 rest] eqn:M; [reflexivity|].
  destruct (forallb (wnode_eqb e0) rest) eqn:F.
  - destruct e0 as [n0 x0].
    destruct (reduced_inv n0 x0 (R' _ (or_introl eq_refl))) as [Rn Zn].
    apply reduced_intro; [exact Rn|]. cbn [fst snd]. intros Q. apply Zn. nia.
  - apply reduced_intro; [|intros Q; nia].
    apply reduced_node_branch. split; [|split; [exact F | exact R']].
    assert (E : map snd succ = map (Z.mul g) (map snd (e0 :: rest))).
    { rewrite <- M, !map_map. apply map_ext_in. intros e He.
      cbn [snd scaled]. symmetry. now apply Fac. }
    pose proof (canonical_scalar_scale g (map snd (e0 :: rest)) G) as S.
    rewrite <- E in S. fold g in S.
    apply (Z.mul_cancel_l _ _ g G). rewrite <- S. ring.
Qed.

(** ** The reduced form is unique *)

Lemma eval_node_indep (sh : list nat) (j j' : list nat) :
  forall n lo,
    wf_node sh lo n = true ->
    (forall d, lo <= d -> nth d j 0 = nth d j' 0) ->
    eval_node n j = eval_node n j'.
Proof.
  induction n as [|d succ IH] using Node_induction; intros lo W E;
    [reflexivity|].
  apply wf_node_branch in W as (L & _ & C).
  rewrite Forall_forall in IH, C.
  rewrite !eval_node_branch, <- (E d L).
  destruct (nth_error succ (nth d j 0)) as [e|] eqn:N; [|reflexivity].
  apply nth_error_In in N. f_equal.
  apply (IH e N (S d)); [now apply C|]. intros d' Hd'. apply E. lia.
Qed.

Lemma fits_set_nth (sh j : list nat) (d k s : nat) :
  fits j sh -> nth_error sh d = Some s -> k < s -> fits (set_nth d k j) sh.
Proof.
  intros F A K d' s' A'. destruct (Nat.eq_dec d d') as [<-|N].
  - assert (s' = s) by congruence. subst s'.
    destruct (Nat.lt_ge_cases d (length j)) as [Lt|Ge].
    + now rewrite nth_set_nth_eq.
    + rewrite nth_overflow by now rewrite length_set_nth. lia.
  - rewrite nth_set_nth_neq by assumption. now apply F.
Qed.

(** The value of a branch node where the index is set to [k] on the node's
    axis is the value of its successor [k], with the weights multiplied. *)
Lemma eval_branch_restrict (sh : list nat) (lo d : nat)
    (succ : list (Node * Z)) (w : Z) (k : nat) (e : Node * Z) (j : list nat) :
  wf_node sh lo (Branch d succ) = true ->
  nth_error succ k = Some e ->
  d < length j ->
  eval (Branch d succ, w) (set_nth d k j) = eval (fst e, (w * snd e)%Z) j.
Proof.
  intros W E D. apply wf_node_branch in W as (_ & _ & C).
  rewrite Forall_forall in C.
  unfold eval. cbn [fst snd]. rewrite eval_node_branch.
  rewrite nth_set_nth_eq by assumption. rewrite E.
  rewrite (eval_node_indep sh (set_nth d k j) j (fst e) (S d)).
  - ring.
  - apply C. now apply nth_error_In in E.
  - intros d' Hd'. apply nth_set_nth_neq. lia.
Qed.

Lemma reduced_scale (n : Node) (w c : Z) :
  reduced (n, w) = true -> c <> 0%Z -> reduced (n, (c * w)%Z) = true.
Proof.
  intros R C. destruct (reduced_inv n w R) as [Rn Zn].
  apply reduced_intro; [assumption|]. intros Q. apply Zn. nia.
Qed.

Lemma all_equal_intro (succ : list (Node * Z)) :
  (forall e e', In e succ -> In e' succ -> e = e') -> all_equal succ = true.
Proof.
  destruct succ as [|e0 rest]; intros H; [reflexivity|].
  cbn [all_equal]. apply forallb_forall. intros e He.
  rewrite (H e e0); [apply wnode_eqb_refl | now right | now left].
Qed.

Lemma pointwise_eq {A : Type} (l l' : list A) :
  length l = length l' ->
  (forall k a a', nth_error l k = Some a -> nth_error l' k = Some a' -> a = a') ->
  l = l'.
Proof.
  revert l'. induction l as [|x l IH]; intros [|y l'] L H; try discriminate;
    [reflexivity|].
  f_equal.
  - apply (H 0); reflexivity.
  - apply IH; [now injection L|]. intros k a a' Ha Ha'. apply (H (S k)); assumption.
Qed.

Section Unique.
Variable sh : list nat.
Hypothesis no_empty_axis : forall s, In s sh -> 0 < s.

Lemma zeros_fit : length (repeat 0 (length sh)) = length sh /\
                  fits (repeat 0 (length sh)) sh.
Proof.
  split; [apply repeat_length|]. intros d s A. rewrite nth_repeat_zero.
  apply no_empty_axis. now apply nth_error_In in A.
Qed.

(** A reduced branch node does not have all its successors, weights
    multiplied in, equal to one weighted node. *)
Lemma reduced_branch_varies (lo d : nat) (succ : list (Node * Z)) (w : Z)
    (F : WeightedNode) :
  wf_node sh lo (Branch d succ) = true ->
  reduced (Branch d succ, w) = true ->
  (forall e, In e succ -> fst e = fst F /\ (w * snd e)%Z = snd F) ->
  False.
Proof.
  intros W R All. destruct (reduced_inv _ _ R) as [Rn Zn].
  assert (Hw : w <> 0%Z) by (intros Q; specialize (Zn Q); discriminate).
  apply reduced_node_branch in Rn as (_ & NE & _).
  rewrite all_equal_intro in NE; [discriminate|].
  intros [n x] [n' x'] He He'.
  destruct (All _ He) as [E1 E2], (All _ He') as [E1' E2'].
  cbn [fst snd] in *. f_equal; [congruence | nia].
Qed.

(** The successor [k] of a branch node, weights multiplied in, agrees with
    whatever the node agrees with, the index set to [k] on the node's axis. *)
Lemma agree_successor (lo d : nat) (succ : list (Node * Z)) (w : Z)
    (other : WeightedNode) (lo' : nat) (e : Node * Z) :
  wf_node sh lo (Branch d succ) = true ->
  wf_node sh lo' (fst other) = true -> d < lo' ->
  agree sh (Branch d succ, w) other ->
  In e succ ->
  agree sh (fst e, (w * snd e)%Z) other.
Proof.
  intros W Wo Lt A He j Lj Fj.
  pose proof W as W'. apply wf_node_branch in W' as (_ & Ad & _).
  apply In_nth_error in He as [k Hk].
  assert (K : k < length succ) by (apply nth_error_Some; congruence).
  assert (D : d < length j).
  { rewrite Lj. apply nth_error_Some. congruence. }
  rewrite <- (eval_branch_restrict sh lo d succ w k e j W Hk D).
  rewrite A; [| now rewrite length_set_nth | now apply (fits_set_nth sh j d k _ Fj Ad)].
  unfold eval. f_equal.
  apply (eval_node_indep sh _ _ _ lo' Wo).
  intros d' Hd'. apply nth_set_nth_neq. lia.
Qed.

Lemma agree_sym (e1 e2 : WeightedNode) : agree sh e1 e2 -> agree sh e2 e1.
Proof. intros A j L F. symmetry. now apply A. Qed.

Lemma unique_reduced : forall n1 n2, unique_ok sh n1 n2.
Proof.
  induction n1 as [|d1 s1 IH1] using Node_induction.
  - induction n2 as [|d2 s2 IH2] using Node_induction;
      intros lo w1 w2 W1 W2 R1 R2 A.
    + split; [reflexivity|]. destruct zeros_fit as [L F].
      specialize (A _ L F). unfold eval in A. cbn in A. lia.
    + exfalso. rewrite Forall_forall in IH2.
      pose proof W2 as W2'. apply wf_node_branch in W2' as (_ & _ & C2).
      rewrite Forall_forall in C2.
      destruct (reduced_inv _ _ R2) as [Rn2 Zn2].
      assert (Hw2 : w2 <> 0%Z) by (intros Q; specialize (Zn2 Q); discriminate).
      apply reduced_node_branch in Rn2 as (_ & _ & Rs2).
      apply (reduced_branch_varies lo d2 s2 w2 (Terminal, w1) W2 R2).
      intros e He. destruct e as [n x]. cbn [fst snd].
      destruct (IH2 (n, x) He (S d2) w1 (w2 * x)%Z) as [E1 E2];
        [reflexivity | now apply (C2 _ He) | exact R1
        | apply reduced_scale; [now apply Rs2 | exact Hw2] | | ].
      * apply agree_sym.
        apply (agree_successor lo d2 s2 w2 (Terminal, w1) (S d2) (n, x));
          auto. now apply agree_sym.
      * cbn [fst snd] in *. split; congruence.
  - induction n2 as [|d2 s2 IH2] using Node_induction;
      intros lo w1 w2 W1 W2 R1 R2 A.
    + exfalso. rewrite Forall_forall in IH1.
      pose proof W1 as W1'. apply wf_node_branch in W1' as (_ & _ & C1).
      rewrite Forall_forall in C1.
      destruct (reduced_inv _ _ R1) as [Rn1 Zn1].
      assert (Hw1 : w1 <> 0%Z) by (intros Q; specialize (Zn1 Q); discriminate).
      apply reduced_node_branch in Rn1 as (_ & _ & Rs1).
      apply (reduced_branch_varies lo d1 s1 w1 (Terminal, w2) W1 R1).
      intros e He. destruct e as [n x]. cbn [fst snd].
      apply (IH1 (n, x) He Terminal (S d1) (w1 * x)%Z w2);
        [now apply (C1 _ He) | reflexivity
        | apply reduced_scale; [now apply Rs1 | exact Hw1] | exact R2 |].
      apply (agree_successor lo d1 s1 w1 (Terminal, w2) (S d1) (n, x)); auto.
    + rewrite Forall_forall in IH1, IH2.
      pose proof W1 as W1'. apply wf_node_branch in W1' as (L1 & A1 & C1).
      pose proof W2 as W2'. apply wf_node_branch in W2' as (L2 & A2 & C2).
      rewrite Forall_forall in C1, C2.
      destruct (reduced_inv _ _ R1) as [Rn1 Zn1].
      destruct (reduced_inv _ _ R2) as [Rn2 Zn2].
      assert (Hw1 : w1 <> 0%Z) by (intros Q; specialize (Zn1 Q); discriminate).
      assert (Hw2 : w2 <> 0%Z) by (intros Q; specialize (Zn2 Q); discriminate).
      apply reduced_node_branch in Rn1 as (S1 & _ & Rs1).
      apply reduced_node_branch in Rn2 as (S2 & _ & Rs2).
      destruct (Nat.lt_trichotomy d1 d2) as [Lt | [Eq | Gt]].
      * (* the left node branches on an axis the right one skips *)
        exfalso.
        assert (W2s : wf_node sh (S d1) (Branch d2 s2) = true).
        { apply wf_node_branch. rewrite Forall_forall. repeat split; auto. }
        apply (reduced_branch_varies lo d1 s1 w1 (Branch d2 s2, w2) W1 R1).
        intros e He. destruct e as [n x]. cbn [fst snd].
        apply (IH1 (n, x) He (Branch d2 s2) (S d1) (w1 * x)%Z w2);
          [now apply (C1 _ He) | exact W2s
          | apply reduced_scale; [now apply Rs1 | exact Hw1] | exact R2 |].
        apply (agree_successor lo d1 s1 w1 (Branch d2 s2, w2) (S d1) (n, x));
          auto.
      * (* both branch on the same axis *)
        subst d2.
        assert (Len : length s1 = length s2) by congruence.
        assert (Pair : forall k e1 e2,
                   nth_error s1 k = Some e1 -> nth_error s2 k = Some e2 ->
                   fst e1 = fst e2 /\ (w1 * snd e1)%Z = (w2 * snd e2)%Z).
        { intros k [n x] [n' x'] H1 H2. cbn [fst snd].
          pose proof (nth_error_In _ _ H1) as I1.
          pose proof (nth_error_In _ _ H2) as I2.
          apply (IH1 (n, x) I1 n' (S d1) (w1 * x)%Z (w2 * x')%Z);
            [now apply (C1 _ I1) | now apply (C2 _ I2)
            | apply reduced_scale; [now apply Rs1 | exact Hw1]
            | apply reduced_scale; [now apply Rs2 | exact Hw2] |].
          intros j Lj Fj.
          assert (D : d1 < length j).
          { rewrite Lj. apply nth_error_Some. congruence. }
          assert (K : k < length s1) by (apply nth_error_Some; congruence).
          pose proof (eval_branch_restrict sh lo d1 s1 w1 k (n, x) j W1 H1 D)
            as X1.
          pose proof (eval_branch_restrict sh lo d1 s2 w2 k (n', x') j W2 H2 D)
            as X2.
          cbn [fst snd] in X1, X2 |- *. rewrite <- X1, <- X2.
          apply A; [now rewrite length_set_nth|].
          now apply (fits_set_nth sh j d1 k _ Fj A1). }
        assert (Ws : map (Z.mul w1) (map snd s1) = map (Z.mul w2) (map snd s2)).
        { apply pointwise_eq; [now rewrite !length_map|].
          intros k a a' Ha Ha'. rewrite !map_map in Ha, Ha'.
          apply nth_error_map_inv in Ha as (e1 & H1 & ->).
          apply nth_error_map_inv in Ha' as (e2 & H2 & ->).
          apply (Pair k e1 e2 H1 H2). }
        assert (Ew : w1 = w2).
        { apply (f_equal weighted_node.canonical_scalar) in Ws.
          rewrite !canonical_scalar_scale in Ws by assumption.
          rewrite S1, S2 in Ws. lia. }
        subst w2. split; [|reflexivity]. f_equal.
        apply pointwise_eq; [assumption|].
        intros k [n x] [n' x'] H1 H2.
        destruct (Pair k _ _ H1 H2) as [E1 E2]. cbn [fst snd] in *.
        f_equal; [assumption | nia].
      * (* the right node branches on an axis the left one skips *)
        exfalso.
        assert (W1s : wf_node sh (S d2) (Branch d1 s1) = true).
        { apply wf_node_branch. rewrite Forall_forall. repeat split; auto. }
        apply (reduced_branch_varies lo d2 s2 w2 (Branch d1 s1, w1) W2 R2).
        intros e He. destruct e as [n x]. cbn [fst snd].
        destruct (IH2 (n, x) He (S d2) w1 (w2 * x)%Z) as [E1 E2];
          [exact W1s | now apply (C2 _ He) | exact R1
          | apply reduced_scale; [now apply Rs2 | exact Hw2] | | ].
        -- apply agree_sym.
           apply (agree_successor lo d2 s2 w2 (Branch d1 s1, w1) (S d2) (n, x));
             auto. now apply agree_sym.
        -- cbn [fst snd] in *. split; congruence.
Qed.
End Unique.

(** ** The engine builds reduced diagrams *)

Lemma mapM_ok_inv {A B : Type} (f : A -> Result B) (l : list A) (bs : list B) :
  mapM f l = Ok bs -> forall b, In b bs -> exists a, In a l /\ f a = Ok b.
Proof.
  revert bs. induction l as [|a l IH]; cbn [mapM]; intros bs H b Hb.
  - apply Ok_inj in H. subst bs. destruct Hb.
  - apply bind_ok_inv in H as (b0 & Fa & H).
    apply bind_ok_inv in H as (bs0 & M & H). apply Ok_inj in H. subst bs.
    destruct Hb as [<-|Hb].
    + exists a. split; [now left | assumption].
    + destruct (IH _ M b Hb) as (a' & Ha' & Fa'). exists a'. split; [now right|assumption].
Qed.

Lemma reduced_terminal (w : Z) : reduced (Terminal, w) = true.
Proof. apply reduced_intro; reflexivity. Qed.

Lemma as_tensor_iterate_reduced (todo : nat) :
  forall tensor ps ds io depth r,
    TDD.as_tensor_iterate todo tensor ps ds io depth = Ok r ->
    reduced (TDD.node r, TDD.weights r) = true.
Proof.
  induction todo as [|todo IH]; intros tensor ps ds io depth r H;
    cbn [TDD.as_tensor_iterate] in H.
  - destruct (view_ok _); [|discriminate].
    apply Ok_inj in H. subst r. apply reduced_terminal.
  - apply bind_ok_inv in H as (split_pos & _ & H).
    apply bind_ok_inv in H as (split_tensor & _ & H).
    apply bind_ok_inv in H as (width & _ & H).
    apply bind_ok_inv in H as (succs & M & H).
    apply bind_ok_inv in H as (u & _ & H).
    match type of H with
    | context [weighted_node.normalize ?x ?y] =>
        pose proof (normalize_reduced depth
                      (map (fun item => (TDD.node item, TDD.weights item)) succs)
                      1%Z y) as N;
        destruct (weighted_node.normalize x y) as [nn nw]
    end.
    apply Ok_inj in H. subst r. cbn [TDD.node TDD.weights].
    apply N; [lia|]. intros e He. apply in_map_iff in He as (item & <- & Hi).
    destruct (mapM_ok_inv _ _ _ M item Hi) as (k & _ & Fk).
    apply bind_ok_inv in Fk as (chunk & _ & Fk). now apply IH in Fk.
Qed.

Lemma reduced_successor (d : nat) (succ : list (Node * Z)) (w : Z)
    (e : Node * Z) :
  reduced (Branch d succ, w) = true -> In e succ ->
  reduced (fst e, (w * snd e)%Z) = true.
Proof.
  intros R He. destruct (reduced_inv _ _ R) as [Rn Zn].
  assert (Hw : w <> 0%Z) by (intros Q; specialize (Zn Q); discriminate).
  apply reduced_node_branch in Rn as (_ & _ & Rs).
  destruct e as [n x]. apply reduced_scale; [now apply Rs | exact Hw].
Qed.

Lemma sum_node_reduced :
  forall a b wa wb,
    reduced (a, wa) = true -> reduced (b, wb) = true ->
    reduced (weighted_node.sum_node a wa b wb) = true.
Proof.
  induction a as [|da sa IHa] using Node_induction.
  - induction b as [|db sb IHb] using Node_induction; intros wa wb Ra Rb.
    + apply reduced_terminal.
    + rewrite sum_node_right by exact I. rewrite Forall_forall in IHb.
      apply normalize_reduced; [lia|].
      intros e He. apply in_map_iff in He as (e' & <- & He').
      apply (IHb e' He'); [exact Ra | now apply (reduced_successor db sb)].
  - induction b as [|db sb IHb] using Node_induction; intros wa wb Ra Rb.
    + rewrite sum_node_left by exact I. rewrite Forall_forall in IHa.
      apply normalize_reduced; [lia|].
      intros e He. apply in_map_iff in He as (e' & <- & He').
      apply (IHa e' He'); [now apply (reduced_successor da sa) | exact Rb].
    + rewrite Forall_forall in IHa, IHb.
      destruct (Nat.lt_trichotomy da db) as [Lt | [Eq | Gt]].
      * rewrite sum_node_left by exact Lt.
        apply normalize_reduced; [lia|].
        intros e He. apply in_map_iff in He as (e' & <- & He').
        apply (IHa e' He'); [now apply (reduced_successor da sa) | exact Rb].
      * subst db. rewrite sum_node_aligned.
        apply normalize_reduced; [lia|].
        intros e He. apply In_zip_with in He as (x & y & Hx & Hy & ->).
        apply (IHa x Hx);
          [now apply (reduced_successor da sa) | now apply (reduced_successor da sb)].
      * rewrite sum_node_right by exact Gt.
        apply normalize_reduced; [lia|].
        intros e He. apply in_map_iff in He as (e' & <- & He').
        apply (IHb e' He'); [exact Ra | now apply (reduced_successor db sb)].
Qed.

Lemma index_node_reduced (pairs : list (nat * nat)) :
  forall n w r,
    reduced (n, w) = true ->
    weighted_node.index_node n w pairs = Ok r ->
    reduced r = true.
Proof.
  induction n as [|d succ IH] using Node_induction; intros w r R H.
  - apply Ok_inj in H. subst r. apply reduced_terminal.
  - rewrite index_node_branch in H. rewrite Forall_forall in IH.
    destruct (weighted_node.requested d pairs) as [v|].
    + destruct (nth_error succ v) as [e|] eqn:E; [|discriminate].
      apply nth_error_In in E.
      apply (IH e E (w * snd e)%Z r); [|exact H].
      now apply (reduced_successor d succ).
    + apply bind_ok_inv in H as (succ' & M & H). apply Ok_inj in H. subst r.
      destruct (reduced_inv _ _ R) as [Rn Zn].
      apply normalize_reduced.
      * intros Q. specialize (Zn Q). discriminate.
      * intros e' He'. destruct (mapM_ok_inv _ _ _ M e' He') as (e & He & Fe).
        apply (IH e He (snd e) e'); [|exact Fe].
        apply reduced_node_branch in Rn as (_ & _ & Rs).
        destruct e as [n x]. now apply Rs.
Qed.

Lemma as_tensor_reduced (tensor : Tensor) (parallel_shape index_order : list nat)
    (t : TDD.TDD) :
  TDD.as_tensor (TDD.OfTuple tensor parallel_shape index_order) = Ok t ->
  reduced (TDD.node t, TDD.weights t) = true.
Proof.
  cbn [TDD.as_tensor]. rewrite as_tensor_of_eq. cbv zeta.
  destruct (negb _); [discriminate|]. intros H.
  apply bind_ok_inv in H as (r & E & H). apply Ok_inj in H. subst t.
  cbn [TDD.node TDD.weights]. now apply as_tensor_iterate_reduced in E.
Qed.

(** ** Two constructions of the same tensor *)

Lemma in_range_zeros (sh : list nat) :
  (forall s, In s sh -> 0 < s) -> in_range (repeat 0 (length sh)) sh.
Proof.
  induction sh as [|s sh IH]; cbn; intros H; [exact I|].
  split; [apply H; now left | apply IH; intros; apply H; now right].
Qed.

Lemma in_range_chunk (sh idx : list nat) (a k : nat) :
  in_range idx (set_nth a 1 sh) -> k < nth a sh 0 ->
  in_range (set_nth a (k + nth a idx 0) idx) sh.
Proof.
  revert idx a. induction sh as [|s sh IH]; intros [|i idx] [|a]; cbn;
    try tauto; try lia.
  - intros [Hi R] K. split; [lia | assumption].
  - intros [Hi R] K. split; [assumption | now apply IH].
Qed.

Lemma set_nth_positive (sh : list nat) (a : nat) :
  (forall s, In s sh -> 0 < s) -> forall s, In s (set_nth a 1 sh) -> 0 < s.
Proof.
  revert a. induction sh as [|x sh IH]; intros [|a] H s; cbn; try tauto.
  - intros [<-|Hs]; [lia | apply H; now right].
  - intros [<-|Hs]; [apply H; now left|].
    apply (IH a); [intros; apply H; now right | assumption].
Qed.

(** [as_tensor] reads the tensor only at indices within its shape: two
    tensors that agree there give the same diagram. *)
Lemma as_tensor_iterate_ext (ds io ps : list nat) :
  forall todo depth t1 t2,
    shape t1 = shape t2 ->
    length (shape t1) = length ds ->
    (forall s, In s (shape t1) -> 0 < s) ->
    (forall idx, in_range idx (shape t1) -> entry t1 idx = entry t2 idx) ->
    TDD.as_tensor_iterate todo t1 ps ds io depth
    = TDD.as_tensor_iterate todo t2 ps ds io depth.
Proof.
  induction todo as [|todo IH]; intros depth t1 t2 Sh Len Pos Eq;
    cbn [TDD.as_tensor_iterate].
  - rewrite <- Sh. rewrite Eq; [reflexivity|]. rewrite <- Len.
    now apply in_range_zeros.
  - destruct (subscript io depth IndexOutOfRange) as [a|e]; cbn [bind];
      [|reflexivity].
    unfold split. rewrite <- Sh, Len, Nat.sub_diag. cbn [plus].
    destruct (subscript (shape t1) a IndexOutOfRange) as [n|e] eqn:Sa;
      cbn [bind]; [|reflexivity].
    destruct (subscript ds a IndexOutOfRange) as [width|e]; cbn [bind];
      [|reflexivity].
    assert (A : nth_error (shape t1) a = Some n).
    { unfold subscript in Sa. destruct (nth_error (shape t1) a); congruence. }
    rewrite (mapM_ext
               (fun k =>
                  chunk <- subscript (map (split_chunk t2 (length ds) a) (seq 0 n))
                                     k IndexOutOfRange ;;
                  TDD.as_tensor_iterate todo chunk ps ds io (S depth)));
      [reflexivity|].
    intros k _. unfold subscript. rewrite !nth_error_map.
    destruct (nth_error (seq 0 n) k) as [k'|] eqn:K; cbn [option_map bind];
      [|reflexivity].
    assert (Kn : k' < n).
    { apply nth_error_In in K. apply in_seq in K. lia. }
    apply IH; cbn [shape split_chunk].
    + now rewrite Sh.
    + now rewrite length_set_nth.
    + rewrite Len, Nat.sub_diag. cbn [plus]. now apply set_nth_positive.
    + rewrite Len, Nat.sub_diag. cbn [plus entry]. intros idx R.
      apply Eq. apply in_range_chunk; [assumption|].
      now rewrite (nth_error_nth _ _ 0 A).
Qed.

Lemma as_tensor_ext (T1 T2 : Tensor) (index_order : list nat) :
  tensor_equal T1 T2 ->
  (forall s, In s (shape T1) -> 0 < s) ->
  TDD.as_tensor (TDD.OfTuple T1 [] index_order)
  = TDD.as_tensor (TDD.OfTuple T2 [] index_order).
Proof.
  intros [Sh Eq] Pos. cbn [TDD.as_tensor]. rewrite !as_tensor_of_eq.
  cbn [length skipn]. rewrite <- Sh.
  destruct (negb _); [reflexivity|].
  now rewrite (as_tensor_iterate_ext _ _ _ _ _ T1 T2 Sh eq_refl Pos Eq).
Qed.

(** ** The canonical form *)

Lemma in_range_intro (idx sh : list nat) :
  length idx = length sh ->
  (forall m, m < length sh -> nth m idx 0 < nth m sh 0) ->
  in_range idx sh.
Proof.
  revert sh. induction idx as [|i idx IH]; intros [|s sh] L H;
    try discriminate; cbn; [exact I|].
  split; [apply (H 0); cbn; lia|].
  apply IH; [now injection L|]. intros m Hm. apply (H (S m)). cbn. lia.
Qed.

Lemma tensor_equal_refl (t : Tensor) : tensor_equal t t.
Proof. split; reflexivity. Qed.


(** * Further properties of the facade *)

(** ** What [__index_reduce_proc] returns *)

Lemma is_order_of_perm (l : list nat) :
  Permutation l (seq 0 (length l)) -> is_order l = true.
Proof.
  intros P. apply is_order_incl. intros j Hj.
  apply (Permutation_in j (Permutation_sym P) Hj).
Qed.

Lemma sorted_positions_order (key : nat -> nat) (n : nat) :
  is_order (sorted_by key (seq 0 n)) = true /\
  length (sorted_by key (seq 0 n)) = n.
Proof.
  pose proof (sorted_by_perm key (seq 0 n)) as P.
  assert (L : length (sorted_by key (seq 0 n)) = n).
  { rewrite (Permutation_length P). apply length_seq. }
  split; [|exact L]. apply is_order_of_perm. now rewrite L.
Qed.

Lemma index_reduce_proc_inv (t : TDD.TDD) (reduced_indices sh o : list nat) :
  TDD.index_reduce_proc t reduced_indices = Ok (sh, o) ->
  exists kept,
    length kept = length sh /\
    o = sorted_by (fun k => nth k kept 0) (seq 0 (length kept)).
Proof.
  unfold TDD.index_reduce_proc. intros H.
  apply bind_ok_inv in H as (kept & _ & H). apply Ok_inj in H.
  injection H as <- <-. exists (map snd kept).
  now rewrite !length_map.
Qed.

(** X5.  Whatever diagram [index] or [contract] is called on, the diagram it
    returns has its bookkeeping in order: its [index_order] is a permutation
    of the axes of its [data_shape].  Nothing is asked of the diagram
    given. *)
Theorem bookkeeping_stays_valid (t r : TDD.TDD) :
  (exists pairs, TDD.index t pairs = Ok r) \/
  (exists data_indices, TDD.contract t data_indices = Ok r) ->
  valid_order r.
Proof.
  assert (V : forall R sh o, TDD.index_reduce_proc t R = Ok (sh, o) ->
                             is_order o = true /\ length o = length sh).
  { intros R sh o H. apply index_reduce_proc_inv in H as (kept & L & ->).
    rewrite <- L. apply sorted_positions_order. }
  intros [[pairs H]|[di H]].
  - unfold TDD.index in H.
    apply bind_ok_inv in H as (inner & _ & H).
    apply bind_ok_inv in H as ([n w] & _ & H).
    apply bind_ok_inv in H as ([sh o] & R & H).
    apply Ok_inj in H. subst r. exact (V _ _ _ R).
  - unfold TDD.contract in H.
    apply bind_ok_inv in H as (inner & _ & H).
    apply bind_ok_inv in H as ([n w] & _ & H).
    apply bind_ok_inv in H as ([sh o] & R & H).
    apply Ok_inj in H. subst r. exact (V _ _ _ R).
Qed.

Lemma bookkeeping_stays_valid_witness :
  exists r, TDD.index Samples.Da [(0, 1)] = Ok r /\ valid_order r.
Proof.
  eexists. split; [vm_compute; reflexivity|].
  apply (bookkeeping_stays_valid Samples.Da). left.
  exists [(0, 1)]. vm_compute. reflexivity.
Defined.

Lemma mapM_ok_map {A B : Type} (g : A -> B) (f : A -> Result B) (l : list A)
    (bs : list B) :
  (forall a b, In a l -> f a = Ok b -> b = g a) ->
  mapM f l = Ok bs -> bs = map g l.
Proof.
  revert bs. induction l as [|a l IH]; cbn [mapM map]; intros bs G H.
  - now apply Ok_inj in H.
  - apply bind_ok_inv in H as (b & Fa & H).
    apply bind_ok_inv in H as (bs' & M & H). apply Ok_inj in H. subst bs.
    rewrite (G a b (or_introl eq_refl) Fa).
    rewrite (IH bs') by (intros; try apply G; auto; now right). reflexivity.
Qed.

Lemma kept_axes_In (t : TDD.TDD) (reduced_indices : list nat) (i : nat) :
  In i (kept_axes t reduced_indices) <->
  i < length (TDD.data_shape t) /\ mem i reduced_indices = false.
Proof.
  unfold kept_axes. rewrite filter_In, in_seq, negb_true_iff.
  split; intros [H1 H2]; split; first [lia | assumption].
Qed.

(** X6.  [__index_reduce_proc] fails only with an [IndexError], and it does
    so exactly when [index_order] has no entry for an axis of [data_shape]
    that is kept. *)
Theorem index_reduce_proc_fails (t : TDD.TDD) (reduced_indices : list nat) :
  (forall e, TDD.index_reduce_proc t reduced_indices = Err e ->
             e = IndexOutOfRange) /\
  (is_ok (TDD.index_reduce_proc t reduced_indices) = false <->
   exists i, i < length (TDD.data_shape t) /\
             mem i reduced_indices = false /\
             length (TDD.index_order t) <= i).
Proof.
  unfold TDD.index_reduce_proc. fold (kept_axes t reduced_indices).
  set (f := fun i : nat =>
              s <- subscript (TDD.data_shape t) i IndexOutOfRange ;;
              o <- subscript (TDD.index_order t) i IndexOutOfRange ;;
              Ok (s, o)).
  assert (K : forall i e, f i = Err e -> e = IndexOutOfRange).
  { intros i e. unfold f, subscript.
    destruct (nth_error (TDD.data_shape t) i); cbn [bind]; [|congruence].
    destruct (nth_error (TDD.index_order t) i); cbn [bind]; congruence. }
  split.
  - intros e H. destruct (mapM f _) as [kept|e'] eqn:M; cbn [bind] in H;
      [discriminate|].
    apply mapM_err_inv in M as (i & _ & Fi). apply K in Fi. congruence.
  - split.
    + intros H. destruct (mapM f _) as [kept|e'] eqn:M; cbn [bind] in H;
        [discriminate|].
      apply mapM_err_inv in M as (i & Hi & Fi).
      apply kept_axes_In in Hi as [Hi Hm]. exists i. split; [exact Hi|].
      split; [exact Hm|].
      unfold f in Fi. rewrite (subscript_ok 0) in Fi by exact Hi.
      cbn [bind] in Fi.
      destruct (Nat.le_gt_cases (length (TDD.index_order t)) i) as [Le|Gt];
        [exact Le|].
      rewrite (subscript_ok 0) in Fi by exact Gt. discriminate.
    + intros (i & Hi & Hm & Le).
      rewrite (mapM_fails f _ IndexOutOfRange); [reflexivity | |].
      * intros a e _. apply K.
      * exists i. split; [now apply kept_axes_In|].
        unfold f. rewrite (subscript_ok 0) by exact Hi. cbn [bind].
        now rewrite subscript_err.
Qed.

Lemma sorted_keys (key : nat -> nat) (l : list nat) :
  StronglySorted (fun a b => key a <= key b) l ->
  StronglySorted le (map key l).
Proof.
  induction 1 as [|a l S IH F]; cbn [map]; constructor; [assumption|].
  apply Forall_map. exact F.
Qed.

Lemma index_reduce_proc_kept (t : TDD.TDD) (reduced_indices sh o : list nat) :
  TDD.index_reduce_proc t reduced_indices = Ok (sh, o) ->
  sh = map (fun i => nth i (TDD.data_shape t) 0) (kept_axes t reduced_indices) /\
  o = sorted_by (fun k => nth k (kept_order t reduced_indices) 0)
                (seq 0 (length (kept_order t reduced_indices))).
Proof.
  unfold TDD.index_reduce_proc. fold (kept_axes t reduced_indices). intros H.
  apply bind_ok_inv in H as (kept & M & H). apply Ok_inj in H.
  injection H as <- <-.
  apply (mapM_ok_map (fun i => (nth i (TDD.data_shape t) 0,
                                nth i (TDD.index_order t) 0))) in M.
  - subst kept. rewrite !map_map. cbn [fst snd]. split; reflexivity.
  - intros i [s o] _ Fi.
    apply bind_ok_inv in Fi as (s' & Es & Fi).
    apply bind_ok_inv in Fi as (o' & Eo & Fi). apply Ok_inj in Fi.
    injection Fi as <- <-. unfold subscript in Es, Eo.
    destruct (nth_error (TDD.data_shape t) i) as [x|] eqn:Ex; [|discriminate].
    destruct (nth_error (TDD.index_order t) i) as [y|] eqn:Ey; [|discriminate].
    apply Ok_inj in Es, Eo. subst.
    now rewrite (nth_error_nth _ _ 0 Ex), (nth_error_nth _ _ 0 Ey).
Qed.

(** X7.  What [__index_reduce_proc] returns: the entries of [data_shape] at
    the places that are kept, and as the new order the permutation of the
    kept places that reads their entries of [index_order] in increasing
    order. *)
Theorem index_reduce_proc_sorts (t : TDD.TDD) (reduced_indices sh o : list nat) :
  TDD.index_reduce_proc t reduced_indices = Ok (sh, o) ->
  sh = map (fun i => nth i (TDD.data_shape t) 0) (kept_axes t reduced_indices) /\
  Permutation o (seq 0 (length sh)) /\
  StronglySorted le
    (map (fun k => nth k (kept_order t reduced_indices) 0) o).
Proof.
  intros H. apply index_reduce_proc_kept in H as [-> ->].
  split; [reflexivity|]. split.
  - unfold kept_order. rewrite !length_map. apply sorted_by_perm.
  - apply sorted_keys, sorted_by_sorted.
Qed.

Lemma index_reduce_proc_sorts_witness :
  TDD.index_reduce_proc Samples.Da [0] = Ok ([2], [0]) /\
  StronglySorted le (map (fun k => nth k (kept_order Samples.Da [0]) 0) [0]).
Proof.
  split; [reflexivity|].
  apply (index_reduce_proc_sorts Samples.Da [0] [2] [0]). reflexivity.
Defined.

(** ** The default order, and the pairs of [contract] *)

Lemma is_order_seq (n : nat) : is_order (seq 0 n) = true.
Proof. apply is_order_of_perm. now rewrite length_seq. Qed.

Lemma self_inverse_seq (n : nat) : self_inverse (seq 0 n).
Proof.
  intros d Hd. rewrite length_seq in Hd. now rewrite !seq_nth by (rewrite ?seq_nth; lia).
Qed.

Lemma order_inverse_seq (n : nat) : order_inverse (seq 0 n) = seq 0 n.
Proof.
  apply self_inverse_order_inverse; [apply is_order_seq | apply self_inverse_seq].
Qed.

Lemma default_order_valid (t : TDD.TDD) : default_order t -> valid_order t.
Proof.
  intros D. unfold valid_order. rewrite D, length_seq.
  split; [apply is_order_seq | reflexivity].
Qed.

Lemma sorted_by_id (key : nat -> nat) (l : list nat) :
  StronglySorted (fun a b => key a <= key b) l -> sorted_by key l = l.
Proof.
  induction 1 as [|a l S IH F]; [reflexivity|].
  unfold sorted_by in *. cbn [fold_right]. rewrite IH.
  destruct l as [|b l]; [reflexivity|]. cbn [insert_by].
  inversion F as [|? ? Hab _]; subst.
  apply Nat.leb_le in Hab. now rewrite Hab.
Qed.

Lemma increasing_nth (l : list nat) :
  StronglySorted lt l ->
  forall a b, a < b -> b < length l -> nth a l 0 < nth b l 0.
Proof.
  induction 1 as [|x l S IH F]; cbn [length]; intros a b Hab Hb; [lia|].
  destruct b as [|b]; [lia|]. destruct a as [|a]; cbn [nth].
  - rewrite Forall_forall in F. apply F, nth_In. lia.
  - apply IH; lia.
Qed.

Lemma sorted_seq_by (key : nat -> nat) (n a : nat) :
  (forall i j, a <= i -> i < j -> j < a + n -> key i <= key j) ->
  StronglySorted (fun x y => key x <= key y) (seq a n).
Proof.
  revert a. induction n as [|n IH]; intros a H; cbn [seq]; constructor.
  - apply IH. intros i j Hi Hij Hj. apply H; lia.
  - apply Forall_forall. intros j Hj. apply in_seq in Hj. apply H; lia.
Qed.

Lemma increasing_filter (f : nat -> bool) (l : list nat) :
  StronglySorted lt l -> StronglySorted lt (filter f l).
Proof.
  induction 1 as [|x l S IH F]; cbn [filter]; [constructor|].
  destruct (f x); [|assumption]. constructor; [assumption|].
  rewrite Forall_forall in *. intros y Hy. apply filter_In in Hy as [Hy _].
  now apply F.
Qed.

Lemma index_reduce_proc_default (t : TDD.TDD) (reduced_indices : list nat) :
  default_order t ->
  TDD.index_reduce_proc t reduced_indices
  = Ok (shape_without t reduced_indices,
        seq 0 (length (shape_without t reduced_indices))).
Proof.
  intros D. rewrite index_reduce_proc_ok by now apply default_order_valid.
  cbv zeta. unfold shape_without. rewrite !length_map. f_equal. f_equal.
  apply sorted_by_id, sorted_seq_by. intros i j _ Hij Hj. cbn [plus] in Hj.
  assert (K : forall k, k < length (kept_axes t reduced_indices) ->
                nth k (map (fun i0 => nth i0 (TDD.index_order t) 0)
                           (kept_axes t reduced_indices)) 0
                = nth k (kept_axes t reduced_indices) 0).
  { intros k Hk. rewrite nth_map_lt by exact Hk. rewrite D. apply seq_nth.
    assert (I : In (nth k (kept_axes t reduced_indices) 0)
                   (kept_axes t reduced_indices)) by now apply nth_In.
    apply kept_axes_In in I. lia. }
  rewrite !K by lia. apply Nat.lt_le_incl.
  apply increasing_nth; [|lia|lia].
  unfold kept_axes. apply increasing_filter, increasing_seq.
Qed.

Lemma mapM_ok_all {A B : Type} (f : A -> Result B) (l : list A) (bs : list B) :
  mapM f l = Ok bs -> forall a, In a l -> exists b, f a = Ok b.
Proof.
  revert bs. induction l as [|a l IH]; cbn [mapM]; intros bs H x Hx;
    [destruct Hx|].
  apply bind_ok_inv in H as (b & Fa & H).
  apply bind_ok_inv in H as (bs' & M & _).
  destruct Hx as [<-|Hx]; [eauto | exact (IH bs' M x Hx)].
Qed.

Lemma subscript_inv {A : Type} (d : A) (l : list A) (i : nat) (e : Error) (a : A) :
  subscript l i e = Ok a -> i < length l /\ a = nth i l d.
Proof.
  unfold subscript. destruct (nth_error l i) as [x|] eqn:E; [|discriminate].
  intros H. apply Ok_inj in H. subst x. split.
  - apply nth_error_Some. congruence.
  - symmetry. now apply nth_error_nth.
Qed.

Lemma combine_nth_seq (l0 l1 : list nat) :
  length l0 <= length l1 ->
  map (fun k => (nth k l0 0, nth k l1 0)) (seq 0 (length l0)) = combine l0 l1.
Proof.
  revert l1. induction l0 as [|a l0 IH]; intros [|b l1] H; cbn in H;
    try reflexivity; try lia.
  cbn [length seq map combine nth]. f_equal.
  rewrite <- seq_shift, map_map. cbn [nth]. apply IH. lia.
Qed.

Lemma contract_inner_indices (t : TDD.TDD) (l0 l1 : list nat)
    (inner : list (nat * nat)) :
  mapM (fun k =>
          a <- subscript l0 k IndexOutOfRange ;;
          ra <- subscript (order_inverse (TDD.index_order t)) a IndexOutOfRange ;;
          b <- subscript l1 k IndexOutOfRange ;;
          rb <- subscript (order_inverse (TDD.index_order t)) b IndexOutOfRange ;;
          Ok (ra, rb))
       (seq 0 (length l0)) = Ok inner ->
  length l0 <= length l1 /\
  (forall x, In x (paired_axes (l0, l1)) -> x < length (TDD.index_order t)) /\
  flat_map (fun pair : nat * nat => [fst pair; snd pair]) inner
  = storage_positions t (paired_axes (l0, l1)).
Proof.
  set (rev := order_inverse (TDD.index_order t)).
  set (f := fun k : nat => _). intros M.
  assert (F : forall k, k < length l0 ->
                k < length l1 /\ nth k l0 0 < length rev /\
                nth k l1 0 < length rev /\
                f k = Ok (nth (nth k l0 0) rev 0, nth (nth k l1 0) rev 0)).
  { intros k Hk.
    destruct (mapM_ok_all f _ _ M k) as [b Fk]; [apply in_seq; lia|].
    unfold f in Fk |- *.
    apply bind_ok_inv in Fk as (a & Ea & Fk).
    apply bind_ok_inv in Fk as (ra & Era & Fk).
    apply bind_ok_inv in Fk as (b' & Eb & Fk).
    apply bind_ok_inv in Fk as (rb & Erb & Fk).
    rewrite Ea. cbn [bind]. rewrite Era. cbn [bind]. rewrite Eb. cbn [bind].
    rewrite Erb. cbn [bind].
    apply (subscript_inv 0) in Ea as [_ ->].
    apply (subscript_inv 0) in Era as [Ha ->].
    apply (subscript_inv 0) in Eb as [Hb ->].
    apply (subscript_inv 0) in Erb as [Hrb ->]. auto. }
  assert (L : length l0 <= length l1).
  { destruct (Nat.le_gt_cases (length l0) (length l1)) as [L|G]; [exact L|].
    destruct l0 as [|a l0]; [cbn in G; lia|].
    destruct (F (length l1)) as [X _]; [exact G | lia]. }
  split; [exact L|].
  assert (E : inner = map (fun pr : nat * nat =>
                             (nth (fst pr) rev 0, nth (snd pr) rev 0))
                          (combine l0 l1)).
  { rewrite <- (combine_nth_seq l0 l1 L), map_map. cbn [fst snd].
    apply (mapM_ok_map _ f _ _); [|exact M].
    intros k b Hk Fk. apply in_seq in Hk.
    destruct (F k) as (_ & _ & _ & E); [lia|]. congruence. }
  split.
  - intros x Hx. unfold paired_axes in Hx. cbn [fst snd] in Hx.
    apply in_flat_map in Hx as ([a b] & Hab & Hx).
    rewrite <- (combine_nth_seq l0 l1 L) in Hab.
    apply in_map_iff in Hab as (k & Ek & Hk). apply in_seq in Hk.
    injection Ek as <- <-.
    destruct (F k) as (_ & A & B & _); [lia|].
    unfold rev in A, B. rewrite length_order_inverse in A, B.
    cbn [fst snd] in Hx. destruct Hx as [<-|[<-|[]]]; assumption.
  - subst inner. clear M F. unfold storage_positions, paired_axes.
    cbn [fst snd]. fold rev.
    induction (combine l0 l1) as [|[a b] c IH]; [reflexivity|].
    cbn [map flat_map app fst snd]. now rewrite IH.
Qed.

Lemma contract_list_lengths (t : TDD.TDD) (l0 l1 : list nat) :
  (length l0 <= length l1 ->
   TDD.contract t (l0, l1) = TDD.contract t (l0, firstn (length l0) l1)) /\
  (length l1 < length l0 ->
   TDD.contract t (l0, l1) = Err IndexOutOfRange).
Proof.
  split; intros L; unfold TDD.contract; cbn [fst snd].
  - rewrite (mapM_ext
               (fun k =>
                  a <- subscript l0 k IndexOutOfRange ;;
                  ra <- subscript (order_inverse (TDD.index_order t)) a
                                  IndexOutOfRange ;;
                  b <- subscript (firstn (length l0) l1) k IndexOutOfRange ;;
                  rb <- subscript (order_inverse (TDD.index_order t)) b
                                  IndexOutOfRange ;;
                  Ok (ra, rb))); [reflexivity|].
    intros k Hk. apply in_seq in Hk.
    assert (E : subscript (firstn (length l0) l1) k IndexOutOfRange
                = subscript l1 k IndexOutOfRange).
    { unfold subscript. rewrite nth_error_firstn.
      destruct (Nat.ltb_spec k (length l0)); [reflexivity | lia]. }
    now rewrite E.
  - rewrite (mapM_fails _ _ IndexOutOfRange); [reflexivity | |].
    + intros k e _. unfold subscript.
      destruct (nth_error l0 k) as [a|]; cbn [bind]; [|congruence].
      destruct (nth_error _ a) as [ra|]; cbn [bind]; [|congruence].
      destruct (nth_error l1 k) as [b|]; cbn [bind]; [|congruence].
      destruct (nth_error _ b) as [rb|]; cbn [bind]; congruence.
    + exists (length l1). split; [apply in_seq; lia|].
      rewrite (subscript_err l1) by lia.
      destruct (subscript l0 _ _) as [a|]; cbn [bind]; [|reflexivity].
      destruct (subscript _ a _) as [ra|]; reflexivity.
Qed.

Lemma contract_bookkeeping (t r : TDD.TDD) (data_indices : list nat * list nat) :
  TDD.contract t data_indices = Ok r ->
  length (fst data_indices) <= length (snd data_indices) /\
  (forall x, In x (paired_axes data_indices) ->
             x < length (TDD.index_order t)) /\
  TDD.index_reduce_proc t (storage_positions t (paired_axes data_indices))
  = Ok (TDD.data_shape r, TDD.index_order r).
Proof.
  destruct data_indices as [l0 l1]. unfold TDD.contract. cbn [fst snd].
  intros H. apply bind_ok_inv in H as (inner & M & H).
  apply bind_ok_inv in H as ([n w] & _ & H).
  apply bind_ok_inv in H as ([sh o] & R & H). apply Ok_inj in H. subst r.
  cbn [TDD.data_shape TDD.index_order].
  apply contract_inner_indices in M as (L & B & E).
  split; [exact L|]. split; [exact B|]. now rewrite <- E.
Qed.

(** X9.  [contract] does not compare the lengths of its two lists: a
    second list that is longer is cut to the length of the first, one that
    is shorter fails with an [IndexError], and so does a paired axis that is
    no axis of the diagram. *)
Theorem contract_argument_errors (t : TDD.TDD) (l0 l1 : list nat) :
  (length l0 <= length l1 ->
   TDD.contract t (l0, l1) = TDD.contract t (l0, firstn (length l0) l1)) /\
  (length l1 < length l0 ->
   TDD.contract t (l0, l1) = Err IndexOutOfRange) /\
  ((exists x, In x (paired_axes (l0, l1)) /\ length (TDD.index_order t) <= x) ->
   TDD.contract t (l0, l1) = Err IndexOutOfRange).
Proof.
  destruct (contract_list_lengths t l0 l1) as [Cut Short].
  split; [exact Cut|]. split; [exact Short|].
  intros (x & Hx & Out).
  destruct (Nat.le_gt_cases (length l0) (length l1)) as [L|G]; [|now apply Short].
  unfold paired_axes in Hx. cbn [fst snd] in Hx.
  apply in_flat_map in Hx as ([a b] & Hab & Hx).
  rewrite <- (combine_nth_seq l0 l1 L) in Hab.
  apply in_map_iff in Hab as (k & Ek & Hk). injection Ek as <- <-.
  pose proof Hk as Hk'. apply in_seq in Hk'.
  unfold TDD.contract. cbn [fst snd].
  rewrite (mapM_fails _ _ IndexOutOfRange); [reflexivity | |].
  - intros k' e _. unfold subscript.
    destruct (nth_error l0 k') as [a|]; cbn [bind]; [|congruence].
    destruct (nth_error _ a) as [ra|]; cbn [bind]; [|congruence].
    destruct (nth_error l1 k') as [b|]; cbn [bind]; [|congruence].
    destruct (nth_error _ b) as [rb|]; cbn [bind]; congruence.
  - exists k. split; [exact Hk|].
    rewrite (subscript_ok 0 l0) by lia. cbn [bind].
    destruct (subscript (order_inverse _) (nth k l0 0) _) as [ra|] eqn:Ea;
      cbn [bind]; [|reflexivity].
    rewrite (subscript_ok 0 l1) by lia. cbn [bind].
    apply (subscript_inv 0) in Ea as [Ha _].
    rewrite length_order_inverse in Ha.
    cbn [fst snd] in Hx. destruct Hx as [<-|[<-|[]]]; [lia|].
    rewrite subscript_err by now rewrite length_order_inverse.
    reflexivity.
Qed.

Lemma storage_positions_default (t : TDD.TDD) (axes : list nat) :
  default_order t ->
  (forall x, In x axes -> x < length (TDD.index_order t)) ->
  storage_positions t axes = axes.
Proof.
  intros D B. unfold storage_positions. rewrite D, order_inverse_seq.
  rewrite <- (map_id axes) at 2. apply map_ext_in. intros a Ha.
  apply seq_nth. specialize (B a Ha). now rewrite D, length_seq in B.
Qed.

(** X8.  Under the default order the bookkeeping of [index] and [contract]
    is the plain one: the result is under the default order again, and its
    [data_shape] is the one given without the entries of the axes that are
    indexed, or contracted. *)
Theorem default_order_is_kept (t r : TDD.TDD) :
  default_order t ->
  (forall pairs,
      TDD.index t pairs = Ok r ->
      TDD.data_shape r = shape_without t (map fst pairs) /\ default_order r) /\
  (forall data_indices,
      TDD.contract t data_indices = Ok r ->
      TDD.data_shape r = shape_without t (paired_axes data_indices) /\
      default_order r).
Proof.
  intros D. split.
  - intros pairs H. unfold TDD.index in H.
    apply bind_ok_inv in H as (inner & M & H).
    apply bind_ok_inv in H as ([n w] & _ & H).
    apply bind_ok_inv in H as ([sh o] & R & H). apply Ok_inj in H. subst r.
    cbn [TDD.data_shape]. unfold default_order. cbn [TDD.data_shape TDD.index_order].
    assert (E : map fst inner = map fst pairs).
    { apply (mapM_ok_map (fun item : nat * nat => item)) in M.
      - subst inner. now rewrite map_id.
      - intros [p v] b _ Fb. cbn [fst snd] in Fb.
        apply bind_ok_inv in Fb as (rp & Erp & Fb). apply Ok_inj in Fb. subst b.
        apply (subscript_inv 0) in Erp as [Hp ->].
        rewrite D, order_inverse_seq in Hp |- *.
        rewrite length_seq in Hp. now rewrite seq_nth. }
    rewrite E, (index_reduce_proc_default t _ D) in R. apply Ok_inj in R.
    injection R as <- <-. split; reflexivity.
  - intros di H. apply contract_bookkeeping in H as (_ & B & R).
    rewrite (storage_positions_default t _ D B) in R.
    rewrite (index_reduce_proc_default t _ D) in R. apply Ok_inj in R.
    injection R as E1 E2. unfold default_order. rewrite <- E1, <- E2.
    split; reflexivity.
Qed.

Lemma default_order_is_kept_witness :
  exists t r,
    TDD.as_tensor (TDD.OfTensor Samples.T222) = Ok t /\
    TDD.index t [(1, 0)] = Ok r /\
    TDD.data_shape r = shape_without t [1] /\ default_order r.
Proof.
  eexists. eexists. split; [vm_compute; reflexivity|].
  split; [vm_compute; reflexivity|].
  refine (proj1 (default_order_is_kept _ _ _) [(1, 0)] _);
    [reflexivity | vm_compute; reflexivity].
Defined.

Lemma length_paired_axes (l0 l1 : list nat) :
  length l0 <= length l1 -> length (paired_axes (l0, l1)) = 2 * length l0.
Proof.
  intros L. unfold paired_axes. cbn [fst snd].
  assert (E : length (combine l0 l1) = length l0)
    by (rewrite length_combine; lia).
  rewrite <- E. clear E L.
  induction (combine l0 l1) as [|pr c IH]; [reflexivity|].
  cbn [flat_map length app]. rewrite IH. lia.
Qed.

(** X10.  A contraction over pairwise distinct axes of a diagram with its
    bookkeeping in order takes two axes off the data shape for every
    pair. *)
Theorem contract_rank (t r : TDD.TDD) (data_indices : list nat * list nat) :
  valid_order t ->
  NoDup (paired_axes data_indices) ->
  TDD.contract t data_indices = Ok r ->
  length (TDD.data_shape r) + 2 * length (fst data_indices)
  = length (TDD.data_shape t).
Proof.
  intros V ND H. pose proof V as [P L].
  apply contract_bookkeeping in H as (Le & B & R).
  rewrite index_reduce_proc_ok in R by exact V. apply Ok_inj in R.
  injection R as E _. rewrite <- E, length_map.
  destruct data_indices as [l0 l1]. cbn [fst snd] in *.
  rewrite <- (length_paired_axes l0 l1 Le).
  set (axes := paired_axes (l0, l1)) in *.
  destruct (inner_positions_NoDup t (map (fun x => (x, 0)) axes) V) as [N I].
  - intros pr Hpr. apply in_map_iff in Hpr as (x & <- & Hx). cbn [fst].
    rewrite <- L. now apply B.
  - now rewrite map_map, map_id.
  - assert (E' : map fst (inner_indices t (map (fun x => (x, 0)) axes))
                 = storage_positions t axes).
    { unfold inner_indices, storage_positions. rewrite !map_map. reflexivity. }
    rewrite E' in N, I.
    rewrite <- (kept_axes_length t (storage_positions t axes) N I).
    unfold storage_positions. now rewrite length_map.
Qed.

Lemma contract_rank_witness :
  exists t r,
    TDD.as_tensor (TDD.OfTensor Samples.T2222) = Ok t /\
    TDD.contract t ([0], [2]) = Ok r /\
    length (TDD.data_shape r) + 2 * 1 = length (TDD.data_shape t).
Proof.
  eexists. eexists. split; [vm_compute; reflexivity|].
  split; [vm_compute; reflexivity|].
  apply (contract_rank _ _ ([0], [2])).
  - split; vm_compute; reflexivity.
  - repeat constructor; cbn; intuition lia.
  - vm_compute. reflexivity.
Defined.

Lemma is_order_order_inverse (l : list nat) :
  is_order l = true -> is_order (order_inverse l) = true.
Proof.
  intros P. rewrite <- (sorted_by_order_inverse l P).
  apply sorted_positions_order.
Qed.

Lemma order_inverse_involutive (l : list nat) :
  is_order l = true -> order_inverse (order_inverse l) = l.
Proof.
  intros P. pose proof (is_order_order_inverse l P) as P'.
  pose proof (is_order_NoDup _ P) as ND. pose proof (is_order_NoDup _ P') as ND'.
  apply (nth_ext _ _ 0 0); [now rewrite !length_order_inverse|].
  intros j Hj. rewrite !length_order_inverse in Hj.
  rewrite nth_order_inverse by now rewrite length_order_inverse.
  assert (B : nth j l 0 < length l)
    by (apply is_order_bound; [assumption | now apply nth_In]).
  rewrite <- (position_nth l j 0 ND Hj) at 1.
  rewrite <- (nth_order_inverse l (nth j l 0) 0 B).
  apply position_nth; [assumption | now rewrite length_order_inverse].
Qed.

(** X11.  [contract] with two empty lists keeps node, weights and shape and
    returns the order turned around (the given order read through the
    returned one is the identity); applied twice it returns the diagram it
    was given. *)
Theorem contract_nothing_twice (t : TDD.TDD) :
  valid_order t ->
  exists r,
    TDD.contract t ([], []) = Ok r /\
    TDD.node r = TDD.node t /\
    TDD.weights r = TDD.weights t /\
    TDD.data_shape r = TDD.data_shape t /\
    (forall d, d < length (TDD.index_order t) ->
               nth (nth d (TDD.index_order r) 0) (TDD.index_order t) 0 = d) /\
    TDD.contract r ([], []) = Ok t.
Proof.
  intros V. pose proof V as [P L]. eexists.
  split; [apply contract_nothing; exact V|].
  cbn [TDD.node TDD.weights TDD.data_shape TDD.index_order].
  repeat (split; [reflexivity|]). split.
  - intros d Hd. now apply order_inverse_cancel.
  - rewrite contract_nothing.
    + cbn [TDD.node TDD.weights TDD.data_shape TDD.index_order].
      rewrite order_inverse_involutive by exact P. now destruct t.
    + split; cbn [TDD.index_order TDD.data_shape];
        [now apply is_order_order_inverse | now rewrite length_order_inverse].
Qed.

Lemma contract_nothing_twice_witness :
  exists r,
    TDD.contract Samples.Da ([], []) = Ok r /\
    TDD.contract r ([], []) = Ok Samples.Da.
Proof.
  destruct (contract_nothing_twice Samples.Da) as (r & H1 & _ & _ & _ & _ & H2).
  - split; vm_compute; reflexivity.
  - exists r. split; assumption.
Defined.

(** X12.  The renumbering of a pending position in [contract], for a summed
    pair of two different positions, moves every position down by the number
    of removed positions below it, except for the position right above
    [item[1]] when [item[0] < item[1]]: this is the only case it gets
    wrong. *)
Theorem renumber_exact (p q x y : nat) :
  p <> q ->
  (TDD.renumber (p, q) (x, y) = (shift_down (p, q) x, shift_down (p, q) y)
   <-> ~ (p < q /\ (x = S q \/ y = S q))).
Proof.
  intros Npq. split.
  - intros E [Lt Adj].
    assert (A : forall z, z = S q ->
                  (if q <? (if p <? z then z - 1 else z)
                   then (if p <? z then z - 1 else z) - 1
                   else (if p <? z then z - 1 else z))
                  <> shift_down (p, q) z).
    { intros z ->. unfold shift_down. cbn [fst snd].
      destruct (Nat.ltb_spec p (S q)); [|lia].
      destruct (Nat.ltb_spec q (S q - 1)); [lia|].
      destruct (Nat.ltb_spec q (S q)); lia. }
    unfold TDD.renumber in E. cbn [fst snd] in E. injection E as Ex Ey.
    destruct Adj as [Hx|Hy]; [exact (A x Hx Ex) | exact (A y Hy Ey)].
  - intros N. apply renumber_shift_down. intros Le. split; intros ->; apply N; lia.
Qed.

Lemma renumber_exact_witness :
  TDD.renumber (3, 1) (4, 2) = (shift_down (3, 1) 4, shift_down (3, 1) 2) /\
  TDD.renumber (0, 1) (2, 3) <> (shift_down (0, 1) 2, shift_down (0, 1) 3).
Proof.
  split.
  - apply (renumber_exact 3 1 4 2); [lia | intros [H _]; lia].
  - intros E. apply (renumber_exact 0 1 2 3) in E; [|lia].
    apply E. split; [lia | now left].
Defined.

(** ** What [as_tensor] accepts, and what it builds *)

Lemma as_tensor_iterate_empty_axis (data_shape order : list nat) :
  is_order order = true ->
  length order = length data_shape ->
  forall todo depth tensor ps,
    todo + depth = length data_shape ->
    length (shape tensor) = length data_shape ->
    (forall d, depth <= d < length data_shape ->
               nth (nth d order 0) (shape tensor) 0
               = nth (nth d order 0) data_shape 0) ->
    (exists d, depth <= d < length data_shape /\
               nth (nth d order 0) data_shape 0 = 0) ->
    TDD.as_tensor_iterate todo tensor ps data_shape order depth
    = Err BackendFailure.
Proof.
  intros P L. pose proof (is_order_NoDup _ P) as ND.
  induction todo as [|todo IH]; intros depth tensor ps Hn Hlen Hsh (d & Hd & Z);
    [lia|].
  cbn [TDD.as_tensor_iterate].
  assert (D : depth < length order) by lia.
  set (a := nth depth order 0).
  assert (A : a < length data_shape).
  { rewrite <- L. apply is_order_bound; [assumption | now apply nth_In]. }
  rewrite (subscript_ok 0) by exact D. cbn [bind]. fold a.
  unfold split. rewrite Hlen, Nat.sub_diag. cbn [plus].
  rewrite (subscript_ok 0) by (rewrite Hlen; exact A). cbn [bind].
  assert (Hw : nth a (shape tensor) 0 = nth a data_shape 0) by (apply Hsh; lia).
  rewrite Hw.
  rewrite (subscript_ok 0) by exact A. cbn [bind].
  destruct (nth a data_shape 0) as [|w] eqn:W; [reflexivity|].
  cbn [seq map mapM]. unfold subscript at 1. cbn [nth_error bind].
  rewrite IH; [reflexivity | lia | | |].
  - cbn [shape split_chunk]. now rewrite length_set_nth.
  - intros d' Hd'. cbn [shape split_chunk].
    rewrite Hlen, Nat.sub_diag. cbn [plus].
    rewrite nth_set_nth_neq; [apply Hsh; lia|].
    unfold a. apply NoDup_nth_neq; try assumption; lia.
  - exists d. split; [|exact Z].
    assert (d <> depth) by (intros ->; fold a in Z; lia). lia.
Qed.

(** X3.  Under a valid order [as_tensor] fails when the tensor has an empty
    axis (the stack of no successors raises in the tensor library) and
    succeeds when it has none. *)
Theorem as_tensor_needs_nonempty_axes (T : Tensor) (index_order : list nat) :
  is_order (result_index_order (shape T) index_order) = true ->
  length (result_index_order (shape T) index_order) = length (shape T) ->
  (In 0 (shape T) ->
   TDD.as_tensor (TDD.OfTuple T [] index_order) = Err BackendFailure) /\
  (~ In 0 (shape T) ->
   is_ok (TDD.as_tensor (TDD.OfTuple T [] index_order)) = true).
Proof.
  set (order := result_index_order (shape T) index_order).
  intros P L. cbn [TDD.as_tensor]. rewrite as_tensor_of_eq.
  cbn [length skipn]. fold order. rewrite L, Nat.eqb_refl. cbn [negb].
  split.
  - intros Z. apply (In_nth _ _ 0) in Z as (a & Ha & Za).
    rewrite (as_tensor_iterate_empty_axis (shape T) order P L);
      [reflexivity | lia | reflexivity | reflexivity |].
    assert (I : In a order) by (apply is_order_In; [assumption | lia]).
    exists (position a order). split.
    + apply position_lt in I. lia.
    + now rewrite nth_position.
  - intros NZ.
    destruct (as_tensor_iterate_sound (shape T) order P L) with
      (todo := length (shape T) - 0) (depth := 0) (tensor := T)
      (parallel_shape := @nil nat) as (r & E & _);
      [ | lia | reflexivity | reflexivity | lia |].
    + intros s Hs. destruct s; [contradiction | lia].
    + now rewrite E.
Qed.

Lemma as_tensor_needs_nonempty_axes_witness :
  is_ok (TDD.as_tensor (TDD.OfTuple Samples.T22 [] [1; 0])) = true /\
  TDD.as_tensor (TDD.OfTuple empty_axis_sample [] [1; 0])
  = Err BackendFailure.
Proof.
  split.
  - apply (as_tensor_needs_nonempty_axes Samples.T22 [1; 0]);
      [reflexivity | reflexivity | cbn; intuition lia].
  - apply (as_tensor_needs_nonempty_axes empty_axis_sample [1; 0]);
      [reflexivity | reflexivity | cbn; auto].
Defined.

Lemma duplicate_or_NoDup (l : list nat) :
  NoDup l \/
  exists i j, i < j /\ j < length l /\ nth i l 0 = nth j l 0.
Proof.
  induction l as [|x l [ND|(i & j & Hij & Hj & E)]].
  - left. constructor.
  - destruct (in_dec Nat.eq_dec x l) as [I|N].
    + right. apply (In_nth _ _ 0) in I as (k & Hk & Ek).
      exists 0, (S k). cbn [length nth]. repeat split; [lia | lia | now symmetry].
    + left. now constructor.
  - right. exists (S i), (S j). cbn [length nth]. repeat split; [lia | lia | exact E].
Qed.

Lemma not_order_bad (l : list nat) :
  is_order l = false ->
  exists j, j < length l /\
            (length l <= nth j l 0 \/ exists i, i < j /\ nth i l 0 = nth j l 0).
Proof.
  intros N. destruct (duplicate_or_NoDup l) as [ND|(i & j & Hij & Hj & E)];
    [|exists j; split; [exact Hj | right; exists i; now split]].
  destruct (Forall_Exists_dec (fun x => x < length l)
                              (fun x => lt_dec x (length l)) l) as [F|X].
  - exfalso. assert (O : is_order l = true); [|congruence].
    apply is_order_incl.
    apply (NoDup_length_incl ND); [now rewrite length_seq|].
    intros x Hx. rewrite Forall_forall in F. apply in_seq. specialize (F x Hx). lia.
  - apply Exists_exists in X as (x & Hx & Big).
    apply (In_nth _ _ 0) in Hx as (j & Hj & Ej).
    exists j. split; [exact Hj|]. left. lia.
Qed.

Lemma earlier_dec (l : list nat) (depth a : nat) :
  {exists i, i < depth /\ nth i l 0 = a}
  + {forall i, i < depth -> nth i l 0 <> a}.
Proof.
  induction depth as [|depth [Y|N]].
  - right. intros i Hi. lia.
  - left. destruct Y as (i & Hi & E). exists i. split; [lia | exact E].
  - destruct (Nat.eq_dec (nth depth l 0) a) as [E|NE].
    + left. exists depth. split; [lia | exact E].
    + right. intros i Hi. destruct (Nat.eq_dec i depth) as [->|Ni];
        [exact NE | apply N; lia].
Qed.

Lemma mapM_head_fails {A B : Type} (f : A -> Result B) (a : A) (l : list A) :
  is_ok (f a) = false -> is_ok (mapM f (a :: l)) = false.
Proof. cbn [mapM]. destruct (f a); [discriminate | reflexivity]. Qed.

Lemma as_tensor_iterate_bad_order (data_shape order : list nat) :
  length order = length data_shape ->
  (forall s, In s data_shape -> 2 <= s) ->
  forall todo depth tensor ps,
    todo + depth = length data_shape ->
    length (shape tensor) = length data_shape ->
    (forall a, a < length data_shape ->
               (exists i, i < depth /\ nth i order 0 = a) ->
               nth a (shape tensor) 0 = 1) ->
    (forall a, a < length data_shape ->
               (forall i, i < depth -> nth i order 0 <> a) ->
               nth a (shape tensor) 0 = nth a data_shape 0) ->
    (exists j, depth <= j < length order /\
               (length order <= nth j order 0 \/
                exists i, i < j /\ nth i order 0 = nth j order 0)) ->
    is_ok (TDD.as_tensor_iterate todo tensor ps data_shape order depth) = false.
Proof.
  intros L Big.
  induction todo as [|todo IH];
    intros depth tensor ps Hn Hlen Hone Hsame (j & Hj & Bad); [lia|].
  cbn [TDD.as_tensor_iterate].
  assert (D : depth < length order) by lia.
  set (a := nth depth order 0).
  rewrite (subscript_ok 0) by exact D. cbn [bind]. fold a.
  unfold split. rewrite Hlen, Nat.sub_diag. cbn [plus].
  destruct (Nat.le_gt_cases (length data_shape) a) as [Out|A].
  { rewrite subscript_err by (rewrite Hlen; exact Out). reflexivity. }
  rewrite (subscript_ok 0) by (rewrite Hlen; exact A). cbn [bind].
  rewrite (subscript_ok 0) by exact A. cbn [bind].
  assert (W : 2 <= nth a data_shape 0) by (apply Big, nth_In; exact A).
  destruct (nth a data_shape 0) as [|[|w]] eqn:Ew; [lia | lia |].
  destruct (earlier_dec order depth a) as [Seen|Fresh].
  - (* the axis was split before: it has one place left *)
    rewrite (Hone a A Seen). cbn [seq map mapM].
    unfold subscript at 1. cbn [nth_error bind].
    destruct (TDD.as_tensor_iterate todo _ ps data_shape order (S depth));
      reflexivity.
  - rewrite (Hsame a A Fresh), Ew. cbn [bind].
    assert (Later : depth < j).
    { destruct (Nat.eq_dec j depth) as [->|Nj]; [|lia]. exfalso.
      fold a in Bad. destruct Bad as [Out|(i & Hi & E)]; [lia|].
      exact (Fresh i Hi E). }
    match goal with
    | |- is_ok (bind ?m _) = false =>
        assert (M : is_ok m = false); [|destruct m; [discriminate | reflexivity]]
    end.
    cbn [seq]. apply mapM_head_fails.
    cbn [map]. unfold subscript at 1. cbn [nth_error bind].
    apply IH; [lia | | | |].
    + cbn [shape split_chunk]. now rewrite length_set_nth.
    + intros a' Ha' (i & Hi & E). cbn [shape split_chunk].
      rewrite Hlen, Nat.sub_diag. cbn [plus].
      destruct (Nat.eq_dec a' a) as [->|Na].
      * apply nth_set_nth_eq. now rewrite Hlen.
      * rewrite nth_set_nth_neq by congruence. apply Hone; [exact Ha'|].
        exists i. split; [|exact E].
        destruct (Nat.eq_dec i depth) as [->|Ni]; [|lia].
        exfalso. apply Na. now rewrite <- E.
    + intros a' Ha' F. cbn [shape split_chunk].
      rewrite Hlen, Nat.sub_diag. cbn [plus].
      assert (Na : a <> a') by (apply F; lia).
      rewrite nth_set_nth_neq by exact Na. apply Hsame; [exact Ha'|].
      intros i Hi. apply F. lia.
    + exists j. split; [lia | exact Bad].
Qed.

(** X4.  [as_tensor] never examines whether the order is a permutation, yet
    on a tensor whose axes all have two places or more, and for an order of
    the right length, it succeeds exactly when the order is one: on an entry
    that is no axis, or on an axis met a second time, a subscript
    raises. *)
Theorem as_tensor_checks_order (T : Tensor) (index_order : list nat) :
  (forall s, In s (shape T) -> 2 <= s) ->
  length (result_index_order (shape T) index_order) = length (shape T) ->
  is_ok (TDD.as_tensor (TDD.OfTuple T [] index_order))
  = is_order (result_index_order (shape T) index_order).
Proof.
  set (order := result_index_order (shape T) index_order).
  intros Big L. cbn [TDD.as_tensor]. rewrite as_tensor_of_eq.
  cbn [length skipn]. fold order. rewrite L, Nat.eqb_refl. cbn [negb].
  destruct (is_order order) eqn:P.
  - destruct (as_tensor_iterate_sound (shape T) order P L) with
      (todo := length (shape T) - 0) (depth := 0) (tensor := T)
      (parallel_shape := @nil nat) as (r & E & _);
      [ | lia | reflexivity | reflexivity | lia |].
    + intros s Hs. specialize (Big s Hs). lia.
    + now rewrite E.
  - match goal with
    | |- is_ok (bind ?m _) = false =>
        assert (M : is_ok m = false); [|destruct m; [discriminate | reflexivity]]
    end.
    apply (as_tensor_iterate_bad_order (shape T) order L Big);
      [lia | reflexivity | | |].
    + intros a _ (i & Hi & _). lia.
    + reflexivity.
    + apply not_order_bad in P as (j & Hj & Bad). exists j. split; [lia | exact Bad].
Qed.

Lemma as_tensor_checks_order_witness :
  is_ok (TDD.as_tensor (TDD.OfTuple Samples.T22 [] [0; 0])) = false /\
  is_ok (TDD.as_tensor (TDD.OfTuple Samples.T22 [] [1; 0])) = true.
Proof.
  split.
  - rewrite (as_tensor_checks_order Samples.T22 [0; 0]);
      [reflexivity | cbn; intuition lia | reflexivity].
  - rewrite (as_tensor_checks_order Samples.T22 [1; 0]);
      [reflexivity | cbn; intuition lia | reflexivity].
Defined.

Lemma scatter_gather (order idx : list nat) :
  is_order order = true -> length idx = length order ->
  scatter order (length order) 0 (gather order idx) = idx.
Proof.
  intros P Li. pose proof (is_order_NoDup _ P) as ND.
  set (n := length order).
  assert (B : forall d, d < n -> nth d order 0 < n).
  { intros d Hd. apply is_order_bound; [assumption | now apply nth_In]. }
  apply (nth_ext _ _ 0 0).
  - rewrite (length_scatter order n _ n 0) by lia. now symmetry.
  - intros a Ha. rewrite (length_scatter order n _ n 0) in Ha by lia.
    assert (I : In a order) by now apply is_order_In.
    rewrite <- (nth_position a order 0 I) at 1.
    pose proof (position_lt a order I) as Hp. fold n in Hp.
    rewrite (scatter_nth order n _ ND eq_refl B n 0 (position a order))
      by lia.
    unfold gather. rewrite nth_map_lt by exact Hp.
    now rewrite nth_position.
Qed.

(** X1.  The diagram [as_tensor] builds under a valid order holds the axis
    [order[d]] of the tensor at depth [d]: it carries the shape and the
    order, its nodes fit the extents of the axes in that order, and its value
    along the branches [idx[order[0]], idx[order[1]], ..] is the entry of the
    tensor at [idx]. *)
Theorem as_tensor_stores_axes_by_order (T : Tensor) (index_order : list nat) :
  (forall s, In s (shape T) -> 0 < s) ->
  is_order (result_index_order (shape T) index_order) = true ->
  length (result_index_order (shape T) index_order) = length (shape T) ->
  exists t,
    TDD.as_tensor (TDD.OfTuple T [] index_order) = Ok t /\
    TDD.data_shape t = shape T /\
    TDD.index_order t = result_index_order (shape T) index_order /\
    wf_node (split_shape (shape T) (TDD.index_order t)) 0 (TDD.node t) = true /\
    forall idx, in_range idx (shape T) ->
                eval (TDD.node t, TDD.weights t)
                     (gather (TDD.index_order t) idx)
                = entry T idx.
Proof.
  set (order := result_index_order (shape T) index_order).
  intros Pos P L.
  cbn [TDD.as_tensor]. rewrite as_tensor_of_eq. cbn [length skipn].
  fold order. rewrite L, Nat.eqb_refl. cbn [negb].
  destruct (as_tensor_iterate_sound (shape T) order P L Pos
              (length (shape T) - 0) 0 T [])
    as (r & E & W & V); [lia | reflexivity | reflexivity | lia |].
  rewrite E. cbn [bind]. eexists. split; [reflexivity|].
  cbn [TDD.data_shape TDD.index_order TDD.node TDD.weights].
  split; [reflexivity|]. split; [reflexivity|]. split; [exact W|].
  intros idx R. apply in_range_nth in R as [Li R].
  rewrite V.
  - rewrite <- L. now rewrite scatter_gather by congruence.
  - intros d s Hd. unfold split_shape in Hd.
    apply nth_error_map_inv in Hd as (a & Ha & ->).
    assert (D : d < length order) by (apply nth_error_Some; congruence).
    apply (nth_error_nth _ _ 0) in Ha. subst a.
    unfold gather. rewrite nth_map_lt by exact D.
    apply R. rewrite <- L. apply is_order_bound; [assumption | now apply nth_In].
Qed.

Lemma as_tensor_stores_axes_by_order_witness :
  exists t,
    TDD.as_tensor (TDD.OfTuple Samples.T222 [] [1; 2; 0]) = Ok t /\
    eval (TDD.node t, TDD.weights t) (gather [1; 2; 0] [0; 1; 0])
    = entry Samples.T222 [0; 1; 0].
Proof.
  destruct (as_tensor_stores_axes_by_order Samples.T222 [1; 2; 0])
    as (t & A & _ & O & _ & V).
  - cbn. intuition lia.
  - reflexivity.
  - reflexivity.
  - exists t. split; [exact A|]. rewrite <- (V [0; 1; 0]).
    + now rewrite O.
    + cbn. lia.
Defined.

(** X2.  For an order that is its own inverse (the default order, a swap, a
    reversal) the round trip holds: [CUDAcpl], and so [numpy], of the diagram
    [as_tensor] builds is the tensor, entry by entry. *)
Theorem as_tensor_CUDAcpl_round_trip (T : Tensor) (index_order : list nat) :
  (forall s, In s (shape T) -> 0 < s) ->
  is_order (result_index_order (shape T) index_order) = true ->
  length (result_index_order (shape T) index_order) = length (shape T) ->
  self_inverse (result_index_order (shape T) index_order) ->
  exists t dense,
    TDD.as_tensor (TDD.OfTuple T [] index_order) = Ok t /\
    TDD.CUDAcpl t = Ok dense /\
    TDD.numpy t = Ok dense /\
    tensor_equal dense T.
Proof.
  intros Pos P L S.
  destruct (roundtrip_self_inverse_order T index_order Pos P L S)
    as (t & dense & A & _ & _ & _ & C & E).
  exists t, dense. unfold TDD.numpy. repeat split; assumption || apply E.
Qed.

Lemma as_tensor_CUDAcpl_round_trip_witness :
  exists t dense,
    TDD.as_tensor (TDD.OfTuple Samples.T222 [] [2; 1; 0]) = Ok t /\
    TDD.CUDAcpl t = Ok dense /\
    TDD.numpy t = Ok dense /\
    tensor_equal dense Samples.T222.
Proof.
  apply (as_tensor_CUDAcpl_round_trip Samples.T222 [2; 1; 0]).
  - cbn. intuition lia.
  - reflexivity.
  - reflexivity.
  - intros d Hd. cbn in Hd.
    destruct d as [|[|[|d]]]; cbn; [reflexivity | reflexivity | reflexivity | lia].
Defined.

(** ** What [index], [contract] and [sum] compute under the default order *)

Lemma nth_fixed_index (pairs : list (nat * nat)) (n : nat) (j : list nat)
    (d : nat) :
  d < n ->
  nth d (fixed_index pairs n j) 0
  = match weighted_node.requested d pairs with
    | Some v => v
    | None => nth (d - weighted_node.fixed_below d pairs) j 0
    end.
Proof.
  intros H. unfold fixed_index.
  rewrite nth_map_lt by now rewrite length_seq.
  now rewrite seq_nth.
Qed.

Lemma mapM_Forall2 {A B : Type} (f : A -> Result B) (l : list A) (bs : list B) :
  mapM f l = Ok bs -> Forall2 (fun a b => f a = Ok b) l bs.
Proof.
  revert bs. induction l as [|a l IH]; cbn [mapM]; intros bs H.
  - apply Ok_inj in H. subst. constructor.
  - apply bind_ok_inv in H as (b & Fa & H).
    apply bind_ok_inv in H as (bs' & M & H). apply Ok_inj in H. subst bs.
    constructor; [exact Fa | now apply IH].
Qed.

Lemma index_node_sound (sh : list nat) (pairs : list (nat * nat))
    (j : list nat) :
  (forall d s, nth_error sh d = Some s ->
               weighted_node.requested d pairs = None ->
               nth (d - weighted_node.fixed_below d pairs) j 0 < s) ->
  forall n lo w x,
    wf_node sh lo n = true ->
    weighted_node.index_node n w pairs = Ok x ->
    eval x j = (w * eval_node n (fixed_index pairs (length sh) j))%Z.
Proof.
  intros Fit. induction n as [|d succ IH] using Node_induction;
    intros lo w x W H.
  - cbn in H. apply Ok_inj in H. subst x. unfold eval. cbn. ring.
  - apply wf_node_branch in W as (Lo & Sd & Wc).
    assert (D : d < length sh) by (apply nth_error_Some; congruence).
    rewrite index_node_branch in H. rewrite eval_node_branch.
    rewrite nth_fixed_index by exact D.
    destruct (weighted_node.requested d pairs) as [v|] eqn:R.
    + destruct (nth_error succ v) as [e|] eqn:E; [|discriminate].
      rewrite Forall_forall in IH, Wc.
      pose proof (nth_error_In _ _ E) as I.
      rewrite (IH e I (S d) _ x (Wc e I) H). ring.
    + apply bind_ok_inv in H as (succ' & M & H). apply Ok_inj in H. subst x.
      apply mapM_Forall2 in M. apply Forall2_nth_error in M as [Ls M].
      unfold WeightedNode in *.
      set (k := nth (d - weighted_node.fixed_below d pairs) j 0).
      assert (K : k < length succ) by (apply (Fit d); assumption).
      rewrite normalize_sound by (rewrite Ls; exact K).
      unfold eval. cbn [fst snd]. rewrite eval_node_branch. fold k.
      destruct (nth_error succ' k) as [e'|] eqn:E'.
      2:{ apply nth_error_None in E'. lia. }
      destruct (M k e' E') as (e & E & Fe). rewrite E.
      rewrite Forall_forall in IH, Wc.
      pose proof (nth_error_In _ _ E) as I.
      pose proof (IH e I (S d) _ e' (Wc e I) Fe) as V.
      unfold eval in V. rewrite V. ring.
Qed.

Lemma requested_None (d : nat) (pairs : list (nat * nat)) :
  weighted_node.requested d pairs = None <-> mem d (map fst pairs) = false.
Proof.
  induction pairs as [|[p v] r IH]; cbn; [tauto|].
  rewrite (Nat.eqb_sym d p). destruct (p =? d); cbn; [split; discriminate | exact IH].
Qed.

Lemma fixed_below_count (pairs : list (nat * nat)) (d : nat) :
  length (filter (fun i => mem i (map fst pairs)) (seq 0 d))
  = weighted_node.fixed_below d pairs.
Proof.
  unfold weighted_node.fixed_below.
  apply Permutation_length, NoDup_Permutation;
    [apply NoDup_filter, seq_NoDup | apply NoDup_filter, NoDup_nodup |].
  intros x. rewrite !filter_In, in_seq, mem_In, nodup_In, Nat.ltb_lt.
  split; intros [H1 H2]; split; first [assumption | lia].
Qed.

Lemma kept_axes_nth (t : TDD.TDD) (pairs : list (nat * nat)) (d : nat) :
  d < length (TDD.data_shape t) ->
  mem d (map fst pairs) = false ->
  d - weighted_node.fixed_below d pairs < length (kept_axes t (map fst pairs)) /\
  nth (d - weighted_node.fixed_below d pairs) (kept_axes t (map fst pairs)) 0 = d.
Proof.
  intros Hd Hm. unfold kept_axes.
  set (g := fun i => negb (mem i (map fst pairs))).
  replace (length (TDD.data_shape t))
    with (d + S (length (TDD.data_shape t) - S d)) by lia.
  rewrite seq_app, filter_app. cbn [plus seq filter].
  replace (g d) with true by (unfold g; now rewrite Hm).
  assert (E : length (filter g (seq 0 d)) = d - weighted_node.fixed_below d pairs).
  { pose proof (filter_length (fun i => mem i (map fst pairs)) (seq 0 d)) as F.
    rewrite length_seq, fixed_below_count in F. fold g in F. lia. }
  rewrite <- E. split.
  - rewrite length_app. cbn [length]. lia.
  - apply nth_middle.
Qed.

Lemma storage_index_default (idx : list nat) :
  storage_index (seq 0 (length idx)) idx = idx.
Proof.
  unfold storage_index. rewrite length_seq.
  etransitivity; [|apply (map_nth_seq idx)]. apply map_ext_in. intros d Hd.
  apply in_seq in Hd. f_equal.
  rewrite <- (seq_nth 0 0 (proj2 Hd)) at 1.
  rewrite position_nth; [reflexivity | apply seq_NoDup | now rewrite length_seq].
Qed.

Lemma storage_shape_default (t : TDD.TDD) :
  default_order t -> storage_shape t = TDD.data_shape t.
Proof.
  intros D. unfold storage_shape. rewrite D, order_inverse_seq.
  apply map_nth_seq.
Qed.

Lemma CUDAcpl_default (t : TDD.TDD) :
  default_order t ->
  exists dense,
    TDD.CUDAcpl t = Ok dense /\
    shape dense = TDD.data_shape t /\
    forall idx, length idx = length (TDD.data_shape t) ->
                entry dense idx = eval (TDD.node t, TDD.weights t) idx.
Proof.
  intros D. pose proof (default_order_valid t D) as V.
  rewrite (CUDAcpl_ok t V). eexists. split; [reflexivity|].
  cbn [shape entry]. split; [now apply materialized_shape|].
  intros idx L. rewrite D, <- L. now rewrite storage_index_default.
Qed.

Lemma index_default (t : TDD.TDD) (pairs : list (nat * nat)) :
  default_order t ->
  (forall pr, In pr pairs -> fst pr < length (TDD.data_shape t)) ->
  TDD.index t pairs
  = (e <- weighted_node.index (TDD.node t, TDD.weights t) pairs ;;
     Ok (TDD.mkTDD (snd e) (shape_without t (map fst pairs)) (fst e)
                   (seq 0 (length (shape_without t (map fst pairs)))))).
Proof.
  intros D B. unfold TDD.index.
  rewrite (mapM_ok (fun item : nat * nat => item)).
  - rewrite map_id. cbn [bind].
    destruct (weighted_node.index _ pairs) as [[n w]|e];
      cbn [bind fst snd]; [|reflexivity].
    now rewrite (index_reduce_proc_default t _ D).
  - intros [p v] Hp. cbn [fst snd]. specialize (B _ Hp). cbn [fst] in B.
    rewrite D, order_inverse_seq.
    rewrite (subscript_ok 0) by now rewrite length_seq.
    now rewrite seq_nth.
Qed.

Lemma length_fixed_index (pairs : list (nat * nat)) (n : nat) (j : list nat) :
  length (fixed_index pairs n j) = n.
Proof. unfold fixed_index. now rewrite length_map, length_seq. Qed.

Lemma in_range_fits (idx sh : list nat) : in_range idx sh -> fits idx sh.
Proof.
  intros R. apply in_range_nth in R as [_ R]. intros d s Hs.
  rewrite <- (nth_error_nth _ _ 0 Hs). apply R.
  apply nth_error_Some. congruence.
Qed.

Lemma fixed_below_one (d p u : nat) :
  weighted_node.fixed_below d [(p, u)] = if p <? d then 1 else 0.
Proof.
  unfold weighted_node.fixed_below. cbn [map fst nodup].
  destruct (in_dec Nat.eq_dec p []) as [[]|_]. cbn [filter].
  destruct (p <? d); reflexivity.
Qed.

Lemma fixed_below_two (d p q u v : nat) :
  p <> q ->
  weighted_node.fixed_below d [(p, u); (q, v)]
  = (if p <? d then 1 else 0) + (if q <? d then 1 else 0).
Proof.
  intros N. unfold weighted_node.fixed_below. cbn [map fst nodup].
  destruct (in_dec Nat.eq_dec p [q]) as [[E|[]]|_]; [congruence|].
  destruct (in_dec Nat.eq_dec q []) as [[]|_].
  cbn [filter]. destruct (p <? d), (q <? d); reflexivity.
Qed.

(** With one position fixed, the index is the given one with the value put
    in at the position. *)
Lemma fixed_index_one (p v n : nat) (idx : list nat) :
  p < n -> length idx = n - 1 ->
  fixed_index [(p, v)] n idx = firstn p idx ++ v :: skipn p idx.
Proof.
  intros Hp L.
  assert (Lf : length (firstn p idx) = p) by (rewrite length_firstn; lia).
  apply (nth_ext _ _ 0 0).
  - rewrite length_fixed_index, length_app, Lf. cbn [length].
    rewrite length_skipn. lia.
  - intros d Hd. rewrite length_fixed_index in Hd.
    rewrite nth_fixed_index by exact Hd. cbn [weighted_node.requested].
    rewrite fixed_below_one.
    destruct (Nat.eqb_spec p d) as [->|N].
    + rewrite app_nth2 by lia. now rewrite Lf, Nat.sub_diag.
    + destruct (Nat.ltb_spec p d) as [Lt|Ge].
      * rewrite app_nth2 by lia. rewrite Lf.
        replace (d - p) with (S (d - 1 - p)) by lia. cbn [nth].
        rewrite nth_skipn. f_equal. lia.
      * rewrite app_nth1 by lia. rewrite nth_firstn.
        destruct (Nat.ltb_spec d p); [f_equal; lia | lia].
Qed.

Lemma in_range_unfixed (t : TDD.TDD) (pairs : list (nat * nat))
    (idx : list nat) :
  in_range idx (shape_without t (map fst pairs)) ->
  forall d s, nth_error (TDD.data_shape t) d = Some s ->
              weighted_node.requested d pairs = None ->
              nth (d - weighted_node.fixed_below d pairs) idx 0 < s.
Proof.
  intros R d s Hs Rq. apply in_range_nth in R as [_ R].
  assert (Hd : d < length (TDD.data_shape t))
    by (apply nth_error_Some; congruence).
  apply requested_None in Rq.
  destruct (kept_axes_nth t pairs d Hd Rq) as [Hm Em].
  specialize (R (d - weighted_node.fixed_below d pairs)).
  unfold shape_without in R. rewrite length_map in R. specialize (R Hm).
  rewrite nth_map_lt in R by exact Hm. rewrite Em in R.
  now rewrite (nth_error_nth _ _ 0 Hs) in R.
Qed.

Lemma fixed_index_in_range (t : TDD.TDD) (pairs : list (nat * nat))
    (idx : list nat) :
  (forall d v, weighted_node.requested d pairs = Some v ->
               v < nth d (TDD.data_shape t) 0) ->
  in_range idx (shape_without t (map fst pairs)) ->
  in_range (fixed_index pairs (length (TDD.data_shape t)) idx)
           (TDD.data_shape t).
Proof.
  intros Req R. apply in_range_intro; [apply length_fixed_index|].
  intros d Hd. rewrite nth_fixed_index by exact Hd.
  destruct (weighted_node.requested d pairs) as [v|] eqn:Rq; [now apply Req|].
  apply (in_range_unfixed t pairs idx R d); [|exact Rq].
  now apply nth_error_nth'.
Qed.

Lemma index_slices (t : TDD.TDD) (pairs : list (nat * nat)) :
  default_order t ->
  wf_node (TDD.data_shape t) 0 (TDD.node t) = true ->
  (forall pr, In pr pairs -> snd pr < nth (fst pr) (TDD.data_shape t) 0) ->
  exists r dt dr,
    TDD.index t pairs = Ok r /\
    default_order r /\
    TDD.CUDAcpl t = Ok dt /\
    TDD.CUDAcpl r = Ok dr /\
    shape dr = shape_without t (map fst pairs) /\
    forall idx,
      in_range idx (shape dr) ->
      in_range (fixed_index pairs (length (TDD.data_shape t)) idx) (shape dt) /\
      entry dr idx
      = entry dt (fixed_index pairs (length (TDD.data_shape t)) idx).
Proof.
  intros D W Val.
  set (n := length (TDD.data_shape t)).
  assert (B : forall pr, In pr pairs -> fst pr < n).
  { intros pr Hpr. specialize (Val pr Hpr).
    destruct (Nat.lt_ge_cases (fst pr) n) as [Lt|Ge]; [exact Lt|].
    rewrite nth_overflow in Val by exact Ge. lia. }
  assert (Req : forall d v, weighted_node.requested d pairs = Some v ->
                            v < nth d (TDD.data_shape t) 0).
  { intros d v R. apply requested_In in R. exact (Val _ R). }
  rewrite (index_default t pairs D B). unfold weighted_node.index.
  cbn [fst snd].
  pose proof (index_node_ok_wf (TDD.data_shape t) pairs Req (TDD.node t) 0
                               (TDD.weights t) W) as O.
  destruct (weighted_node.index_node (TDD.node t) (TDD.weights t) pairs)
    as [[n' w']|e] eqn:E; [clear O | discriminate]. cbn [bind fst snd].
  set (shw := shape_without t (map fst pairs)).
  set (r := TDD.mkTDD w' shw n' (seq 0 (length shw))).
  assert (Dr : default_order r) by reflexivity.
  destruct (CUDAcpl_default t D) as (dt & Ct & St & Et).
  destruct (CUDAcpl_default r Dr) as (dr & Cr & Sr & Er).
  exists r, dt, dr. repeat (split; [assumption || reflexivity|]).
  rewrite Sr, St. cbn [TDD.data_shape r]. intros idx R.
  pose proof (proj1 (in_range_nth _ _ R)) as Li. split.
  - now apply fixed_index_in_range.
  - rewrite Er by exact Li. rewrite Et by apply length_fixed_index.
    cbn [TDD.node TDD.weights r].
    rewrite (index_node_sound (TDD.data_shape t) pairs idx
                              (in_range_unfixed t pairs idx R)
                              (TDD.node t) 0 (TDD.weights t) (n', w') W E).
    reflexivity.
Qed.

(** How many positions below [d] stay when the positions of [pairs] are
    fixed. *)
Lemma unfixed_count (pairs : list (nat * nat)) (d : nat) :
  d - weighted_node.fixed_below d pairs
  = length (filter (fun i => negb (mem i (map fst pairs))) (seq 0 d)).
Proof.
  pose proof (filter_length (fun i => mem i (map fst pairs)) (seq 0 d)) as F.
  rewrite length_seq, fixed_below_count in F. lia.
Qed.

Lemma unfixed_step (pairs : list (nat * nat)) (d : nat) :
  S d - weighted_node.fixed_below (S d) pairs
  = d - weighted_node.fixed_below d pairs
    + (if mem d (map fst pairs) then 0 else 1).
Proof.
  rewrite !unfixed_count, seq_S, filter_app, length_app. cbn [plus filter].
  destruct (mem d (map fst pairs)); reflexivity.
Qed.

Lemma unfixed_mono (pairs : list (nat * nat)) (a b : nat) :
  a <= b ->
  a - weighted_node.fixed_below a pairs <= b - weighted_node.fixed_below b pairs.
Proof.
  induction 1 as [|b _ IH]; [lia|]. rewrite unfixed_step. lia.
Qed.

Lemma index_node_wf (t : TDD.TDD) (pairs : list (nat * nat)) :
  forall n lo w x,
    wf_node (TDD.data_shape t) lo n = true ->
    weighted_node.index_node n w pairs = Ok x ->
    wf_node (shape_without t (map fst pairs))
            (lo - weighted_node.fixed_below lo pairs) (fst x) = true.
Proof.
  induction n as [|d succ IH] using Node_induction; intros lo w x W H.
  - cbn in H. apply Ok_inj in H. now subst x.
  - apply wf_node_branch in W as (Lo & Sd & Wc).
    assert (D : d < length (TDD.data_shape t))
      by (apply nth_error_Some; congruence).
    rewrite index_node_branch in H.
    rewrite Forall_forall in IH, Wc.
    destruct (weighted_node.requested d pairs) as [v|] eqn:R.
    + destruct (nth_error succ v) as [e|] eqn:E; [|discriminate].
      pose proof (nth_error_In _ _ E) as I.
      apply (wf_node_weaken _ _ (S d - weighted_node.fixed_below (S d) pairs));
        [apply unfixed_mono; lia|].
      exact (IH e I (S d) _ x (Wc e I) H).
    + apply bind_ok_inv in H as (succ' & M & H). apply Ok_inj in H. subst x.
      apply mapM_Forall2 in M. apply Forall2_nth_error in M as [Ls M].
      unfold WeightedNode in *.
      apply requested_None in R.
      destruct (kept_axes_nth t pairs d D R) as [Hm Em].
      apply normalize_wf, wf_node_branch.
      split; [apply unfixed_mono; exact Lo|]. split.
      * unfold shape_without. rewrite nth_error_map.
        rewrite (nth_error_nth' _ 0 Hm), Em. cbn [option_map].
        rewrite Ls. f_equal. now apply nth_error_nth.
      * apply Forall_forall. intros e' He'.
        apply In_nth_error in He' as [k Hk].
        destruct (M k e' Hk) as (e & E & Fe).
        pose proof (nth_error_In _ _ E) as I.
        pose proof (IH e I (S d) _ e' (Wc e I) Fe) as We.
        rewrite unfixed_step, R in We.
        replace (d - weighted_node.fixed_below d pairs + 1)
          with (S (d - weighted_node.fixed_below d pairs)) in We by lia.
        exact We.
Qed.

Lemma slice_sound (t : TDD.TDD) (i j v : nat) :
  wf_node (TDD.data_shape t) 0 (TDD.node t) = true ->
  v < nth i (TDD.data_shape t) 0 -> v < nth j (TDD.data_shape t) 0 ->
  exists x,
    weighted_node.index (TDD.node t, TDD.weights t) [(i, v); (j, v)] = Ok x /\
    wf_node (shape_without t [i; j]) 0 (fst x) = true /\
    forall idx,
      in_range idx (shape_without t [i; j]) ->
      eval x idx
      = eval (TDD.node t, TDD.weights t)
             (fixed_index [(i, v); (j, v)] (length (TDD.data_shape t)) idx).
Proof.
  intros W Vi Vj. unfold weighted_node.index. cbn [fst snd].
  assert (Req : forall d u,
             weighted_node.requested d [(i, v); (j, v)] = Some u ->
             u < nth d (TDD.data_shape t) 0).
  { intros d u R. apply requested_In in R.
    destruct R as [R|[R|[]]]; injection R as <- <-; assumption. }
  pose proof (index_node_ok_wf (TDD.data_shape t) _ Req (TDD.node t) 0
                               (TDD.weights t) W) as O.
  destruct (weighted_node.index_node (TDD.node t) (TDD.weights t) _)
    as [x|e] eqn:E; [clear O | discriminate].
  exists x. split; [reflexivity|]. split.
  - exact (index_node_wf t [(i, v); (j, v)] (TDD.node t) 0 _ x W E).
  - intros idx R.
    exact (index_node_sound (TDD.data_shape t) [(i, v); (j, v)] idx
             (in_range_unfixed t [(i, v); (j, v)] idx R)
             (TDD.node t) 0 (TDD.weights t) x W E).
Qed.

Lemma contract_sum_sound (t : TDD.TDD) (i j : nat) :
  wf_node (TDD.data_shape t) 0 (TDD.node t) = true ->
  forall values summed,
    (forall v, In v values ->
               v < nth i (TDD.data_shape t) 0 /\
               v < nth j (TDD.data_shape t) 0) ->
    wf_node (shape_without t [i; j]) 0 (fst summed) = true ->
    exists x,
      TDD.contract_sum (TDD.node t, TDD.weights t) (i, j) values summed = Ok x /\
      wf_node (shape_without t [i; j]) 0 (fst x) = true /\
      forall idx,
        in_range idx (shape_without t [i; j]) ->
        eval x idx
        = (eval summed idx
           + sum_over values
               (fun v => eval (TDD.node t, TDD.weights t)
                              (fixed_index [(i, v); (j, v)]
                                           (length (TDD.data_shape t)) idx)))%Z.
Proof.
  intros W. induction values as [|v values IH]; intros summed Val Ws.
  - exists summed. split; [reflexivity|]. split; [exact Ws|].
    intros idx _. cbn. ring.
  - cbn [TDD.contract_sum fst snd].
    destruct (Val v (or_introl eq_refl)) as [Vi Vj].
    destruct (slice_sound t i j v W Vi Vj) as (new & E & Wn & Vn).
    rewrite E. cbn [bind].
    destruct (sum_node_sound_wf (shape_without t [i; j]) (fst summed) (fst new)
                                0 (snd summed) (snd new) Ws Wn) as [Vs Wsum].
    destruct (IH (weighted_node.sum summed new)) as (x & Ex & Wx & Vx);
      [intros u Hu; apply Val; now right | exact Wsum |].
    exists x. split; [exact Ex|]. split; [exact Wx|].
    intros idx R. rewrite (Vx idx R). unfold sum_over. cbn [fold_right].
    unfold weighted_node.sum. rewrite (Vs idx (in_range_fits _ _ R)).
    rewrite <- (Vn idx R). unfold eval. ring.
Qed.

Lemma sum_over_ext (values : list nat) (f g : nat -> Z) :
  (forall v, In v values -> f v = g v) -> sum_over values f = sum_over values g.
Proof.
  induction values as [|v values IH]; intros H; [reflexivity|].
  cbn [sum_over fold_right]. fold (sum_over values f) (sum_over values g).
  rewrite (H v (or_introl eq_refl)), IH by (intros; apply H; now right).
  reflexivity.
Qed.

Lemma contract_traces (t : TDD.TDD) (i j : nat) :
  default_order t ->
  wf_node (TDD.data_shape t) 0 (TDD.node t) = true ->
  i < length (TDD.data_shape t) ->
  j < length (TDD.data_shape t) ->
  0 < nth i (TDD.data_shape t) 0 ->
  nth i (TDD.data_shape t) 0 <= nth j (TDD.data_shape t) 0 ->
  exists r dt dr,
    TDD.contract t ([i], [j]) = Ok r /\
    default_order r /\
    TDD.CUDAcpl t = Ok dt /\
    TDD.CUDAcpl r = Ok dr /\
    shape dr = shape_without t [i; j] /\
    forall idx,
      in_range idx (shape dr) ->
      entry dr idx
      = sum_over (seq 0 (nth i (TDD.data_shape t) 0))
                 (fun v => entry dt (fixed_index [(i, v); (j, v)]
                                                 (length (TDD.data_shape t))
                                                 idx)).
Proof.
  intros D W Hi Hj Pos Le.
  set (n := length (TDD.data_shape t)) in *.
  destruct (nth i (TDD.data_shape t) 0) as [|w] eqn:Ew; [lia|].
  unfold TDD.contract. cbn [fst snd length seq mapM].
  unfold subscript at 1. cbn [nth_error bind].
  rewrite D, order_inverse_seq. fold n.
  rewrite (subscript_ok 0) by now rewrite length_seq.
  rewrite seq_nth by exact Hi. cbn [bind plus].
  unfold subscript at 1. cbn [nth_error bind].
  rewrite (subscript_ok 0) by now rewrite length_seq.
  rewrite seq_nth by exact Hj. cbn [bind plus length].
  cbn [TDD.contract_loop fst snd]. rewrite D. fold n.
  rewrite (subscript_ok 0) by now rewrite length_seq.
  rewrite seq_nth by exact Hi. cbn [bind plus].
  rewrite (subscript_ok 0) by exact Hi. rewrite Ew. cbn [bind].
  destruct (slice_sound t i j 0 W) as (first & E0 & W0 & V0); [lia | lia |].
  rewrite E0. cbn [bind]. replace (S w - 1) with w by lia.
  destruct (contract_sum_sound t i j W (seq 1 w) first) as (x & Ex & Wx & Vx);
    [intros v Hv; apply in_seq in Hv; lia | exact W0 |].
  rewrite Ex. cbn [bind map flat_map app fst snd]. destruct x as [nx wx].
  cbn [bind].
  rewrite (index_reduce_proc_default t [i; j] D). cbn [bind].
  set (shw := shape_without t [i; j]).
  set (r := TDD.mkTDD wx shw nx (seq 0 (length shw))).
  assert (Dr : default_order r) by reflexivity.
  destruct (CUDAcpl_default t D) as (dt & Ct & St & Et).
  destruct (CUDAcpl_default r Dr) as (dr & Cr & Sr & Er).
  exists r, dt, dr. repeat (split; [assumption || reflexivity|]).
  rewrite Sr. cbn [TDD.data_shape r]. intros idx R.
  pose proof (proj1 (in_range_nth _ _ R)) as Li.
  rewrite Er by exact Li. cbn [TDD.node TDD.weights r].
  rewrite (Vx idx R), (V0 idx R). cbn [seq sum_over fold_right].
  f_equal; [symmetry; apply Et, length_fixed_index|].
  apply sum_over_ext. intros v _. symmetry. apply Et, length_fixed_index.
Qed.

Lemma split_shape_default (sh : list nat) :
  split_shape sh (seq 0 (length sh)) = sh.
Proof. unfold split_shape. apply map_nth_seq. Qed.

Lemma as_tensor_default (T : Tensor) :
  (forall s, In s (shape T) -> 0 < s) ->
  exists t dense,
    TDD.as_tensor (TDD.OfTensor T) = Ok t /\
    default_order t /\
    TDD.data_shape t = shape T /\
    wf_node (shape T) 0 (TDD.node t) = true /\
    TDD.CUDAcpl t = Ok dense /\
    tensor_equal dense T.
Proof.
  intros Pos.
  destruct (roundtrip_self_inverse_order T [] Pos)
    as (t & dense & A & O & S & W & C & E).
  - apply is_order_seq.
  - apply length_seq.
  - apply self_inverse_seq.
  - cbn [result_index_order] in O, W. rewrite split_shape_default in W.
    exists t, dense. repeat (split; [assumption|]).
    split; [unfold default_order; now rewrite O, S|].
    repeat (split; [assumption|]). exact E.
Qed.

(** X15.  Indexing the diagram of a tensor fixes the named axes: for a tensor
    without empty axis under the default order and values within the
    extents, [index] succeeds, the result has the shape of the tensor
    without the named axes, and its dense array holds at [idx] the entry of
    the tensor at the index with the values at the named axes and [idx] on
    the others; for one pair [(p,v)] that index is [idx] with [v] put in at
    place [p]. *)
Theorem as_tensor_then_index (T : Tensor) (pairs : list (nat * nat)) :
  (forall s, In s (shape T) -> 0 < s) ->
  (forall pr, In pr pairs -> snd pr < nth (fst pr) (shape T) 0) ->
  exists t r dr,
    TDD.as_tensor (TDD.OfTensor T) = Ok t /\
    TDD.index t pairs = Ok r /\
    TDD.CUDAcpl r = Ok dr /\
    shape dr = TDD.data_shape r /\
    TDD.data_shape r = shape_without t (map fst pairs) /\
    (forall idx,
        in_range idx (shape dr) ->
        entry dr idx = entry T (fixed_index pairs (length (shape T)) idx)) /\
    (forall p v idx,
        pairs = [(p, v)] ->
        in_range idx (shape dr) ->
        entry dr idx = entry T (firstn p idx ++ v :: skipn p idx)).
Proof.
  intros Pos Val.
  destruct (as_tensor_default T Pos) as (t & dense & A & D & S & W & C & [Sd Ed]).
  rewrite <- S in W, Val.
  destruct (index_slices t pairs D W Val)
    as (r & dt & dr & I & Dr & Ct & Cr & Sr & V).
  rewrite C in Ct. apply Ok_inj in Ct. subst dt.
  exists t, r, dr. repeat (split; [assumption|]).
  assert (Shr : TDD.data_shape r = shape_without t (map fst pairs)).
  { rewrite (index_default t pairs D) in I.
    - destruct (weighted_node.index _ pairs); cbn [bind] in I; [|discriminate].
      apply Ok_inj in I. now subst r.
    - intros pr Hpr. specialize (Val pr Hpr).
      destruct (Nat.lt_ge_cases (fst pr) (length (TDD.data_shape t)))
        as [Lt|Ge]; [exact Lt|].
      rewrite nth_overflow in Val by exact Ge. lia. }
  split; [congruence|]. split; [exact Shr|].
  assert (Main : forall idx,
             in_range idx (shape dr) ->
             entry dr idx = entry T (fixed_index pairs (length (shape T)) idx)).
  { intros idx R. destruct (V idx R) as [Rf ->]. rewrite <- S.
    apply Ed. exact Rf. }
  split; [exact Main|].
  intros p v idx -> R. rewrite (Main idx R). f_equal.
  assert (Hp : p < length (shape T)).
  { specialize (Val (p, v) (or_introl eq_refl)). cbn [fst snd] in Val.
    rewrite S in Val.
    destruct (Nat.lt_ge_cases p (length (shape T))) as [Lt|Ge]; [exact Lt|].
    rewrite nth_overflow in Val by exact Ge. lia. }
  apply fixed_index_one; [exact Hp|].
  apply in_range_nth in R as [Li _]. rewrite Li, Sr.
  cbn [map fst]. unfold shape_without. rewrite length_map.
  assert (K : length (kept_axes t [p]) + length [p]
              = length (TDD.data_shape t)).
  { apply kept_axes_length; [repeat constructor; intros [] |].
    intros x [<-|[]]. now rewrite S. }
  cbn [length] in K. rewrite <- S. lia.
Qed.

(** X16.  Contracting one pair of axes of the diagram of a tensor is the
    partial trace: for a tensor without empty axis under the default order
    and a pair [(i,j)] whose second axis is no shorter than the first,
    [contract] succeeds, the result has the shape of the tensor without the
    two axes, and its dense array holds at [idx] the sum, over the places
    [v] of the axis [i], of the entries of the tensor with [v] at both
    axes. *)
Theorem as_tensor_then_contract (T : Tensor) (i j : nat) :
  (forall s, In s (shape T) -> 0 < s) ->
  i < length (shape T) ->
  j < length (shape T) ->
  nth i (shape T) 0 <= nth j (shape T) 0 ->
  exists t r dr,
    TDD.as_tensor (TDD.OfTensor T) = Ok t /\
    TDD.contract t ([i], [j]) = Ok r /\
    TDD.CUDAcpl r = Ok dr /\
    shape dr = TDD.data_shape r /\
    TDD.data_shape r = shape_without t [i; j] /\
    forall idx,
      in_range idx (shape dr) ->
      entry dr idx
      = sum_over (seq 0 (nth i (shape T) 0))
                 (fun v => entry T (fixed_index [(i, v); (j, v)]
                                                (length (shape T)) idx)).
Proof.
  intros Pos Hi Hj Le.
  destruct (as_tensor_default T Pos) as (t & dense & A & D & S & W & C & [Sd Ed]).
  rewrite <- S in W, Hi, Hj, Le.
  assert (P : 0 < nth i (TDD.data_shape t) 0).
  { apply Pos. rewrite <- S. now apply nth_In. }
  destruct (contract_traces t i j D W Hi Hj P Le)
    as (r & dt & dr & E & Dr & Ct & Cr & Sr & V).
  rewrite C in Ct. apply Ok_inj in Ct. subst dt.
  exists t, r, dr. repeat (split; [assumption|]).
  assert (Shr : TDD.data_shape r = shape_without t [i; j]).
  { apply contract_bookkeeping in E as (_ & B & R).
    rewrite (storage_positions_default t _ D B) in R.
    rewrite (index_reduce_proc_default t _ D) in R. apply Ok_inj in R.
    now injection R as <- _. }
  split; [congruence|]. split; [exact Shr|].
  intros idx R. rewrite (V idx R), <- S. apply sum_over_ext.
  intros v Hv. apply in_seq in Hv. apply Ed. rewrite Sd, <- S.
  apply (fixed_index_in_range t [(i, v); (j, v)]);
    [|cbn [map fst]; now rewrite <- Sr].
  intros d u Rq. apply requested_In in Rq.
  destruct Rq as [Rq|[Rq|[]]]; injection Rq as <- <-; lia.
Qed.

Lemma as_tensor_then_index_witness :
  fixed_index [(1, 1)] 3 [0; 1] = [0; 1; 1] /\
  exists t r dr,
    TDD.as_tensor (TDD.OfTensor Samples.T222) = Ok t /\
    TDD.index t [(1, 1)] = Ok r /\
    TDD.CUDAcpl r = Ok dr /\
    entry dr [0; 1] = entry Samples.T222 [0; 1; 1].
Proof.
  split; [reflexivity|].
  destruct (as_tensor_then_index Samples.T222 [(1, 1)])
    as (t & r & dr & A & I & C & S1 & S2 & V & _).
  - cbn. intuition lia.
  - intros pr [<-|[]]. cbn. lia.
  - exists t, r, dr. repeat (split; [assumption|]).
    rewrite V; [reflexivity|].
    rewrite S1, S2.
    assert (Sh : TDD.data_shape t = [2; 2; 2]).
    { vm_compute in A. apply Ok_inj in A. now rewrite <- A. }
    unfold shape_without, kept_axes. rewrite Sh. cbn. lia.
Defined.

Lemma as_tensor_then_contract_witness :
  exists t r dr,
    TDD.as_tensor (TDD.OfTensor Samples.T22) = Ok t /\
    TDD.contract t ([0], [1]) = Ok r /\
    TDD.CUDAcpl r = Ok dr /\
    entry dr [] = Z.add (entry Samples.T22 [0; 0]) (entry Samples.T22 [1; 1]).
Proof.
  destruct (as_tensor_then_contract Samples.T22 0 1)
    as (t & r & dr & A & E & C & S1 & S2 & V).
  - cbn. intuition lia.
  - cbn. lia.
  - cbn. lia.
  - cbn. lia.
  - exists t, r, dr. repeat (split; [assumption|]).
    rewrite V; [cbn; ring|].
    rewrite S1, S2.
    assert (Sh : TDD.data_shape t = [2; 2]).
    { vm_compute in A. apply Ok_inj in A. now rewrite <- A. }
    unfold shape_without, kept_axes. rewrite Sh. cbn. exact I.
Defined.

(** X17.  The sum of the diagrams of two tensors of the same shape, both
    under the default order, stands for the entrywise sum: its dense array
    has the shape of the tensors and holds the sum of their entries. *)
Theorem as_tensor_then_sum (A B : Tensor) :
  (forall s, In s (shape A) -> 0 < s) ->
  shape A = shape B ->
  exists a b r dr,
    TDD.as_tensor (TDD.OfTensor A) = Ok a /\
    TDD.as_tensor (TDD.OfTensor B) = Ok b /\
    TDD.sum a b = Ok r /\
    TDD.CUDAcpl r = Ok dr /\
    shape dr = shape A /\
    forall idx,
      in_range idx (shape A) ->
      entry dr idx = (entry A idx + entry B idx)%Z.
Proof.
  intros Pos Sh.
  destruct (as_tensor_default A Pos)
    as (a & da & Aa & Da & Sa & Wa & Ca & [Sda Eda]).
  destruct (as_tensor_default B) as (b & db & Ab & Db & Sb & Wb & Cb & [Sdb Edb]);
    [now rewrite <- Sh|].
  assert (WFa : well_formed a).
  { split; [now apply default_order_valid|].
    now rewrite (storage_shape_default a Da), Sa. }
  assert (WFb : well_formed b).
  { split; [now apply default_order_valid|].
    now rewrite (storage_shape_default b Db), Sb. }
  assert (Es : TDD.data_shape a = TDD.data_shape b) by congruence.
  assert (Eo : TDD.index_order a = TDD.index_order b).
  { unfold default_order in Da, Db. now rewrite Da, Db, Es. }
  destruct (sum_entries a b WFa WFb Es Eo)
    as (r & ta & tb & tr & S & _ & _ & _ & Cta & Ctb & Ctr & Str & Stb & V).
  rewrite Ca in Cta. rewrite Cb in Ctb. apply Ok_inj in Cta, Ctb. subst ta tb.
  exists a, b, r, tr. repeat (split; [assumption|]).
  split; [congruence|].
  intros idx R. rewrite V by now rewrite Sda.
  rewrite Eda by now rewrite Sda.
  rewrite Edb; [reflexivity|]. now rewrite Sdb, <- Sh.
Qed.

Lemma as_tensor_then_sum_witness :
  exists a b r dr,
    TDD.as_tensor (TDD.OfTensor Samples.T22) = Ok a /\
    TDD.as_tensor (TDD.OfTensor Samples.E01) = Ok b /\
    TDD.sum a b = Ok r /\
    TDD.CUDAcpl r = Ok dr /\
    entry dr [0; 1] = Z.add (entry Samples.T22 [0; 1]) 1.
Proof.
  destruct (as_tensor_then_sum Samples.T22 Samples.E01)
    as (a & b & r & dr & Aa & Ab & S & C & _ & V).
  - cbn. intuition lia.
  - reflexivity.
  - exists a, b, r, dr. repeat (split; [assumption|]).
    rewrite V; [reflexivity|]. cbn. lia.
Defined.

(** ** Index composition under the default order *)

Lemma filter_map_S (g : nat -> bool) (l : list nat) :
  filter g (map S l) = map S (filter (fun i => g (S i)) l).
Proof.
  induction l as [|a l IH]; [reflexivity|]. cbn [map filter].
  destruct (g (S a)); cbn [map]; now rewrite IH.
Qed.

Lemma pick_cons (g : nat -> bool) (x : nat) (l : list nat) :
  map (fun i => nth i (x :: l) 0) (filter g (seq 0 (length (x :: l))))
  = (if g 0 then [x] else [])
    ++ map (fun i => nth i l 0)
           (filter (fun i => g (S i)) (seq 0 (length l))).
Proof.
  cbn [length seq filter]. rewrite <- seq_shift, filter_map_S.
  destruct (g 0); cbn [map app nth]; rewrite map_map; reflexivity.
Qed.

Lemma pick_ext (g h : nat -> bool) (l : list nat) :
  (forall i, g i = h i) ->
  map (fun i => nth i l 0) (filter g (seq 0 (length l)))
  = map (fun i => nth i l 0) (filter h (seq 0 (length l))).
Proof. intros E. f_equal. now apply filter_ext. Qed.

Lemma pick_all (l : list nat) :
  map (fun i => nth i l 0) (filter (fun _ => true) (seq 0 (length l))) = l.
Proof.
  rewrite forallb_filter_id; [apply map_nth_seq|].
  apply forallb_forall. reflexivity.
Qed.

Lemma drop_one (l : list nat) :
  forall p,
    map (fun i => nth i l 0)
        (filter (fun i => negb (mem i [p])) (seq 0 (length l)))
    = remove_nth p l.
Proof.
  induction l as [|x l IH]; intros p; [reflexivity|].
  rewrite pick_cons. destruct p as [|p]; cbn [remove_nth mem existsb Nat.eqb orb negb app].
  - apply pick_all.
  - f_equal. rewrite <- (IH p). apply pick_ext. intros i. reflexivity.
Qed.

Lemma drop_two (l : list nat) :
  forall p q,
    p < q ->
    map (fun i => nth i l 0)
        (filter (fun i => negb (mem i [p; q])) (seq 0 (length l)))
    = remove_nth (q - 1) (remove_nth p l).
Proof.
  induction l as [|x l IH]; intros p q Hpq; [reflexivity|].
  rewrite pick_cons. destruct q as [|q]; [lia|].
  replace (S q - 1) with q by lia.
  destruct p as [|p]; cbn [remove_nth mem existsb Nat.eqb orb negb app].
  - rewrite <- (drop_one l q). apply pick_ext. intros i. reflexivity.
  - destruct q as [|q]; [lia|]. cbn [remove_nth]. f_equal.
    replace (remove_nth q (remove_nth p l))
      with (remove_nth (S q - 1) (remove_nth p l)) by (f_equal; lia).
    rewrite <- (IH p (S q)) by lia. apply pick_ext. intros i. reflexivity.
Qed.

Lemma length_remove_nth {A : Type} (l : list A) :
  forall p, p < length l -> length (remove_nth p l) = length l - 1.
Proof.
  induction l as [|x l IH]; intros p Hp; cbn in Hp; [lia|].
  destruct p as [|p]; cbn [remove_nth length]; [lia|].
  rewrite IH by lia. lia.
Qed.

Lemma nth_remove_nth (l : list nat) :
  forall p m, p <= m -> nth m (remove_nth p l) 0 = nth (S m) l 0.
Proof.
  induction l as [|x l IH]; intros p m Hpm.
  - cbn. now destruct m.
  - destruct p as [|p]; cbn [remove_nth]; [reflexivity|].
    destruct m as [|m]; [lia|]. cbn [nth]. apply IH. lia.
Qed.

Lemma In_remove_nth {A : Type} (l : list A) :
  forall p x, In x (remove_nth p l) -> In x l.
Proof.
  induction l as [|y l IH]; intros p x H; [destruct H|].
  destruct p as [|p]; cbn [remove_nth] in H; [now right|].
  destruct H as [<-|H]; [now left | right; exact (IH p x H)].
Qed.

Lemma shape_without_one (t : TDD.TDD) (p : nat) :
  shape_without t [p] = remove_nth p (TDD.data_shape t).
Proof. apply drop_one. Qed.

Lemma shape_without_two (t : TDD.TDD) (p q : nat) :
  p < q ->
  shape_without t [p; q] = remove_nth (q - 1) (remove_nth p (TDD.data_shape t)).
Proof. apply drop_two. Qed.

Lemma fixed_index_twice (p q u v n : nat) (j : list nat) :
  p < q -> q < n ->
  fixed_index [(p, u)] n (fixed_index [(q - 1, v)] (n - 1) j)
  = fixed_index [(p, u); (q, v)] n j.
Proof.
  intros Hpq Hq. apply (nth_ext _ _ 0 0); [now rewrite !length_fixed_index|].
  intros d Hd. rewrite length_fixed_index in Hd.
  rewrite (nth_fixed_index [(p, u)]), (nth_fixed_index [(p, u); (q, v)])
    by exact Hd.
  cbn [weighted_node.requested].
  rewrite fixed_below_one, fixed_below_two by lia.
  destruct (Nat.eqb_spec p d) as [->|Np]; [reflexivity|].
  assert (Hd' : d - (if p <? d then 1 else 0) < n - 1)
    by (destruct (Nat.ltb_spec p d); lia).
  rewrite nth_fixed_index by exact Hd'. cbn [weighted_node.requested].
  rewrite fixed_below_one.
  repeat match goal with
         | |- context [?a =? ?b] => destruct (Nat.eqb_spec a b)
         | |- context [?a <? ?b] => destruct (Nat.ltb_spec a b)
         end;
    try lia; try reflexivity; f_equal; lia.
Qed.

Lemma fits_in_range (j sh : list nat) :
  length j = length sh -> fits j sh -> in_range j sh.
Proof.
  intros L F. apply in_range_intro; [exact L|]. intros m Hm.
  apply F. now apply nth_error_nth'.
Qed.


(** What [index] returns on a diagram under the default order whose nodes
    fit its shape, for values inside the extents: it succeeds, and the
    weighted node it returns is read off the given one. *)
Lemma index_default_sound (t : TDD.TDD) (pairs : list (nat * nat)) :
  default_order t ->
  wf_node (TDD.data_shape t) 0 (TDD.node t) = true ->
  reduced (TDD.node t, TDD.weights t) = true ->
  (forall pr, In pr pairs -> snd pr < nth (fst pr) (TDD.data_shape t) 0) ->
  exists r,
    TDD.index t pairs = Ok r /\
    default_order r /\
    TDD.data_shape r = shape_without t (map fst pairs) /\
    wf_node (TDD.data_shape r) 0 (TDD.node r) = true /\
    reduced (TDD.node r, TDD.weights r) = true /\
    forall j,
      in_range j (TDD.data_shape r) ->
      in_range (fixed_index pairs (length (TDD.data_shape t)) j)
               (TDD.data_shape t) /\
      eval (TDD.node r, TDD.weights r) j
      = eval (TDD.node t, TDD.weights t)
             (fixed_index pairs (length (TDD.data_shape t)) j).
Proof.
  intros D W Rd Val.
  assert (B : forall pr, In pr pairs -> fst pr < length (TDD.data_shape t)).
  { intros pr Hpr. specialize (Val pr Hpr).
    destruct (Nat.lt_ge_cases (fst pr) (length (TDD.data_shape t)))
      as [Lt|Ge]; [exact Lt|].
    rewrite nth_overflow in Val by exact Ge. lia. }
  assert (Req : forall d v, weighted_node.requested d pairs = Some v ->
                            v < nth d (TDD.data_shape t) 0).
  { intros d v R. apply requested_In in R. exact (Val _ R). }
  rewrite (index_default t pairs D B). unfold weighted_node.index.
  cbn [fst snd].
  pose proof (index_node_ok_wf (TDD.data_shape t) pairs Req (TDD.node t) 0
                               (TDD.weights t) W) as O.
  destruct (weighted_node.index_node (TDD.node t) (TDD.weights t) pairs)
    as [[n' w']|e] eqn:E; [clear O | discriminate]. cbn [bind fst snd].
  eexists. split; [reflexivity|].
  cbn [TDD.data_shape TDD.node TDD.weights].
  split; [reflexivity|]. split; [reflexivity|]. split.
  { exact (index_node_wf t pairs (TDD.node t) 0 _ (n', w') W E). }
  split.
  { exact (index_node_reduced pairs (TDD.node t) (TDD.weights t) (n', w') Rd E). }
  intros j R. split; [now apply fixed_index_in_range|].
  exact (index_node_sound (TDD.data_shape t) pairs j
           (in_range_unfixed t pairs j R)
           (TDD.node t) 0 (TDD.weights t) (n', w') W E).
Qed.

(** X18.  Index composition holds under the default order: for the diagram
    of a tensor without empty axis, positions [p < q] and values inside the
    extents, fixing [p] and then position [q - 1] of what remains returns
    the very diagram that fixing [p] and [q] at once returns (same node,
    weights, shape and order). *)
Theorem index_composition_default_order (T : Tensor) (p q u v : nat) :
  (forall s, In s (shape T) -> 0 < s) ->
  p < q -> q < length (shape T) ->
  u < nth p (shape T) 0 -> v < nth q (shape T) 0 ->
  exists t t1 lhs rhs,
    TDD.as_tensor (TDD.OfTensor T) = Ok t /\
    TDD.index t [(p, u)] = Ok t1 /\
    TDD.index t1 [(q - 1, v)] = Ok lhs /\
    TDD.index t [(p, u); (q, v)] = Ok rhs /\
    lhs = rhs /\
    TDD.eq lhs rhs = true.
Proof.
  intros Pos Hpq Hq Hu Hv.
  destruct (as_tensor_default T Pos) as (t & dense & A & D & St & W & _ & _).
  assert (Rd : reduced (TDD.node t, TDD.weights t) = true)
    by (apply (as_tensor_reduced T [] []); exact A).
  rewrite <- St in W, Hq, Hu, Hv.
  assert (Pos' : forall s, In s (TDD.data_shape t) -> 0 < s)
    by now rewrite St.
  (* the first step on the left *)
  destruct (index_default_sound t [(p, u)] D W Rd)
    as (t1 & I1 & D1 & S1 & W1 & R1 & V1);
    [intros pr [<-|[]]; exact Hu|].
  cbn [map fst] in S1. rewrite shape_without_one in S1.
  (* the second step on the left *)
  destruct (index_default_sound t1 [(q - 1, v)] D1 W1 R1)
    as (lhs & I2 & D2 & S2 & W2 & R2 & V2).
  { intros pr [<-|[]]. cbn [fst snd]. rewrite S1.
    rewrite nth_remove_nth by lia. now replace (S (q - 1)) with q by lia. }
  cbn [map fst] in S2. rewrite shape_without_one, S1 in S2.
  (* both positions at once *)
  destruct (index_default_sound t [(p, u); (q, v)] D W Rd)
    as (rhs & I3 & D3 & S3 & W3 & R3 & V3);
    [intros pr [<-|[<-|[]]]; assumption|].
  cbn [map fst] in S3. rewrite shape_without_two in S3 by exact Hpq.
  exists t, t1, lhs, rhs. repeat (split; [assumption|]).
  assert (Sh : TDD.data_shape lhs = TDD.data_shape rhs) by congruence.
  assert (Po : forall s, In s (TDD.data_shape rhs) -> 0 < s).
  { intros s Hs. rewrite S3 in Hs. apply Pos'.
    eapply In_remove_nth, In_remove_nth, Hs. }
  rewrite Sh in W2.
  destruct (unique_reduced (TDD.data_shape rhs) Po (TDD.node lhs) (TDD.node rhs)
                           0 (TDD.weights lhs) (TDD.weights rhs) W2 W3 R2 R3)
    as [En Ew].
  { intros j Lj Fj. pose proof (fits_in_range j _ Lj Fj) as Rj.
    destruct (V3 j Rj) as [_ ->].
    rewrite <- Sh in Rj. destruct (V2 j Rj) as [R1j ->].
    destruct (V1 _ R1j) as [_ ->]. f_equal.
    rewrite S1, length_remove_nth by lia.
    now apply fixed_index_twice. }
  assert (E : lhs = rhs).
  { destruct lhs as [wl sl nl ol], rhs as [wr sr nr or].
    cbn [TDD.data_shape TDD.node TDD.weights TDD.index_order] in *.
    unfold default_order in D2, D3.
    cbn [TDD.data_shape TDD.index_order] in D2, D3. congruence. }
  split; [exact E|]. rewrite E. unfold TDD.eq, TDD.list_eqb.
  destruct (list_eq_dec Nat.eq_dec _ _) as [_|N]; [|congruence].
  unfold weighted_node.isequal. now rewrite wnode_eqb_refl.
Qed.

Lemma index_composition_default_order_witness :
  exists t t1 lhs rhs,
    TDD.as_tensor (TDD.OfTensor Samples.T2222) = Ok t /\
    TDD.index t [(0, 0)] = Ok t1 /\
    TDD.index t1 [(0, 1)] = Ok lhs /\
    TDD.index t [(0, 0); (1, 1)] = Ok rhs /\
    lhs = rhs /\
    TDD.eq lhs rhs = true.
Proof.
  apply (index_composition_default_order Samples.T2222 0 1 0 1);
    cbn; intuition lia.
Defined.

(** ** The accelerated facade *)

Section AcceleratedFacade.
Context {Pointer Info OrderInfo Seed : Type}.
Context {coordinator : pytdd_tdd.AbstractCoordinator OrderInfo Seed}.
Context {ctdd : pytdd_tdd.Backend Pointer Info}.

(** X13.  [trace], and [tensordot] on lists of axes, go to the backend only
    with two lists of axes of the same length.  [trace] refuses lists of
    different lengths before anything else; [tensordot] asks the coordinator
    first and then refuses them, so that a failure of the coordinator comes
    first; neither reaches the backend.  Fewer than two lists fail at the
    subscript. *)
Theorem axes_examination (a b : pytdd_tdd.TDD Pointer Info OrderInfo)
    (i1 i2 : list nat) (rest : list (list nat)) (rearrangement : list bool) :
  (length i1 <> length i2 ->
   pytdd_tdd.trace a (i1 :: i2 :: rest) = Err ShapeMismatch /\
   is_ok (pytdd_tdd.tensordot a b (pytdd_tdd.AxesLists (i1 :: i2 :: rest))
                              rearrangement) = false /\
   pytdd_tdd.tensordot a b (pytdd_tdd.AxesLists (i1 :: i2 :: rest))
                       rearrangement
   = (_ <- match rearrangement with
           | [] => pytdd_tdd.tensordot_rearrangement
                     (pytdd_tdd.coordinator_info a)
                     (pytdd_tdd.coordinator_info b)
                     (pytdd_tdd.AxesLists (i1 :: i2 :: rest))
           | _ :: _ => Ok rearrangement
           end ;;
      _ <- pytdd_tdd.tensordot_order_info
             (pytdd_tdd.coordinator_info a) (pytdd_tdd.coordinator_info b)
             (pytdd_tdd.AxesLists (i1 :: i2 :: rest)) ;;
      Err ShapeMismatch)) /\
  pytdd_tdd.trace a [] = Err IndexOutOfRange /\
  pytdd_tdd.trace a [i1] = Err IndexOutOfRange /\
  is_ok (pytdd_tdd.tensordot a b (pytdd_tdd.AxesLists []) rearrangement)
  = false /\
  is_ok (pytdd_tdd.tensordot a b (pytdd_tdd.AxesLists [i1]) rearrangement)
  = false.
Proof.
  assert (T : forall lists,
             (forall r, match lists with
                        | l1 :: l2 :: _ =>
                            if negb (length l1 =? length l2)
                            then @Err Pointer ShapeMismatch
                            else pytdd_tdd.ctdd_tensordot_ls
                                   (pytdd_tdd.pointer a) (pytdd_tdd.pointer b)
                                   l1 l2 r
                        | _ => Err IndexOutOfRange
                        end = Err (match lists with
                                   | _ :: _ :: _ => ShapeMismatch
                                   | _ => IndexOutOfRange
                                   end)) ->
             is_ok (pytdd_tdd.tensordot a b (pytdd_tdd.AxesLists lists)
                                        rearrangement) = false).
  { intros lists H. unfold pytdd_tdd.tensordot.
    destruct (match rearrangement with [] => _ | _ :: _ => _ end) as [r|e];
      cbn [bind]; [|reflexivity].
    destruct (pytdd_tdd.tensordot_order_info _ _ _) as [nci|e];
      cbn [bind]; [|reflexivity].
    specialize (H r). unfold subscript.
    destruct lists as [|l1 [|l2 lists]]; cbn [nth_error bind] in *;
      try reflexivity.
    now rewrite H. }
  split; [|repeat split; try reflexivity; apply T; reflexivity].
  intros N. apply Nat.eqb_neq in N. split; [|split].
  - unfold pytdd_tdd.trace, subscript. cbn [nth_error bind].
    now rewrite N.
  - apply T. intros r. now rewrite N.
  - unfold pytdd_tdd.tensordot, subscript.
    destruct (match rearrangement with [] => _ | _ :: _ => _ end) as [r|e];
      cbn [bind]; [|reflexivity].
    destruct (pytdd_tdd.tensordot_order_info _ _ _) as [nci|e];
      cbn [bind nth_error]; [|reflexivity].
    now rewrite N.
Qed.

End AcceleratedFacade.

(** X14.  On an order that is supplied, the examinations of the two facades
    agree: the accelerated [as_tensor] refuses the order exactly when the
    [as_tensor] of [tdd/tdd.py] fails with the shape-order mismatch. *)
Theorem facades_agree_on_explicit_order (coordinator_order : list nat)
    (tensor : Tensor) (parallel_shape storage_order : list nat) :
  storage_order <> [] ->
  (pytdd.examination_raises coordinator_order tensor (length parallel_shape)
                            storage_order = true
   <-> TDD.as_tensor (TDD.OfTuple tensor parallel_shape storage_order)
       = Err ShapeOrderMismatch).
Proof.
  intros N. destruct storage_order as [|o so]; [contradiction|].
  unfold pytdd.examination_raises, pytdd.storage_order_of.
  cbn [TDD.as_tensor]. unfold TDD.as_tensor_of.
  set (data_shape := skipn (length parallel_shape) (shape tensor)).
  cbn [length Nat.eqb negb]. rewrite andb_true_r.
  destruct (negb (length data_shape =? S (length so))); [tauto|].
  split; [discriminate|]. intros H. exfalso.
  destruct (TDD.as_tensor_iterate _ _ _ _ _ _) as [r|e] eqn:E;
    cbn [bind] in H; [discriminate|].
  apply as_tensor_iterate_errors in E. destruct E; congruence.
Qed.

Lemma facades_agree_on_explicit_order_witness :
  pytdd.examination_raises [] Samples.T22 0 [0; 1; 2] = true /\
  TDD.as_tensor (TDD.OfTuple Samples.T22 [] [0; 1; 2]) = Err ShapeOrderMismatch.
Proof.
  split; [reflexivity|].
  apply (facades_agree_on_explicit_order [] Samples.T22 [] [0; 1; 2]);
    [discriminate | reflexivity].
Defined.

(** * The diagrams the engine produces *)

(** ** The sum of weighted nodes commutes and associates *)





(** ** When [index] fails *)









(** ** References of the unique table *)
















(** ** What a produced diagram stands for *)

















(** ** The canonical form *)




(** ** The facade [sum] commutes and associates *)



(** ** The failures of the facade [index] *)



(** ** The data shape [contract] returns *)

(** C3 (code defect).  For the sample 2x2x3 tensor under the valid order
    [2,0,1], [contract] on the axes 0 and 1, both of extent 2, returns a node
    with three branches that holds the traces [T[0,0,k] + T[1,1,k]], but
    under the data shape [2]: [__index_reduce_proc] takes out of
    [data_shape] the entries at the storage positions 1 and 2 of the two
    axes, not the entries of the axes.  The traced tensor has the shape [3],
    which is what the same call returns under the default order, with the
    same node and weight. *)
Theorem contract_keeps_wrong_extent :
  is_order [2; 0; 1] = true /\
  exists t r t0 r0,
    TDD.as_tensor (TDD.OfTuple T223 [] [2; 0; 1]) = Ok t /\
    TDD.data_shape t = [2; 2; 3] /\
    TDD.contract t ([0], [1]) = Ok r /\
    TDD.data_shape r = [2] /\
    (exists succ, TDD.node r = Branch 0 succ /\ length succ = 3) /\
    (forall k, k < 3 ->
       eval (TDD.node r, TDD.weights r) [k]
       = Z.add (entry T223 [0; 0; k]) (entry T223 [1; 1; k])) /\
    TDD.as_tensor (TDD.OfTensor T223) = Ok t0 /\
    TDD.contract t0 ([0], [1]) = Ok r0 /\
    TDD.data_shape r0 = [3] /\
    TDD.node r0 = TDD.node r /\ TDD.weights r0 = TDD.weights r.
Proof.
  split; [reflexivity|].
  do 4 eexists. split; [vm_compute; reflexivity|]. split; [reflexivity|].
  split; [vm_compute; reflexivity|]. split; [reflexivity|].
  split; [eexists; split; reflexivity|]. split.
  - intros [|[|[|k]]] Hk; [reflexivity | reflexivity | reflexivity | lia].
  - split; [vm_compute; reflexivity|]. split; [vm_compute; reflexivity|].
    repeat split.
Qed.
